(** * Freight quoting portal: the quote route of the final revision

    A shallow embedding of the quote route in
    [src/app/api/init-db/route.ts] (lines 58 to 961, the revision with
    reverse geocoding: [parseNaturalLanguage], [detectCountry],
    [resolveUsAddress], [getShippoQuotes], [getFreightosQuotes] and [POST])
    and the properties of the routing classifier, the parcel extractor, the
    address cache and the quote normalizers.

    Modelling choices.
    - A JavaScript string is a Stdlib [string] whose characters are read as
      the code units U+0000..U+00FF (Latin-1): every text of this
      development, a request as well as an answer of a service, is a text of
      these characters, and every statement is about such texts.
      [toLowerCase], [trim], Unicode normalisation and the
      regular-expression character classes are written out for that range
      and are exact on it; [toUpperCase] is exact on it but for the three
      letters U+00B5, U+00DF and U+00FF, whose upper case is not one
      character of the range.  A text of this range has no lone surrogate,
      so [encodeURIComponent] does not throw on it.
    - A JavaScript number is an IEEE 754 binary64 value, [spec_float] with
      precision 53 and maximal exponent 1024; arithmetic is the correctly
      rounded arithmetic of [SpecFloat].
    - A regular expression is a syntax tree run by a backtracking matcher
      that follows the ECMAScript matching order (leftmost start, alternatives
      left to right, greedy and lazy quantifiers, captures).
    - External collaborators (the rate providers, the postal database, the
      geocoder, the process environment) are the fields of an environment
      record; their answers have the shape of the TypeScript interfaces the
      route declares for them, and the same question gets the same answer
      throughout a request.  The process-wide address cache and the list of
      external calls are threaded as explicit state through a small
      state-and-exception monad; [await] is sequencing.  The two
      computations of a [Promise.all] are started together: each reads the
      cache as it was when they were started, and which of their writes to
      the cache lands last is for the outside world to say.  The list of
      calls has the calls of the first computation before those of the
      second; how the two really interleave depends on the network, and no
      statement depends on the order between them.
    - The query strings and request bodies sent out are not built: an
      answer of the outside world is a function of the values they are built
      from. *)

From Stdlib Require Import ZArith NArith List Bool Ascii String Lia.
From Stdlib Require Import Floats.SpecFloat.
From stdpp Require Import gmap strings.

Import ListNotations.
Local Open Scope string_scope.

(** ** Characters and strings *)

Module Chars.

Local Open Scope N_scope.

Definition code (c : ascii) : N := N_of_ascii c.

Definition in_range (lo hi : N) (c : ascii) : bool :=
  (lo <=? code c)%N && (code c <=? hi)%N.

(** [\d] *)
Definition is_digit (c : ascii) : bool := in_range 48 57 c.

(** [\w]: the basic word characters [A-Za-z0-9_]. *)
Definition is_word (c : ascii) : bool :=
  in_range 97 122 c || in_range 65 90 c || in_range 48 57 c || (code c =? 95)%N.

(** [\s] and [String.prototype.trim]: white space and line terminators
    below U+0100. *)
Definition is_space (c : ascii) : bool :=
  in_range 9 13 c || (code c =? 32)%N || (code c =? 160)%N.

(** [.]: anything but a line terminator. *)
Definition is_dot (c : ascii) : bool :=
  negb ((code c =? 10)%N || (code c =? 13)%N).

Definition shift (c : ascii) (d : Z) : ascii :=
  ascii_of_N (Z.to_N (Z.of_N (code c) + d)).

(** One code unit of [toLowerCase]. *)
Definition lower (c : ascii) : ascii :=
  if in_range 65 90 c then shift c 32%Z
  else if in_range 192 222 c && negb (code c =? 215)%N then shift c 32%Z
  else c.

(** One code unit of [toUpperCase]; the upper cases of U+00B5 and U+00FF
    lie above U+00FF and that of U+00DF is two letters: the three are left
    as they are. *)
Definition upper (c : ascii) : ascii :=
  if in_range 97 122 c then shift c (-32)%Z
  else if in_range 224 254 c && negb (code c =? 247)%N then shift c (-32)%Z
  else c.

(** [normalize('NFD')] followed by the removal of U+0300..U+036F: a
    letter with a canonical decomposition keeps its base letter. *)
Definition strip_mark (c : ascii) : ascii :=
  let n := code c in
  let base (b : N) := ascii_of_N b in
  if in_range 192 197 c then base 65
  else if (n =? 199)%N then base 67
  else if in_range 200 203 c then base 69
  else if in_range 204 207 c then base 73
  else if (n =? 209)%N then base 78
  else if in_range 210 214 c then base 79
  else if in_range 217 220 c then base 85
  else if (n =? 221)%N then base 89
  else if in_range 224 229 c then base 97
  else if (n =? 231)%N then base 99
  else if in_range 232 235 c then base 101
  else if in_range 236 239 c then base 105
  else if (n =? 241)%N then base 110
  else if in_range 242 246 c then base 111
  else if in_range 249 252 c then base 117
  else if (n =? 253)%N || (n =? 255)%N then base 121
  else c.

End Chars.

Module Str.

Fixpoint map (f : ascii -> ascii) (s : string) : string :=
  match s with
  | EmptyString => EmptyString
  | String c s' => String (f c) (map f s')
  end.

Definition toLowerCase : string -> string := map Chars.lower.
Definition toUpperCase : string -> string := map Chars.upper.

(** [s.normalize('NFD').replace(/[\u0300-\u036f]/g, '')] *)
Definition stripDiacritics : string -> string := map Chars.strip_mark.

Fixpoint rev_onto (s acc : string) : string :=
  match s with
  | EmptyString => acc
  | String c s' => rev_onto s' (String c acc)
  end.

Definition rev (s : string) : string := rev_onto s EmptyString.

Fixpoint trimStart (s : string) : string :=
  match s with
  | String c s' => if Chars.is_space c then trimStart s' else s
  | EmptyString => EmptyString
  end.

Definition trim (s : string) : string := rev (trimStart (rev (trimStart s))).

(** [s.slice(a, a + n)] for in-range arguments. *)
Definition slice (a n : nat) (s : string) : string := String.substring a n s.

Fixpoint startsWith (p s : string) : bool :=
  match p, s with
  | EmptyString, _ => true
  | String a p', String b s' => Ascii.eqb a b && startsWith p' s'
  | String _ _, EmptyString => false
  end.

(** [s.includes(p)] *)
Fixpoint includes (p s : string) : bool :=
  startsWith p s ||
  match s with
  | EmptyString => false
  | String _ s' => includes p s'
  end.

(** [!s] is false exactly for a non-empty string. *)
Definition truthy (s : string) : bool :=
  match s with EmptyString => false | String _ _ => true end.

(** [s.split(',')]: never empty. *)
Fixpoint split_on (sep : ascii) (s : string) : list string :=
  match s with
  | EmptyString => [EmptyString]
  | String c s' =>
      if Ascii.eqb c sep then EmptyString :: split_on sep s'
      else match split_on sep s' with
           | w :: ws => String c w :: ws
           | [] => [String c EmptyString]
           end
  end.

Fixpoint join (sep : string) (l : list string) : string :=
  match l with
  | [] => EmptyString
  | [w] => w
  | w :: ws => w ++ sep ++ join sep ws
  end.

End Str.

(** ** Regular expressions

    The fragment of ECMAScript regular expressions the route uses, with the
    backtracking matcher of the language specification written in
    continuation-passing style. *)

Module Re.

Inductive regex : Type :=
| Eps
| Chr (p : ascii -> bool)
| Seq (r1 r2 : regex)
| Alt (r1 r2 : regex)
| Opt (r : regex)
| Star (greedy : bool) (r : regex)
| Grp (i : nat) (r : regex)
| WordB
| Bol
| Eol.

(** A position in the input: the index, the character before it, the text
    from it on, and the captures made so far (group number and captured
    text, latest first). *)
Record mstate : Type := MState {
  idx : nat;
  prev : option ascii;
  rest : string;
  caps : list (nat * string)
}.

Definition cont : Type := mstate -> option mstate.

Fixpoint groups (r : regex) : list nat :=
  match r with
  | Seq r1 r2 | Alt r1 r2 => groups r1 ++ groups r2
  | Opt r1 | Star _ r1 => groups r1
  | Grp i r1 => i :: groups r1
  | _ => []
  end.

(** Entering an iteration of a quantified atom resets its captures. *)
Definition clear (gs : list nat) (st : mstate) : mstate :=
  match gs with
  | [] => st
  | _ => MState (idx st) (prev st) (rest st)
           (List.filter (fun c => negb (existsb (Nat.eqb (fst c)) gs)) (caps st))
  end.

Definition set_cap (i : nat) (text : string) (st : mstate) : mstate :=
  MState (idx st) (prev st) (rest st) ((i, text) :: caps st).

(** The first [n] characters. *)
Definition prefix (n : nat) (text : string) : string := String.substring 0 n text.

Definition word_before (st : mstate) : bool :=
  match prev st with Some c => Chars.is_word c | None => false end.

Definition word_after (st : mstate) : bool :=
  match rest st with String c _ => Chars.is_word c | EmptyString => false end.

Definition orelse (a : option mstate) (b : unit -> option mstate) : option mstate :=
  match a with Some x => Some x | None => b tt end.

(** The iterations of a starred atom: [step] runs the atom once from a
    position; an iteration that consumes nothing is refused; [fuel] bounds
    the number of iterations by the length of the remaining text. *)
Fixpoint iterate (greedy : bool) (step : cont -> mstate -> option mstate)
    (k : cont) (fuel : nat) (st : mstate) {struct fuel} : option mstate :=
  match fuel with
  | O => k st
  | S fuel' =>
      let again (_ : unit) :=
        step (fun st' => if Nat.eqb (idx st') (idx st) then None
                         else iterate greedy step k fuel' st') st in
      if greedy then orelse (again tt) (fun _ => k st)
      else orelse (k st) again
  end.

Fixpoint run (r : regex) (k : cont) (st : mstate) {struct r} : option mstate :=
  match r with
  | Eps => k st
  | Chr p =>
      match rest st with
      | String c s' =>
          if p c then k (MState (S (idx st)) (Some c) s' (caps st)) else None
      | EmptyString => None
      end
  | Seq r1 r2 => run r1 (run r2 k) st
  | Alt r1 r2 => orelse (run r1 k st) (fun _ => run r2 k st)
  | Opt r1 =>
      orelse
        (run r1 (fun st' => if Nat.eqb (idx st') (idx st) then None else k st')
             (clear (groups r1) st))
        (fun _ => k st)
  | Star greedy r1 =>
      iterate greedy (fun k' st' => run r1 k' (clear (groups r1) st')) k
        (S (String.length (rest st))) st
  | Grp i r1 =>
      run r1 (fun st' => k (set_cap i (prefix (idx st' - idx st) (rest st)) st')) st
  | WordB => if xorb (word_before st) (word_after st) then k st else None
  | Bol => if Nat.eqb (idx st) 0 then k st else None
  | Eol => match rest st with EmptyString => k st | String _ _ => None end
  end.

(** The result of a successful match. *)
Record rmatch : Type := RMatch {
  m_input : string;
  m_start : nat;
  m_end : mstate
}.

(** Leftmost match starting at or after the given position. *)
Fixpoint search (r : regex) (i : nat) (p : option ascii) (s : string)
  : option (nat * mstate) :=
  match run r Some (MState i p s []) with
  | Some st => Some (i, st)
  | None =>
      match s with
      | EmptyString => None
      | String c s' => search r (S i) (Some c) s'
      end
  end.

(** [regex.exec(input)] with [lastIndex = 0], and [input.match(regex)]
    for a regex without the [g] flag. *)
Definition exec (r : regex) (input : string) : option rmatch :=
  match search r 0 None input with
  | Some (a, st) => Some (RMatch input a st)
  | None => None
  end.

Definition test (r : regex) (input : string) : bool :=
  match exec r input with Some _ => true | None => false end.

Fixpoint cap_lookup (i : nat) (l : list (nat * string)) : option string :=
  match l with
  | [] => None
  | (j, text) :: l' => if Nat.eqb j i then Some text else cap_lookup i l'
  end.

(** [match[0]] *)
Definition whole (m : rmatch) : string :=
  String.substring (m_start m) (idx (m_end m) - m_start m) (m_input m).

(** [match[i]] for [i >= 1]; [None] is [undefined]. *)
Definition group (i : nat) (m : rmatch) : option string :=
  cap_lookup i (caps (m_end m)).

(** The loop of repeated [exec] calls on a regex with the [g] flag; after
    an empty match the next search starts one character further. *)
Fixpoint exec_all (fuel : nat) (r : regex) (input : string)
    (i : nat) (p : option ascii) (s : string) : list rmatch :=
  match fuel with
  | O => []
  | S fuel' =>
      match search r i p s with
      | None => []
      | Some (a, st) =>
          RMatch input a st ::
          (if Nat.eqb (idx st) a then
             match rest st with
             | EmptyString => []
             | String c s' => exec_all fuel' r input (S (idx st)) (Some c) s'
             end
           else exec_all fuel' r input (idx st) (prev st) (rest st))
      end
  end.

Definition matchAll (r : regex) (input : string) : list rmatch :=
  exec_all (S (String.length input)) r input 0 None input.

(** [input.replace(regex, by)] for a regex with the [g] flag and a
    replacement text without [$] patterns. *)
Fixpoint splice (ms : list rmatch) (by_ : string) (from : nat) (input : string) : string :=
  match ms with
  | [] => String.substring from (String.length input - from) input
  | m :: ms' =>
      String.substring from (m_start m - from) input ++ by_ ++
      splice ms' by_ (idx (m_end m)) input
  end.

Definition replaceAll (r : regex) (by_ : string) (input : string) : string :=
  splice (matchAll r input) by_ 0 input.

(** *** Building expressions *)

Definition chr (c : ascii) : regex := Chr (Ascii.eqb c).

(** A pattern character under the [i] flag: equal after canonicalisation
    (upper case). *)
Definition chri (c : ascii) : regex :=
  Chr (fun x => Ascii.eqb (Chars.upper x) (Chars.upper c)).

Fixpoint liti (s : string) : regex :=
  match s with
  | EmptyString => Eps
  | String c EmptyString => chri c
  | String c s' => Seq (chri c) (liti s')
  end.

Fixpoint seqs (l : list regex) : regex :=
  match l with
  | [] => Eps
  | [r] => r
  | r :: l' => Seq r (seqs l')
  end.

Fixpoint alts (l : list regex) : regex :=
  match l with
  | [] => Chr (fun _ => false)
  | [r] => r
  | r :: l' => Alt r (alts l')
  end.

Definition plus (r : regex) : regex := Seq r (Star true r).
Definition plus_lazy (r : regex) : regex := Seq r (Star false r).
Definition star (r : regex) : regex := Star true r.

Fixpoint times (n : nat) (r : regex) : regex :=
  match n with
  | O => Eps
  | 1 => r
  | S n' => Seq r (times n' r)
  end.

Definition d : regex := Chr Chars.is_digit.
Definition s : regex := Chr Chars.is_space.
Definition dot : regex := Chr Chars.is_dot.

(** Alternation of literal words, [a|b|c], under the [i] flag. *)
Definition wordsi (l : list string) : regex := alts (List.map liti l).

End Re.

(** ** Numbers

    IEEE 754 binary64 values and the operations of the language on them. *)

Module Num.

Definition number : Type := spec_float.

Definition prec : Z := 53.
Definition emax : Z := 1024.

Definition add : number -> number -> number := SFadd prec emax.
Definition mul : number -> number -> number := SFmul prec emax.
Definition div : number -> number -> number := SFdiv prec emax.
Definition sub : number -> number -> number := SFsub prec emax.
Definition ltb : number -> number -> bool := SFltb.
Definition leb : number -> number -> bool := SFleb.

(** [a > b] *)
Definition gtb (a b : number) : bool := ltb b a.

(** The number nearest to the integer [z]. *)
Definition of_Z (z : Z) : number := binary_normalize prec emax z 0 false.

(** The number nearest to the rational [n / d], for positive [n] and [d]. *)
Definition of_ratio (neg : bool) (n d : positive) : number :=
  let '(q, e, l) := SFdiv_core_binary prec emax (Zpos n) 0 (Zpos d) 0 in
  binary_round_aux prec emax neg q e l.

(** The number nearest to [m * 10 ^ e]. *)
Definition of_decimal (neg : bool) (m : Z) (e : Z) : number :=
  match m with
  | Zpos p =>
      if (0 <=? e)%Z
      then binary_normalize prec emax (if neg then Zneg (p * Z.to_pos (10 ^ e)) else Zpos (p * Z.to_pos (10 ^ e))) 0 false
      else of_ratio neg p (Z.to_pos (10 ^ (- e)))
  | _ => S754_zero neg
  end.

Definition zero : number := S754_zero false.
Definition infinity : number := S754_infinity false.

(** [!x] is false exactly for a number other than [0], [-0] and [NaN]. *)
Definition truthy (x : number) : bool :=
  match x with
  | S754_zero _ | S754_nan => false
  | _ => true
  end.

(** *** [parseFloat] *)

Fixpoint digits (s : string) (acc : Z) (n : nat) : Z * nat * string :=
  match s with
  | String c s' =>
      if Chars.is_digit c
      then digits s' (10 * acc + (Z.of_N (Chars.code c) - 48))%Z (S n)
      else (acc, n, s)
  | EmptyString => (acc, n, s)
  end.

(** The exponent part [e], [e+] or [e-] followed by digits; absent or
    incomplete, it contributes nothing. *)
Definition exponent (s : string) : Z :=
  match s with
  | String c s' =>
      if Ascii.eqb (Chars.lower c) "e"%char then
        let '(neg, s'') :=
          match s' with
          | String "-"%char t => (true, t)
          | String "+"%char t => (false, t)
          | _ => (false, s')
          end in
        let '(v, n, _) := digits s'' 0%Z 0 in
        match n with O => 0%Z | _ => if neg then (- v)%Z else v end
      else 0%Z
  | EmptyString => 0%Z
  end.

Definition unsigned_literal (neg : bool) (s : string) : number :=
  if Str.startsWith "Infinity" s then S754_infinity neg
  else
    let '(i, ni, s1) := digits s 0%Z 0 in
    let '(m, nf, s2) :=
      match s1 with
      | String "."%char t => digits t i 0
      | _ => (i, 0, s1)
      end in
    match ni + nf with
    | O => S754_nan
    | _ => of_decimal neg m (exponent s2 - Z.of_nat nf)
    end.

Definition parseFloat (s : string) : number :=
  match Str.trimStart s with
  | String "-"%char t => unsigned_literal true t
  | String "+"%char t => unsigned_literal false t
  | t => unsigned_literal false t
  end.

(** A numeric literal of the source text. *)
Definition literal (s : string) : number := parseFloat s.

(** *** [Math.ceil], [Math.round] *)

Definition Math_ceil (x : number) : number :=
  match x with
  | S754_finite sg m e =>
      if (0 <=? e)%Z then x
      else
        let fl := Z.shiftr (Zpos m) (- e) in
        let exact := (Z.shiftl fl (- e) =? Zpos m)%Z in
        if sg then binary_normalize prec emax (- fl) 0 true
        else binary_normalize prec emax (if exact then fl else fl + 1) 0 false
  | _ => x
  end.

(** Round half up: [floor (x + 1/2)], keeping the sign of a zero result. *)
Definition Math_round (x : number) : number :=
  match x with
  | S754_finite sg m e =>
      if (0 <=? e)%Z then x
      else
        let k := (- e)%Z in
        let v := if sg then Zneg m else Zpos m in
        binary_normalize prec emax ((2 * v + 2 ^ k) / 2 ^ (k + 1)) 0 sg
  | _ => x
  end.

End Num.

Arguments Num.of_Z : simpl never.
Arguments Num.parseFloat : simpl never.
Arguments Num.literal : simpl never.

(** ** The data model *)

Module Parcel.
Record t : Type := Build {
  length : Num.number;
  width : Num.number;
  height : Num.number;
  weight : Num.number
}.
End Parcel.

Record ParsedRequest : Type := mkParsedRequest {
  parcels : list Parcel.t;
  origin : string;
  destination : string;
  originCountry : string;
  destCountry : string;
  isInternational : bool;
  isPallet : bool;
  needsBothQuotes : bool
}.

(** A piece of a template literal: fixed text or an interpolated number. *)
Inductive piece : Type :=
| Text (t : string)
| Number (n : Num.number).

Record QuoteResult : Type := mkQuote {
  provider : string;
  service : string;
  price : Num.number;
  currency : string;
  transitDays : option (list piece);
  mode : option string
}.

(** ** Unit normalizer and parcel extractor *)

Definition INCHES_PER_CM : Num.number := Eval vm_compute in Num.literal "0.3937007874".
Definition POUNDS_PER_KG : Num.number := Eval vm_compute in Num.literal "2.2046226218".

Definition INTL_INDICATORS : list string :=
  ["china"; "shanghai"; "beijing"; "uk"; "london"; "germany"; "france"; "japan";
   "tokyo"; "canada"; "mexico"; "india"; "australia"; "brazil"; "brasil"; "spain";
   "espana"; "italy"; "netherlands"; "korea"; "vietnam"; "thailand"; "singapore";
   "hong kong"; "taiwan"; "colombia"; "argentina"; "peru"; "chile"; "venezuela"].

(** [unit?: string]: an absent unit is [None]; [!unit] also holds for the
    empty string. *)
Definition no_unit (unit : option string) : bool :=
  match unit with
  | Some u => negb (Str.truthy u)
  | None => true
  end.

Definition normalizeLength (value : Num.number) (unit : option string) : Num.number :=
  match unit with
  | Some u =>
      if no_unit unit then value
      else
        let normalized := Str.toLowerCase u in
        if String.eqb normalized "cm" || String.eqb normalized "cms"
           || Str.startsWith "centimetro" normalized
        then Num.mul value INCHES_PER_CM
        else value
  | None => value
  end.

Definition normalizeWeight (value : Num.number) (unit : option string) : Num.number :=
  match unit with
  | Some u =>
      if no_unit unit then value
      else
        let normalized := Str.toLowerCase u in
        if String.eqb normalized "kg" || String.eqb normalized "kgs"
           || Str.startsWith "kilo" normalized || Str.startsWith "kilogramo" normalized
        then Num.mul value POUNDS_PER_KG
        else value
  | None => value
  end.

(** [parseFloat(match[i])]: an undefined group reads as the text
    ["undefined"], which is not a number. *)
Definition parseFloat_group (i : nat) (m : Re.rmatch) : Num.number :=
  match Re.group i m with
  | Some t => Num.parseFloat t
  | None => S754_nan
  end.

Module Pattern.
Import Re.

Definition quote : ascii := ascii_of_N 34.
Definition times_sign : ascii := ascii_of_N 215.
Definition newline : ascii := ascii_of_N 10.

(** [(\d+(?:\.\d+)?)] as group [i] *)
Definition num (i : nat) : regex :=
  Grp i (Seq (plus d) (Opt (Seq (chr ".") (plus d)))).

(** [\s*] *)
Definition ws : regex := star s.

(** [(?:x|\u00d7|\*|by|por)] *)
Definition dimSeparatorPattern : regex :=
  alts [liti "x"; chri times_sign; chr "*"; liti "by"; liti "por"].

(** [(in\.?|inch(?:es)?|cm|cms|centimetro(?:s)?|pulgada(?:s)?|QUOTE)], where
    QUOTE is the inch mark U+0022. *)
Definition dimUnitPattern (i : nat) : regex :=
  Grp i (alts [Seq (liti "in") (Opt (chr "."));
               Seq (liti "inch") (Opt (liti "es"));
               liti "cm"; liti "cms";
               Seq (liti "centimetro") (Opt (liti "s"));
               Seq (liti "pulgada") (Opt (liti "s"));
               chr quote]).

(** [(lb|lbs|pound(?:s)?|libra(?:s)?|kg|kgs|kilo(?:s)?|kilogramo(?:s)?)] *)
Definition weightUnitPattern (i : nat) : regex :=
  Grp i (alts [liti "lb"; liti "lbs";
               Seq (liti "pound") (Opt (liti "s"));
               Seq (liti "libra") (Opt (liti "s"));
               liti "kg"; liti "kgs";
               Seq (liti "kilo") (Opt (liti "s"));
               Seq (liti "kilogramo") (Opt (liti "s"))]).

(** Three numbers, each with an optional unit, joined by separators:
    groups 1 to 6. *)
Definition dimOnlyPattern : regex :=
  seqs [num 1; ws; Opt (dimUnitPattern 2); ws; dimSeparatorPattern; ws;
        num 3; ws; Opt (dimUnitPattern 4); ws; dimSeparatorPattern; ws;
        num 5; ws; Opt (dimUnitPattern 6)].

(** The dimension triple followed by
    [\s*(?:,|\s)*(?:weighing\s+|weight\s+|weighs\s+|peso\s+|pesa\s+|pesando\s+)?]
    and the weight, groups 7 and 8. *)
Definition boxPattern : regex :=
  seqs [dimOnlyPattern; ws; star (Alt (chr ",") s);
        Opt (alts [Seq (liti "weighing") (plus s); Seq (liti "weight") (plus s);
                   Seq (liti "weighs") (plus s); Seq (liti "peso") (plus s);
                   Seq (liti "pesa") (plus s); Seq (liti "pesando") (plus s)]);
        num 7; Opt (Seq ws (weightUnitPattern 8))].

(** [(\d+(?:\.\d+)?)\s*(unit)\b] *)
Definition weightPattern : regex :=
  seqs [num 1; ws; weightUnitPattern 2; WordB].

(** [(?:weight|weighs|weighing|peso|pesa|pesando)\s*(\d+(?:\.\d+)?)(?:\s*(unit))?] *)
Definition weightWordPattern : regex :=
  seqs [wordsi ["weight"; "weighs"; "weighing"; "peso"; "pesa"; "pesando"]; ws;
        num 1; Opt (Seq ws (weightUnitPattern 2))].

(** [[\w\s,.-]] *)
Definition place_char : regex :=
  Chr (fun c => Chars.is_word c || Chars.is_space c
                || Ascii.eqb c "," || Ascii.eqb c "." || Ascii.eqb c "-").

(** [/\b(?:from|desde|de)\s+([\w\s,.-]+?)(?:\s+(?:to|a|hasta)\s+|$)/i] *)
Definition fromPattern : regex :=
  seqs [WordB; wordsi ["from"; "desde"; "de"]; plus s; Grp 1 (plus_lazy place_char);
        alts [seqs [plus s; wordsi ["to"; "a"; "hasta"]; plus s]; Eol]].

(** [/\b(?:to|a|hasta)\s+([\w\s,.-]+?)(?:\s+(?:from|de|desde)|$|\.|\n)/i] *)
Definition toPattern : regex :=
  seqs [WordB; wordsi ["to"; "a"; "hasta"]; plus s; Grp 1 (plus_lazy place_char);
        alts [Seq (plus s) (wordsi ["from"; "de"; "desde"]); Eol; chr "."; chr newline]].

(** [/\b\d{5}(-\d{4})?\b/] *)
Definition zipPattern : regex :=
  seqs [WordB; times 5 d; Opt (Grp 1 (Seq (chr "-") (times 4 d))); WordB].

(** [/\b\d+(?:\.\d+)?\b/g] *)
Definition numberPattern : regex :=
  seqs [WordB; plus d; Opt (Seq (chr ".") (plus d)); WordB].

(** The key words removed before the last-resort route match. *)
Definition noisePattern : regex :=
  seqs [WordB;
        Grp 1 (wordsi
          ["ship"; "shipping"; "box"; "boxes"; "caja"; "cajas"; "paquete"; "paquetes";
           "pallet"; "pallets"; "palet"; "palets"; "paleta"; "paletas"; "crate";
           "crates"; "package"; "packages"; "parcel"; "parcels"; "freight"; "envio";
           "enviar"; "weighing"; "weight"; "weighs"; "peso"; "pesa"; "pesando"; "lb";
           "lbs"; "pound"; "pounds"; "libra"; "libras"; "kg"; "kgs"; "kilo"; "kilos";
           "kilogramo"; "kilogramos"; "inch"; "inches"; "in"; "cm"; "cms";
           "centimetro"; "centimetros"; "pulgada"; "pulgadas"]);
        WordB].

(** [/(?:from|de|desde)?\s*(.+?)\s+(?:to|a|hasta)\s+(.+)/i] *)
Definition simpleRoutePattern : regex :=
  seqs [Opt (wordsi ["from"; "de"; "desde"]); ws; Grp 1 (plus_lazy dot); plus s;
        wordsi ["to"; "a"; "hasta"]; plus s; Grp 2 (plus dot)].

(** [/pallet|freight|lcl|fcl|container/i] *)
Definition palletWords : list string := ["pallet"; "freight"; "lcl"; "fcl"; "container"].
Definition palletPattern : regex := wordsi palletWords.

End Pattern.

(** [collectMatches(pattern, input)]: the matches of repeated [exec] calls
    from [lastIndex = 0]; none of the patterns it is used with matches the
    empty text. *)
Definition collectMatches (pattern : Re.regex) (input : string) : list Re.rmatch :=
  Re.matchAll pattern input.

(** ** Country classification *)

Definition US_ZIP_REGEX : Re.regex :=
  Re.seqs [Re.Bol; Re.times 5 Re.d;
           Re.Opt (Re.Grp 1 (Re.Seq (Re.chr "-") (Re.times 4 Re.d))); Re.Eol].

Definition usNames : Re.regex :=
  Re.seqs [Re.WordB; Re.Grp 1 (Re.wordsi ["usa"; "us"; "united states"; "america"]);
           Re.WordB].

Definition usCities : Re.regex :=
  Re.seqs [Re.WordB;
           Re.Grp 1 (Re.wordsi
             ["miami"; "los angeles"; "new york"; "chicago"; "houston"; "phoenix";
              "philadelphia"; "san antonio"; "san diego"; "dallas"; "san jose";
              "austin"; "jacksonville"; "fort worth"; "columbus"; "charlotte";
              "seattle"; "denver"; "boston"; "detroit"; "nashville"; "portland";
              "las vegas"; "memphis"; "louisville"; "baltimore"; "milwaukee";
              "albuquerque"; "tucson"; "fresno"; "sacramento"; "atlanta";
              "kansas city"; "colorado springs"; "omaha"; "raleigh";
              "virginia beach"; "oakland"; "minneapolis"; "tulsa"; "wichita";
              "cleveland"; "tampa"; "orlando"]);
           Re.WordB].

(** The chain of key-word tests after the United States tests, in order. *)
Definition countryLexicon : list (list string * string) :=
  [ (["china"; "shanghai"; "beijing"; "shenzhen"; "guangzhou"], "CN");
    (["uk"; "united kingdom"; "london"; "manchester"; "birmingham"; "england"; "britain"], "GB");
    (["germany"; "berlin"; "munich"; "frankfurt"; "hamburg"], "DE");
    (["france"; "paris"; "lyon"; "marseille"], "FR");
    (["japan"; "tokyo"; "osaka"; "kyoto"], "JP");
    (["canada"; "toronto"; "vancouver"; "montreal"; "ottawa"], "CA");
    (["mexico"; "mexico city"; "guadalajara"; "cancun"], "MX");
    (["india"; "mumbai"; "delhi"; "bangalore"], "IN");
    (["australia"; "sydney"; "melbourne"; "brisbane"], "AU");
    (["brazil"; "brasil"; "rio de janeiro"; "sao paulo"], "BR");
    (["puerto rico"; "san juan"], "US");
    (["spain"; "espana"; "madrid"; "barcelona"], "ES");
    (["colombia"; "bogota"; "medellin"; "cali"], "CO");
    (["argentina"; "buenos aires"; "cordoba"; "rosario"], "AR");
    (["peru"; "lima"], "PE");
    (["chile"; "santiago"], "CL");
    (["venezuela"; "caracas"], "VE") ].

Fixpoint firstCountry (lex : list (list string * string)) (loc : string) : string :=
  match lex with
  | [] => "US"
  | (words, code) :: lex' =>
      if Re.test (Re.wordsi words) loc then code else firstCountry lex' loc
  end.

Definition detectCountry (location : string) : string :=
  let loc := Str.toLowerCase location in
  if Re.test US_ZIP_REGEX location || Re.test usNames loc || Re.test usCities loc
  then "US"
  else firstCountry countryLexicon loc.

(** ** [parseNaturalLanguage] *)

(** A parcel of the combined pattern: groups 1 to 8 of one match. *)
Definition boxParcel (m : Re.rmatch) : Parcel.t :=
  Parcel.Build
    (normalizeLength (parseFloat_group 1 m) (Re.group 2 m))
    (normalizeLength (parseFloat_group 3 m) (Re.group 4 m))
    (normalizeLength (parseFloat_group 5 m) (Re.group 6 m))
    (normalizeWeight (parseFloat_group 7 m) (Re.group 8 m)).

(** The loop over [dimMatches]: the [i]-th triple takes the [i]-th weight
    match, else the stated default weight, else 10. *)
Fixpoint pairParcels (i : nat) (dimMatches weightMatches : list Re.rmatch)
    (defaultWeight : option Num.number) : list Parcel.t :=
  match dimMatches with
  | [] => []
  | dim :: dims =>
      let weight :=
        match nth_error weightMatches i with
        | Some wm => normalizeWeight (parseFloat_group 1 wm) (Re.group 2 wm)
        | None =>
            match defaultWeight with
            | Some dw => dw
            | None => Num.of_Z 10
            end
        end in
      Parcel.Build
        (normalizeLength (parseFloat_group 1 dim) (Re.group 2 dim))
        (normalizeLength (parseFloat_group 3 dim) (Re.group 4 dim))
        (normalizeLength (parseFloat_group 5 dim) (Re.group 6 dim))
        weight
      :: pairParcels (S i) dims weightMatches defaultWeight
  end.

Definition extractParcels (normalizedInput : string) : list Parcel.t :=
  let defaultWeight :=
    match Re.exec Pattern.weightWordPattern normalizedInput with
    | Some wm => Some (normalizeWeight (parseFloat_group 1 wm) (Re.group 2 wm))
    | None => None
    end in
  match collectMatches Pattern.boxPattern normalizedInput with
  | [] =>
      pairParcels 0
        (collectMatches Pattern.dimOnlyPattern normalizedInput)
        (collectMatches Pattern.weightPattern normalizedInput)
        defaultWeight
  | matches => List.map boxParcel matches
  end.

(** The text left for the last-resort route match. *)
Definition stripNoise (normalizedInput : string) : string :=
  Str.trim
    (Re.replaceAll (Re.plus Re.s) " "
      (Re.replaceAll Pattern.noisePattern " "
        (Re.replaceAll Pattern.numberPattern " "
          (Re.replaceAll Pattern.weightPattern " "
            (Re.replaceAll Pattern.dimOnlyPattern " "
              (Re.replaceAll Pattern.boxPattern " " normalizedInput)))))).

Definition trimmedGroup (i : nat) (m : Re.rmatch) : string :=
  match Re.group i m with
  | Some t => Str.trim t
  | None => ""
  end.

Definition extractRoute (normalizedInput : string) : string * string :=
  let fromMatch := Re.exec Pattern.fromPattern normalizedInput in
  let toMatch := Re.exec Pattern.toPattern normalizedInput in
  let zipCodes := List.map Re.whole (Re.matchAll Pattern.zipPattern normalizedInput) in
  let origin :=
    match fromMatch with
    | Some m => trimmedGroup 1 m
    | None => nth 0 zipCodes ""
    end in
  let destination :=
    match toMatch with
    | Some m => trimmedGroup 1 m
    | None => nth 1 zipCodes ""
    end in
  if negb (Str.truthy origin) || negb (Str.truthy destination) then
    match Re.exec Pattern.simpleRoutePattern (stripNoise normalizedInput) with
    | Some m =>
        (if Str.truthy origin then origin else trimmedGroup 1 m,
         if Str.truthy destination then destination else trimmedGroup 2 m)
    | None => (origin, destination)
    end
  else (origin, destination).

Definition totalWeightOf (ps : list Parcel.t) : Num.number :=
  fold_left (fun sum p => Num.add sum (Parcel.weight p)) ps Num.zero.

Definition totalVolumeOf (ps : list Parcel.t) : Num.number :=
  fold_left
    (fun sum p =>
       Num.add sum (Num.mul (Num.mul (Parcel.length p) (Parcel.width p)) (Parcel.height p)))
    ps Num.zero.

Definition parseNaturalLanguage (input : string) : ParsedRequest :=
  let normalizedInput := Str.stripDiacritics input in
  let text := Str.toLowerCase normalizedInput in
  let parcels := extractParcels normalizedInput in
  let '(origin, destination) := extractRoute normalizedInput in
  let originCountry := detectCountry origin in
  let destCountry := detectCountry destination in
  let isInternational :=
    negb (String.eqb originCountry destCountry)
    || existsb (fun ind => Str.includes ind text) INTL_INDICATORS in
  let isPallet := Re.test Pattern.palletPattern text in
  let totalWeight := totalWeightOf parcels in
  let totalVolume := totalVolumeOf parcels in
  let multipleBoxes := Nat.ltb 1 (List.length parcels) in
  let heavyShipment := Num.gtb totalWeight (Num.of_Z 150) in
  let largeVolume := Num.gtb totalVolume (Num.of_Z 50000) in
  let needsBothQuotes :=
    multipleBoxes || (isInternational && negb isPallet) || heavyShipment || largeVolume in
  mkParsedRequest parcels origin destination originCountry destCountry
    isInternational isPallet needsBothQuotes.

(** ** External collaborators and effects *)

(** What awaiting [fetch(url)] gives: the promise rejects (no connection),
    or a response arrives with its [ok] flag and a body: [Some] value of the
    type the route declares for it, or [None] for a body that [json()]
    rejects or that is the JSON value [null].  The route treats the two
    alike: reading a field of [null] throws inside the same [try] in which
    [json()] would have, and the lookups that guard the access with [?.]
    find nothing in it, which is also what their [catch] answers. *)
Inductive fetched (A : Type) : Type :=
| NetworkError
| Response (ok : bool) (body : option A).
Arguments NetworkError {A}.
Arguments Response {A} ok body.

(** One place of the postal database's answer. *)
Record ZipPlace : Type := mkZipPlace {
  place_name : option string;
  state_abbreviation : option string;
  post_code : option string
}.

(** The [address] object of a geocoder result and the result itself. *)
Record GeoAddress : Type := mkGeoAddress {
  geo_city : option string;
  geo_town : option string;
  geo_village : option string;
  geo_hamlet : option string;
  geo_state : option string;
  geo_postcode : option string
}.

Record GeoResult : Type := mkGeoResult {
  geo_address : option GeoAddress;
  geo_lat : option string;
  geo_lon : option string
}.

(** What the route holds as the state of an address.  It is the text of
    an abbreviation, but for a state name that is "constructor" or
    "__proto__": the table of state names is a plain object, and for these
    two names the lookup [US_STATE_ABBREVIATIONS[name]] gives what every
    object inherits, the function [Object] and the object
    [Object.prototype]. *)
Inductive stateValue : Type :=
| StateText (t : string)
| ObjectConstructor
| ObjectPrototype.

Module Address.
Record t : Type := Build {
  city : string;
  state : stateValue;
  zip : string
}.
End Address.

Record ShippoAddress : Type := mkShippoAddress {
  sa_city : string;
  sa_state : stateValue;
  sa_zip : string;
  sa_country : string
}.

Record ShippoRate : Type := mkShippoRate {
  sr_provider : string;
  sr_servicelevel_name : option string;     (* servicelevel?.name *)
  sr_servicelevel_name' : option string;    (* servicelevel_name *)
  sr_amount : string;
  sr_currency : string;
  sr_estimated_days : option Num.number;
  sr_duration_terms : option string
}.

(** The body of the small-parcel provider's answer: [data.rates]. *)
Record ShippoData : Type := mkShippoData {
  sd_rates : option (list ShippoRate)
}.

Inductive amount : Type :=
| AmountText (t : string)
| AmountNumber (n : Num.number).

Record MoneyAmount : Type := mkMoney {
  ma_amount : option amount;
  ma_currency : option string
}.

Record TransitTimes : Type := mkTransit {
  tt_min : option amount;
  tt_max : option amount;
  tt_unit : option string
}.

Record FreightosEstimateMode : Type := mkEstimateMode {
  em_mode : option string;
  em_price_min : option MoneyAmount;     (* price?.min?.moneyAmount *)
  em_price : option MoneyAmount;         (* price?.moneyAmount *)
  em_transitTimes : option TransitTimes
}.

Record FreightosRate : Type := mkFreightosRate {
  fr_mode : option string;
  fr_transportMode : option string;
  fr_price : option Num.number;
  fr_totalPrice : option Num.number;
  fr_amount : option Num.number;
  fr_currency : option string;
  fr_transitTime : option string;
  fr_transit_time : option string;
  fr_serviceName : option string;
  fr_service : option string
}.

(** [estimatedFreightRates.mode] is one mode or an array of modes. *)
Inductive modes : Type :=
| OneMode (m : FreightosEstimateMode)
| ManyModes (l : list FreightosEstimateMode).

Record FreightosData : Type := mkFreightosData {
  fd_estimated_mode : option modes;    (* response?.estimatedFreightRates?.mode *)
  fd_rates : option (list FreightosRate);
  fd_results : option (list FreightosRate)
}.

Record Contact : Type := mkContact {
  email : option string;
  phone : option string
}.

(** The shipment submitted to the small-parcel provider. *)
Record ShippoShipment : Type := mkShipment {
  address_from : ShippoAddress;
  address_to : ShippoAddress;
  shipment_parcels : list Parcel.t;
  contact_email : string;
  contact_phone : string
}.

(** The two places where the route awaits two computations together: the
    addresses of the origin and of the destination in [getShippoQuotes], and
    the two providers in [POST]. *)
Inductive Race : Type :=
| AddressRace
| ProviderRace.

(** The process environment and the answers of the outside world:
    [second_lands_last race] tells whether, of the two computations of
    [race], the second is the one whose writes to the cache land last. *)
Record Env : Type := mkEnv {
  SHIPPO_API_KEY : option string;
  FREIGHTOS_API_KEY : option string;
  DATABASE_URL : option string;
  zippopotam_zip : string -> fetched (list ZipPlace);
  zippopotam_city : string -> string -> fetched (list ZipPlace);
  nominatim_search : string -> fetched (list GeoResult);
  nominatim_reverse : string -> string -> fetched (option string);
  shippo_shipments : ShippoShipment -> fetched ShippoData;
  freightos_calculator : ParsedRequest -> fetched FreightosData;
  second_lands_last : Race -> bool
}.

(** The external calls a request makes. *)
Inductive Call : Type :=
| ZipLookup (zip : string)
| CityLookup (state city : string)
| Geocode (query : string)
| ReverseGeocode (lat lon : string)
| ShippoRates
| FreightosEstimate
| DatabaseInsert.

Record World : Type := mkWorld {
  LOCATION_CACHE : gmap string Address.t;
  calls : list Call
}.

#[local] Instance stateValue_eq_dec : EqDecision stateValue.
Proof. solve_decision. Defined.

#[local] Instance Address_eq_dec : EqDecision Address.t.
Proof. solve_decision. Defined.

(** The entries [top] has written since [base], over [bottom]. *)
Definition overlay (base top bottom : gmap string Address.t) : gmap string Address.t :=
  filter (fun entry => base !! fst entry <> Some (snd entry)) top ∪ bottom.

(** The world the second computation of a [Promise.all] starts from, when
    the computations were started in [w] and the first has brought the
    world to [w1]: the cache of [w], the calls made so far. *)
Definition snapshot (w w1 : World) : World :=
  mkWorld (LOCATION_CACHE w) (calls w1).

Module Eff.

Inductive outcome (A : Type) : Type :=
| Returned (a : A)
| Thrown.
Arguments Returned {A} a.
Arguments Thrown {A}.

Definition M (A : Type) : Type := World -> outcome A * World.

Definition ret {A} (a : A) : M A := fun w => (Returned a, w).

Definition throw {A} : M A := fun w => (Thrown, w).

Definition bind {A B} (m : M A) (k : A -> M B) : M B :=
  fun w =>
    match m w with
    | (Returned a, w') => k a w'
    | (Thrown, w') => (Thrown, w')
    end.

(** [try { body } catch { handler }] *)
Definition try_catch {A} (body handler : M A) : M A :=
  fun w =>
    match body w with
    | (Returned a, w') => (Returned a, w')
    | (Thrown, w') => handler w'
    end.

Definition log (c : Call) : M unit :=
  fun w => (Returned tt, mkWorld (LOCATION_CACHE w) (calls w ++ [c])).

Definition cache_get (key : string) : M (option Address.t) :=
  fun w => (Returned (LOCATION_CACHE w !! key), w).

Definition cache_set (key : string) (a : Address.t) : M unit :=
  fun w => (Returned tt, mkWorld (<[key := a]> (LOCATION_CACHE w)) (calls w)).

(** [await fetch(...)]: the call is recorded; a network error throws. *)
Definition fetch {A} (c : Call) (answer : fetched A) : M (bool * option A) :=
  bind (log c) (fun _ =>
    match answer with
    | NetworkError => throw
    | Response ok body => ret (ok, body)
    end).

(** [await response.json()]: a body that does not parse throws. *)
Definition json {A} (body : option A) : M A :=
  match body with
  | Some b => ret b
  | None => throw
  end.

(** [await Promise.all([a, b])]: both computations are started before
    either is awaited, so [b] does not see what [a] writes to the cache,
    nor [a] what [b] writes: [b] starts from the cache of [w].  Afterwards
    the cache holds the writes of both, those of the one that landed last
    over those of the other.  The promise of the two throws when one of
    them does. *)
Definition all2 {A B} (second_last : bool) (a : M A) (b : M B) : M (A * B) :=
  fun w =>
    match a w with
    | (ra, w1) =>
        match b (snapshot w w1) with
        | (rb, w2) =>
            let cache :=
              if second_last
              then overlay (LOCATION_CACHE w) (LOCATION_CACHE w2) (LOCATION_CACHE w1)
              else overlay (LOCATION_CACHE w) (LOCATION_CACHE w1) (LOCATION_CACHE w2) in
            match ra, rb with
            | Returned x, Returned y => (Returned (x, y), mkWorld cache (calls w2))
            | _, _ => (Thrown, mkWorld cache (calls w2))
            end
        end
    end.

End Eff.

Declare Scope eff_scope.
Delimit Scope eff_scope with eff.
Notation "x <- m ;; k" := (Eff.bind m (fun x => k))
  (at level 100, m at next level, right associativity) : eff_scope.

(** ** Location helpers *)

Definition US_STATE_ABBREVIATIONS : list (string * string) :=
  [("alabama", "AL"); ("alaska", "AK"); ("arizona", "AZ"); ("arkansas", "AR");
   ("california", "CA"); ("colorado", "CO"); ("connecticut", "CT"); ("delaware", "DE");
   ("florida", "FL"); ("georgia", "GA"); ("hawaii", "HI"); ("idaho", "ID");
   ("illinois", "IL"); ("indiana", "IN"); ("iowa", "IA"); ("kansas", "KS");
   ("kentucky", "KY"); ("louisiana", "LA"); ("maine", "ME"); ("maryland", "MD");
   ("massachusetts", "MA"); ("michigan", "MI"); ("minnesota", "MN");
   ("mississippi", "MS"); ("missouri", "MO"); ("montana", "MT"); ("nebraska", "NE");
   ("nevada", "NV"); ("new hampshire", "NH"); ("new jersey", "NJ");
   ("new mexico", "NM"); ("new york", "NY"); ("north carolina", "NC");
   ("north dakota", "ND"); ("ohio", "OH"); ("oklahoma", "OK"); ("oregon", "OR");
   ("pennsylvania", "PA"); ("rhode island", "RI"); ("south carolina", "SC");
   ("south dakota", "SD"); ("tennessee", "TN"); ("texas", "TX"); ("utah", "UT");
   ("vermont", "VT"); ("virginia", "VA"); ("washington", "WA");
   ("west virginia", "WV"); ("wisconsin", "WI"); ("wyoming", "WY");
   ("puerto rico", "PR")].

Fixpoint lookup_key (k : string) (table : list (string * string)) : option string :=
  match table with
  | [] => None
  | (k', v) :: table' => if String.eqb k' k then Some v else lookup_key k table'
  end.

(** [US_STATE_ABBREVIATIONS[k]]: an entry of the table, else what the
    object inherits under that name.  Of the names [Object.prototype] has,
    only "constructor" and "__proto__" are in lower case, as every key the
    route looks up is. *)
Definition stateOfKey (k : string) : option stateValue :=
  match lookup_key k US_STATE_ABBREVIATIONS with
  | Some abbreviation => Some (StateText abbreviation)
  | None =>
      if String.eqb k "constructor" then Some ObjectConstructor
      else if String.eqb k "__proto__" then Some ObjectPrototype
      else None
  end.

(** Truthiness of a state: a function and an object are truthy. *)
Definition state_truthy (v : stateValue) : bool :=
  match v with
  | StateText t => Str.truthy t
  | ObjectConstructor | ObjectPrototype => true
  end.

(** [a || v] on states. *)
Definition or_state (a : option stateValue) (v : stateValue) : stateValue :=
  match a with
  | Some x => if state_truthy x then x else v
  | None => v
  end.

(** A state as a text, in a template or in [join], as Node prints the two
    inherited values. *)
Definition state_string (v : stateValue) : string :=
  match v with
  | StateText t => t
  | ObjectConstructor => "function Object() { [native code] }"
  | ObjectPrototype => "[object Object]"
  end.

(** Truthiness of an optional text: present and not empty. *)
Definition present (o : option string) : bool :=
  match o with
  | Some t => Str.truthy t
  | None => false
  end.

(** [a || b] on optional texts. *)
Definition or_else (a b : option string) : option string :=
  if present a then a else b.

(** [a || t] where [t] is a text. *)
Definition or_text (a : option string) (t : string) : string :=
  match a with
  | Some x => if Str.truthy x then x else t
  | None => t
  end.

Definition extractZip (location : string) : option string :=
  match Re.exec Pattern.zipPattern location with
  | Some m => Some (Str.slice 0 5 (Re.whole m))
  | None => None
  end.

Definition normalizeState (st : option string) : option stateValue :=
  match st with
  | Some t =>
      if negb (Str.truthy t) then None
      else
        let trimmed := Str.trim t in
        if Nat.eqb (String.length trimmed) 2 then Some (StateText (Str.toUpperCase trimmed))
        else stateOfKey (Str.toLowerCase trimmed)
  | None => None
  end.

(** [value.split(/\s+/)]; [skipping] holds inside a run of white space. *)
Fixpoint split_spaces (skipping : bool) (value : string) : list string :=
  match value with
  | EmptyString => [EmptyString]
  | String c rest =>
      if Chars.is_space c then
        if skipping then split_spaces true rest
        else EmptyString :: split_spaces true rest
      else
        match split_spaces false rest with
        | word :: words => String c word :: words
        | [] => [String c EmptyString]
        end
  end.

Definition capitalize (word : string) : string :=
  match word with
  | EmptyString => EmptyString
  | String c rest => String (Chars.upper c) (Str.toLowerCase rest)
  end.

Definition toTitleCase (value : string) : string :=
  Str.join " " (List.map capitalize (split_spaces false value)).

(** [toTitleCase(location.split(',')[0] || '')] *)
Definition cityFromText (location : string) : string :=
  toTitleCase (nth 0 (Str.split_on "," location) "").

(** [/,\s*([A-Z]{2})\b/i] *)
Definition stateAbbreviationPattern : Re.regex :=
  let letter := Re.Chr (fun c => Chars.in_range 65 90 (Chars.upper c)) in
  Re.seqs [Re.chr ","; Pattern.ws; Re.Grp 1 (Re.times 2 letter); Re.WordB].

Definition extractStateAbbreviation (location : string) : option string :=
  match Re.exec stateAbbreviationPattern location with
  | Some m =>
      match Re.group 1 m with
      | Some t => Some (Str.toUpperCase t)
      | None => None
      end
  | None => None
  end.

(** [text?.match(/\d{5}/)?.[0]] *)
Definition fiveDigits (text : option string) : option string :=
  match text with
  | Some t =>
      match Re.exec (Re.times 5 Re.d) t with
      | Some m => Some (Re.whole m)
      | None => None
      end
  | None => None
  end.

Record ZipDetails : Type := mkZipDetails {
  zd_city : option string;
  zd_state : option string
}.

Record Geocoded : Type := mkGeocoded {
  g_city : option string;
  g_state : option string;
  g_zip : option string;
  g_lat : option string;
  g_lon : option string
}.

(** ** Address resolution *)

Section Resolver.

Variable env : Env.

Import Eff.
Local Open Scope eff_scope.

(** The four lookups.  Each builds its URL and then awaits [fetch], inside
    its [try]: the call is recorded when [fetch] is reached.  Three of them
    pass a text through [encodeURIComponent], which throws on a lone
    surrogate and on nothing else; a text of this development has none, so
    the request is always made. *)
Definition lookupZipDetails (zip : string) : M (option ZipDetails) :=
  try_catch
    (response <- fetch (ZipLookup zip) (zippopotam_zip env zip) ;;
     if negb (fst response) then ret None
     else
       places <- json (snd response) ;;
       match places with
       | place :: _ =>
           ret (Some (mkZipDetails (place_name place) (state_abbreviation place)))
       | [] => ret None
       end)
    (ret None).

Definition geocodeCity (location : string) : M (option Geocoded) :=
  let query := location ++ ", USA" in
  try_catch
    (response <- fetch (Geocode query) (nominatim_search env query) ;;
     if negb (fst response) then ret None
     else
       results <- json (snd response) ;;
       match results with
       | first :: _ =>
           match geo_address first with
           | Some address =>
               ret (Some (mkGeocoded
                 (or_else (geo_city address)
                    (or_else (geo_town address)
                       (or_else (geo_village address) (geo_hamlet address))))
                 (geo_state address)
                 (fiveDigits (geo_postcode address))
                 (geo_lat first)
                 (geo_lon first)))
           | None => ret None
           end
       | [] => ret None
       end)
    (ret None).

Definition reverseGeocodeZip (lat lon : string) : M (option string) :=
  try_catch
    (response <- fetch (ReverseGeocode lat lon) (nominatim_reverse env lat lon) ;;
     if negb (fst response) then ret None
     else
       postcode <- json (snd response) ;;
       ret (fiveDigits postcode))
    (ret None).

Definition lookupZipByCityState (city : string) (state : stateValue) : M (option string) :=
  try_catch
    (response <- fetch (CityLookup (state_string state) city)
                   (zippopotam_city env (state_string state) city) ;;
     if negb (fst response) then ret None
     else
       places <- json (snd response) ;;
       match places with
       | place :: _ => ret (if present (post_code place) then post_code place else None)
       | [] => ret None
       end)
    (ret None).

(** The part of [resolveUsAddress] after the branch on a ZIP code in the
    text: geocoding, reverse geocoding and the city and state lookup. *)
Definition resolveByGeocoding (cacheKey location : string) (stateHint : option stateValue)
  : M (option Address.t) :=
  geocoded <- geocodeCity location ;;
  let g_field (f : Geocoded -> option string) :=
    match geocoded with Some g => f g | None => None end in
  let zip0 := fiveDigits (g_field g_zip) in
  zip1 <- (if negb (present zip0) && present (g_field g_lat) && present (g_field g_lon)
           then reverseGeocodeZip (or_text (g_field g_lat) "") (or_text (g_field g_lon) "")
           else ret zip0) ;;
  let city := or_text (g_field g_city) (cityFromText location) in
  let state := or_state (normalizeState (g_field g_state))
                 (or_state stateHint (StateText "")) in
  zip2 <- (if negb (present zip1) && Str.truthy city && state_truthy state
           then lookupZipByCityState city state
           else ret zip1) ;;
  if present zip2 then
    details <- lookupZipDetails (or_text zip2 "") ;;
    let d_field (f : ZipDetails -> option string) :=
      match details with Some d => f d | None => None end in
    let resolved :=
      Address.Build (or_text (d_field zd_city) city)
                (or_state (normalizeState (d_field zd_state)) state)
                (or_text zip2 "") in
    if Str.truthy (Address.city resolved) && state_truthy (Address.state resolved) then
      _ <- cache_set cacheKey resolved ;;
      ret (Some resolved)
    else ret None
  else ret None.

Definition resolveUsAddress (location : string) : M (option Address.t) :=
  let cacheKey := Str.toLowerCase location in
  cached <- cache_get cacheKey ;;
  match cached with
  | Some a => ret (Some a)
  | None =>
      let stateHint := normalizeState (extractStateAbbreviation location) in
      match extractZip location with
      | Some zipFromInput =>
          details <- lookupZipDetails zipFromInput ;;
          let d_field (f : ZipDetails -> option string) :=
            match details with Some d => f d | None => None end in
          let resolved :=
            Address.Build (or_text (d_field zd_city) (cityFromText location))
                      (or_state (normalizeState (d_field zd_state))
                         (or_state stateHint (StateText "")))
                      zipFromInput in
          if Str.truthy (Address.city resolved) && state_truthy (Address.state resolved) then
            _ <- cache_set cacheKey resolved ;;
            ret (Some resolved)
          else resolveByGeocoding cacheKey location stateHint
      | None => resolveByGeocoding cacheKey location stateHint
      end
  end.

Definition buildShippoAddress (location country : string) : M (option ShippoAddress) :=
  if negb (String.eqb country "US") then
    geocoded <- geocodeCity location ;;
    let g_field (f : Geocoded -> option string) :=
      match geocoded with Some g => f g | None => None end in
    ret (Some (mkShippoAddress
                 (or_text (g_field g_city) (cityFromText location))
                 (or_state (normalizeState (g_field g_state)) (StateText ""))
                 (or_text (fiveDigits (g_field g_zip)) "")
                 country))
  else
    resolved <- resolveUsAddress location ;;
    match resolved with
    | Some a => ret (Some (mkShippoAddress (Address.city a) (Address.state a) (Address.zip a) "US"))
    | None => ret None
    end.

End Resolver.

(** ** Quote normalizers *)

Local Open Scope list_scope.

Definition DEFAULT_CONTACT_EMAIL : string := "Jason@epmarine.com".
Definition DEFAULT_CONTACT_PHONE : string := "786-603-7883".

(** [rates.sort((a, b) => a.price - b.price)]: a stable insertion sort;
    [a] goes before [b] when [a.price - b.price] is negative.  When no price
    is [NaN] the comparator is consistent and every stable sort, the
    engine's included, gives this list; with a [NaN] price the order the
    engine gives is its own, and the statements made of such a list are
    those that hold of every reordering. *)
Fixpoint insertByPrice (q : QuoteResult) (sorted : list QuoteResult) : list QuoteResult :=
  match sorted with
  | [] => [q]
  | q' :: sorted' =>
      if Num.ltb (Num.sub (price q) (price q')) Num.zero then q :: sorted
      else q' :: insertByPrice q sorted'
  end.

Definition sortByPrice (l : list QuoteResult) : list QuoteResult :=
  fold_left (fun sorted q => insertByPrice q sorted) l [].

Definition shippoQuote (rate : ShippoRate) : QuoteResult :=
  mkQuote
    (sr_provider rate)
    (or_text (or_else (sr_servicelevel_name rate) (sr_servicelevel_name' rate)) "Standard")
    (Num.parseFloat (sr_amount rate))
    (sr_currency rate)
    (match sr_estimated_days rate with
     | Some n =>
         if Num.truthy n then Some [Number n; Text " days"]
         else option_map (fun t => [Text t]) (sr_duration_terms rate)
     | None => option_map (fun t => [Text t]) (sr_duration_terms rate)
     end)
    None.

(** *** The freight provider's answer *)

Definition present_amount (a : option amount) : bool :=
  match a with
  | Some (AmountText t) => Str.truthy t
  | Some (AmountNumber n) => Num.truthy n
  | None => false
  end.

Definition parseAmount (a : option amount) : Num.number :=
  match a with
  | Some (AmountNumber n) => n
  | Some (AmountText t) => Num.parseFloat t
  | None => Num.zero
  end.

Definition amount_of (m : option MoneyAmount) : option amount :=
  match m with Some x => ma_amount x | None => None end.

Definition currency_of (m : option MoneyAmount) : option string :=
  match m with Some x => ma_currency x | None => None end.

(** [mode.price?.min?.moneyAmount?.amount || mode.price?.moneyAmount?.amount] *)
Definition modeAmount (m : FreightosEstimateMode) : option amount :=
  if present_amount (amount_of (em_price_min m)) then amount_of (em_price_min m)
  else amount_of (em_price m).

Definition amount_piece (a : option amount) : list piece :=
  match a with
  | Some (AmountText t) => [Text t]
  | Some (AmountNumber n) => [Number n]
  | None => []
  end.

Definition toTransitDays (transit : option TransitTimes) : option (list piece) :=
  match transit with
  | Some t =>
      if present_amount (tt_min t) && present_amount (tt_max t) then
        Some (amount_piece (tt_min t) ++ [Text "-"] ++ amount_piece (tt_max t)
              ++ [Text " "; Text (or_text (tt_unit t) "days")])
      else if present_amount (tt_min t) then
        Some (amount_piece (tt_min t) ++ [Text " "; Text (or_text (tt_unit t) "days")])
      else None
  | None => None
  end.

(** [buildCheapest]: the quote it pushes, if any. *)
Definition buildCheapest (modeList : list FreightosEstimateMode) (label fallbackMode : string)
  : list QuoteResult :=
  match modeList with
  | [] => []
  | first :: _ =>
      let cheapest :=
        fold_left
          (fun min m =>
             let price := parseAmount (modeAmount m) in
             let minPrice :=
               if Num.truthy (parseAmount (modeAmount min))
               then parseAmount (modeAmount min) else Num.infinity in
             if Num.truthy price && Num.ltb price minPrice then m else min)
          modeList first in
      let amt := parseAmount (modeAmount cheapest) in
      if negb (Num.truthy amt) then []
      else
        [mkQuote "Freightos" (label ++ " (Estimate)")%string amt
           (or_text (or_else (currency_of (em_price_min cheapest))
                             (currency_of (em_price cheapest))) "USD")
           (toTransitDays (em_transitTimes cheapest))
           (Some fallbackMode)]
  end.

Definition is_label (labels : list string) (m : FreightosEstimateMode) : bool :=
  match em_mode m with
  | Some t => existsb (String.eqb (Str.toLowerCase t)) labels
  | None => false
  end.

Definition is_text (o : option string) (t : string) : bool :=
  match o with
  | Some x => String.eqb x t
  | None => false
  end.

(** [a || b || ... || otherwise] on optional numbers. *)
Fixpoint first_truthy (l : list (option Num.number)) (otherwise : Num.number) : Num.number :=
  match l with
  | [] => otherwise
  | Some n :: l' => if Num.truthy n then n else first_truthy l' otherwise
  | None :: l' => first_truthy l' otherwise
  end.

(** [r.price || r.totalPrice || r.amount || otherwise] *)
Definition ratePrice (r : FreightosRate) (otherwise : Num.number) : Num.number :=
  first_truthy [fr_price r; fr_totalPrice r; fr_amount r] otherwise.

(** [list.reduce((min, r) => ...)] without an initial value. *)
Definition cheapestRate (first : FreightosRate) (others : list FreightosRate) : FreightosRate :=
  fold_left
    (fun min r => if Num.ltb (ratePrice r Num.zero) (ratePrice min Num.infinity) then r else min)
    others first.

Definition cheapestQuote (rates : list FreightosRate) (service mode_ : string)
  : list QuoteResult :=
  match rates with
  | [] => []
  | first :: others =>
      let cheapest := cheapestRate first others in
      [mkQuote "Freightos" service (ratePrice cheapest Num.zero)
         (or_text (fr_currency cheapest) "USD")
         (Some [Text (or_text (or_else (fr_transitTime cheapest) (fr_transit_time cheapest)) "Varies")])
         (Some mode_)]
  end.

Definition verbatimQuote (r : FreightosRate) : QuoteResult :=
  mkQuote "Freightos"
    (or_text (or_else (fr_serviceName r) (fr_service r)) "Freight")
    (ratePrice r Num.zero)
    (or_text (fr_currency r) "USD")
    (Some [Text (or_text (or_else (fr_transitTime r) (fr_transit_time r)) "Varies")])
    (Some (or_text (or_else (fr_mode r) (fr_transportMode r)) "Freight")).

Section Freight.

Variable parsed : ParsedRequest.

Definition totalWeight : Num.number := totalWeightOf (parcels parsed).
Definition weightKg : Num.number :=
  Num.Math_ceil (Num.mul totalWeight (Num.literal "0.453592")).
Definition totalVolume : Num.number := totalVolumeOf (parcels parsed).
Definition isDomestic : bool := String.eqb (originCountry parsed) (destCountry parsed).
Definition isFreight : bool :=
  isPallet parsed || Num.gtb totalWeight (Num.of_Z 150)
  || Num.gtb totalVolume (Num.of_Z 50000).
Definition allowAir : bool := negb (isDomestic && isFreight).

(** Tier 1, [if (estimated?.mode) { ... }]: the quotes pushed from the
    structured estimate modes. *)
Definition estimateQuotes (data : FreightosData) : list QuoteResult :=
  match fd_estimated_mode data with
  | Some mode_ =>
      let modeList := match mode_ with OneMode m => [m] | ManyModes l => l end in
      let airModes :=
        if allowAir then List.filter (is_label ["air"; "express"]) modeList else [] in
      let freightModes :=
        List.filter (is_label ["lcl"; "fcl"; "sea"; "ocean"; "ltl"; "ftl"]) modeList in
      (if allowAir then buildCheapest airModes "Air Freight" "Air" else [])
      ++ buildCheapest freightModes
           (if isDomestic && isFreight then "Ground Freight" else "Ocean Freight")
           (if isDomestic && isFreight then "Ground" else "Ocean/LCL")
  | None => []
  end.

(** [data.rates || data.results]: an array, even an empty one, is truthy. *)
Definition rateList (data : FreightosData) : option (list FreightosRate) :=
  match fd_rates data with
  | Some l => Some l
  | None => fd_results data
  end.

Definition airRates (rates : list FreightosRate) : list FreightosRate :=
  List.filter (fun r => is_text (fr_mode r) "air" || is_text (fr_transportMode r) "AIR") rates.

Definition oceanRates (rates : list FreightosRate) : list FreightosRate :=
  List.filter (fun r => is_text (fr_mode r) "sea" || is_text (fr_mode r) "ocean"
                   || is_text (fr_transportMode r) "SEA"
                   || is_text (fr_transportMode r) "LCL"
                   || is_text (fr_transportMode r) "FCL") rates.

(** Tier 2: the cheapest air-tagged and the cheapest ocean-tagged rate of
    the flat list. *)
Definition rateQuotes (rates : list FreightosRate) : list QuoteResult :=
  cheapestQuote (airRates rates) "Air Freight (Cheapest)" "Air"
  ++ cheapestQuote (oceanRates rates) "Ocean Freight (Cheapest)" "Ocean/LCL".

Definition round2 (x : Num.number) : Num.number :=
  Num.div (Num.Math_round (Num.mul x (Num.of_Z 100))) (Num.of_Z 100).

Definition baseAirRate : Num.number := Num.literal "3.5".
Definition baseOceanRate : Num.number := Num.literal "0.8".
Definition baseGroundRate : Num.number := Num.literal "1.2".

(** Tier 3: the static estimate. *)
Definition heuristicQuotes : list QuoteResult :=
  (if allowAir then
     [mkQuote "Freightos" "Air Freight (Estimate)"
        (round2 (Num.mul weightKg baseAirRate)) "USD"
        (Some [Text "3-7 days"]) (Some "Air")]
   else [])
  ++ [mkQuote "Freightos"
        (if isDomestic && isFreight then "Ground Freight (Estimate)" else "Ocean/LCL (Estimate)")
        (round2 (Num.mul weightKg
                   (if isDomestic && isFreight then baseGroundRate else baseOceanRate)))
        "USD"
        (Some [Text (if isDomestic && isFreight then "2-7 days" else "15-30 days")])
        (Some (if isDomestic && isFreight then "Ground" else "Ocean/LCL"))].

(** The body of [getFreightosQuotes] after the response has been parsed. *)
Definition normalizeFreightos (data : FreightosData) : list QuoteResult :=
  let quotes1 := estimateQuotes data in
  match rateList data with
  | Some rates =>
      let quotes2 := quotes1 ++ rateQuotes rates in
      match quotes2, rates with
      | [], _ :: _ => List.map verbatimQuote (firstn 5 rates)
      | [], [] => heuristicQuotes
      | _ :: _, _ => quotes2
      end
  | None =>
      match quotes1 with
      | [] => heuristicQuotes
      | _ :: _ => quotes1
      end
  end.

End Freight.

(** ** The provider calls and the request handler *)

Record QuoteResponse : Type := mkResponse {
  success : bool;
  error : option string;
  quotes : list QuoteResult;
  shippo : option (list QuoteResult);
  freightos : option (list QuoteResult);
  routing : string;
  parsed : ParsedRequest;
  missingInfo : option (list string);
  status : nat
}.

(** The three fields the handler reads off the JSON body of the request,
    [const { request, email, phone } = body]: [request] is [None] when the
    field is absent or is not a string.  A body that is a number, a text, a
    boolean or an array has none of the three. *)
Record Body : Type := mkBody {
  request : option string;
  body_email : option string;
  body_phone : option string
}.

Definition emptyParsed : ParsedRequest :=
  mkParsedRequest [] "" "" "US" "US" false false false.

(** [parsed.parcels.length === 1 && parsed.parcels[0].weight < 70] *)
Definition singleLightParcel (parsed : ParsedRequest) : bool :=
  match parcels parsed with
  | [p] => Num.ltb (Parcel.weight p) (Num.of_Z 70)
  | _ => false
  end.

(** The branch [POST] takes once validation has passed. *)
Inductive Routing : Type :=
| FreightosOnly
| ShippoOnly
| BothProviders.

Definition chooseRoute (parsed : ParsedRequest) : Routing :=
  if isPallet parsed || (isInternational parsed && negb (needsBothQuotes parsed))
  then FreightosOnly
  else if negb (isInternational parsed) && singleLightParcel parsed
  then ShippoOnly
  else BothProviders.

Section Route.

Variable env : Env.

Import Eff.
Local Open Scope eff_scope.

Definition getShippoQuotes (parsed : ParsedRequest) (contact : Contact)
  : M (list QuoteResult) :=
  if negb (present (SHIPPO_API_KEY env)) then ret []
  else
    try_catch
      (let contactEmail := or_text (email contact) DEFAULT_CONTACT_EMAIL in
       let contactPhone := or_text (phone contact) DEFAULT_CONTACT_PHONE in
       resolved <- all2 (second_lands_last env AddressRace)
                     (buildShippoAddress env (origin parsed) (originCountry parsed))
                     (buildShippoAddress env (destination parsed) (destCountry parsed)) ;;
       match resolved with
       | (Some originResolved, Some destinationResolved) =>
           response <- fetch ShippoRates
                         (shippo_shipments env
                            (mkShipment originResolved destinationResolved
                               (parcels parsed) contactEmail contactPhone)) ;;
           data <- json (snd response) ;;
           match sd_rates data with
           | Some rates => ret (sortByPrice (List.map shippoQuote rates))
           | None => ret []
           end
       | _ => ret []
       end)
      (ret []).

Definition getFreightosQuotes (parsed : ParsedRequest) : M (list QuoteResult) :=
  try_catch
    (response <- fetch FreightosEstimate (freightos_calculator env parsed) ;;
     data <- json (snd response) ;;
     ret (normalizeFreightos parsed data))
    (ret []).

Definition saveToDatabase : M unit :=
  if negb (present (DATABASE_URL env)) then ret tt
  else try_catch (log DatabaseInsert) (ret tt).

Definition missingInfoOf (parsed : ParsedRequest) : list string :=
  (match parcels parsed with [] => ["dimensions"] | _ :: _ => [] end)
  ++ (if Str.truthy (origin parsed) then [] else ["origin"])
  ++ (if Str.truthy (destination parsed) then [] else ["destination"]).

Definition incompleteResponse (parsed : ParsedRequest) (missing : list string)
  : QuoteResponse :=
  mkResponse false
    (Some ("Missing information: " ++ Str.join ", " missing
           ++ ". Please include package dimensions (LxWxH), weight, origin, and destination.")%string)
    [] None None "incomplete" parsed (Some missing) 200.

Definition errorResponse (message : string) (code : nat) : QuoteResponse :=
  mkResponse false (Some message) [] None None "error" emptyParsed None code.

Definition successResponse (label : string) (parsed : ParsedRequest)
    (shippoQuotes freightosQuotes : list QuoteResult) : QuoteResponse :=
  mkResponse true None (shippoQuotes ++ freightosQuotes)
    (Some shippoQuotes) (Some freightosQuotes) label parsed None 200.

(** The part of [POST] after validation: the provider calls, the save and
    the response. *)
Definition dispatch (parsed : ParsedRequest) (contact : Contact) : M QuoteResponse :=
  both <-
    match chooseRoute parsed with
    | FreightosOnly =>
        freightosQuotes <- getFreightosQuotes parsed ;;
        ret ("Freightos Only (Freight)", [], freightosQuotes)
    | ShippoOnly =>
        shippoQuotes <- getShippoQuotes parsed contact ;;
        ret ("Shippo Only (Domestic Parcel)", shippoQuotes, [])
    | BothProviders =>
        pair <- all2 (second_lands_last env ProviderRace)
                  (getShippoQuotes parsed contact) (getFreightosQuotes parsed) ;;
        ret ("Both (Comparison)", fst pair, snd pair)
    end ;;
  _ <- saveToDatabase ;;
  ret (successResponse (fst (fst both)) parsed (snd (fst both)) (snd both)).

(** The part of [POST] from [const parsed = parseNaturalLanguage(request)]
    on: validation, then the provider calls. *)
Definition quoteParsed (parsed : ParsedRequest) (contact : Contact) : M QuoteResponse :=
  let missing := missingInfoOf parsed in
  match missing with
  | _ :: _ => ret (incompleteResponse parsed missing)
  | [] => dispatch parsed contact
  end.

(** The handler.  [None] is a request of which the first two lines throw:
    the body does not parse, so that [await req.json()] rejects, or it
    parses to [null], so that the destructuring of it throws.  Both happen
    inside the [try]. *)
Definition POST (body : option Body) : M QuoteResponse :=
  try_catch
    (b <- json body ;;
     match request b with
     | Some text =>
         if negb (Str.truthy text)
         then ret (errorResponse "Please provide a shipping request" 400)
         else quoteParsed (parseNaturalLanguage text)
                (mkContact (body_email b) (body_phone b))
     | None => ret (errorResponse "Please provide a shipping request" 400)
     end)
    (ret (errorResponse "Failed to process quote request" 500)).

End Route.

(** * Specification-level definitions *)

(** The sum of a list of numbers: the numbers are added one by one, in the
    order of the list, to the sum so far, which starts at [acc]. *)
Fixpoint sumFrom (acc : Num.number) (xs : list Num.number) : Num.number :=
  match xs with
  | [] => acc
  | x :: xs' => sumFrom (Num.add acc x) xs'
  end.

(** The specification's total weight, the sum of the parcel weights, and
    its total volume, the sum of length * width * height over the parcels. *)
Definition sumOfWeights (ps : list Parcel.t) : Num.number :=
  sumFrom Num.zero (List.map Parcel.weight ps).

Definition volumeOf (p : Parcel.t) : Num.number :=
  Num.mul (Num.mul (Parcel.length p) (Parcel.width p)) (Parcel.height p).

Definition sumOfVolumes (ps : list Parcel.t) : Num.number :=
  sumFrom Num.zero (List.map volumeOf ps).

(** The routing classifier's formula of the specification, as a function of
    the parcels and of the two flags: more than one parcel, or
    international and not a pallet, or a total weight above 150, or a total
    volume above 50000. *)
Definition needsBothQuotesOf (ps : list Parcel.t) (international pallet : bool) : bool :=
  let multipleBoxes := Nat.ltb 1 (List.length ps) in
  let heavy := Num.ltb (Num.of_Z 150) (sumOfWeights ps) in
  let bulky := Num.ltb (Num.of_Z 50000) (sumOfVolumes ps) in
  multipleBoxes || (international && negb pallet) || heavy || bulky.

(** Two requests between two ZIP codes: a box of 64000 cubic inches and
    10 lb, and a box of 1000 cubic inches and 200 lb. *)
Definition bulkyBox : ParsedRequest :=
  Eval vm_compute in parseNaturalLanguage "40x40x40 10lb from 33142 to 90210".

Definition heavyBox : ParsedRequest :=
  Eval vm_compute in parseNaturalLanguage "10x10x10 200lb from 33142 to 90210".

(** The first row of the routing table. *)
Definition freightRow (p : ParsedRequest) : Prop :=
  isPallet p = true \/ (isInternational p = true /\ needsBothQuotes p = false).

(** The second row of the routing table. *)
Definition parcelRow (p : ParsedRequest) : Prop :=
  isInternational p = false /\
  exists q, parcels p = [q] /\ Num.ltb (Parcel.weight q) (Num.of_Z 70) = true.

(** External calls made on behalf of the small-parcel provider (address
    resolution and the rate request) and of the freight provider. *)
Definition parcel_side (c : Call) : bool :=
  match c with
  | ZipLookup _ | CityLookup _ _ | Geocode _ | ReverseGeocode _ _ | ShippoRates => true
  | _ => false
  end.

Definition freight_side (c : Call) : bool :=
  match c with
  | FreightosEstimate => true
  | _ => false
  end.

Definition parcelCall (c : Call) : Prop := parcel_side c = true.

(** The calls of address resolution: the postal database and the geocoder. *)
Definition resolverCall (c : Call) : Prop :=
  match c with
  | ZipLookup _ | CityLookup _ _ | Geocode _ | ReverseGeocode _ _ => True
  | _ => False
  end.

(** A computation that only makes calls satisfying [P]. *)
Definition emits {A} (P : Call -> Prop) (m : Eff.M A) : Prop :=
  forall w r w', m w = (r, w') -> exists cs, calls w' = calls w ++ cs /\ Forall P cs.

(** A computation that never throws. *)
Definition total {A} (m : Eff.M A) : Prop :=
  forall w, exists a w', m w = (Eff.Returned a, w').

(** A computation that leaves the address cache as it is. *)
Definition keeps_cache {A} (m : Eff.M A) : Prop :=
  forall w r w', m w = (r, w') -> LOCATION_CACHE w' = LOCATION_CACHE w.

(** A computation that does not read the world: its outcome, the calls it
    makes and what it does to the cache are the same from every world. *)
Definition blind {A} (m : Eff.M A) : Prop :=
  exists r update cs,
    forall w, m w = (r, mkWorld (update (LOCATION_CACHE w)) (calls w ++ cs)).


(** [text] contains [word] up to the case of its letters. *)
Definition contains_ci (word text : string) : Prop :=
  exists before u after,
    text = (before ++ u ++ after)%string /\ Str.map Chars.upper u = Str.map Chars.upper word.

(** A word of the letters a to z. *)
Definition lowercase (w : string) : Prop :=
  Forall (fun c => Chars.in_range 97 122 c = true) (list_ascii_of_string w).

(** [0 <= x]: neither negative nor [NaN]. *)
Definition nonneg (x : Num.number) : Prop := Num.leb Num.zero x = true.

(** [0 < x] *)
Definition positive_number (x : Num.number) : Prop := Num.ltb Num.zero x = true.

(** All four measures of a parcel are strictly positive, respectively not
    negative. *)
Definition parcel_positive (p : Parcel.t) : Prop :=
  positive_number (Parcel.length p) /\ positive_number (Parcel.width p)
  /\ positive_number (Parcel.height p) /\ positive_number (Parcel.weight p).

Definition parcel_nonneg (p : Parcel.t) : Prop :=
  nonneg (Parcel.length p) /\ nonneg (Parcel.width p)
  /\ nonneg (Parcel.height p) /\ nonneg (Parcel.weight p).

(** The three items validation can report, with what makes each absent. *)
Definition absent (p : ParsedRequest) (item : string) : Prop :=
  (item = "dimensions" /\ parcels p = [])
  \/ (item = "origin" /\ origin p = "")
  \/ (item = "destination" /\ destination p = "").

Module ReSpec.
Import Re.

(** [matches r st st']: the expression [r] can match from position [st]
    to position [st']. *)
Inductive matches : regex -> mstate -> mstate -> Prop :=
| M_Eps st : matches Eps st st
| M_Chr p st c s' :
    rest st = String c s' -> p c = true ->
    matches (Chr p) st (MState (S (idx st)) (Some c) s' (caps st))
| M_Seq r1 r2 st st1 st2 :
    matches r1 st st1 -> matches r2 st1 st2 -> matches (Seq r1 r2) st st2
| M_AltL r1 r2 st st' : matches r1 st st' -> matches (Alt r1 r2) st st'
| M_AltR r1 r2 st st' : matches r2 st st' -> matches (Alt r1 r2) st st'
| M_OptSkip r st : matches (Opt r) st st
| M_OptTake r st st' :
    matches r (clear (groups r) st) st' -> matches (Opt r) st st'
| M_StarDone g r st : matches (Star g r) st st
| M_StarIter g r st st1 st2 :
    matches r (clear (groups r) st) st1 -> matches (Star g r) st1 st2 ->
    matches (Star g r) st st2
| M_Grp i r st st' :
    matches r st st' ->
    matches (Grp i r) st (set_cap i (prefix (idx st' - idx st) (rest st)) st')
| M_WordB st : xorb (word_before st) (word_after st) = true -> matches WordB st st
| M_Bol st : idx st = 0 -> matches Bol st st
| M_Eol st : rest st = EmptyString -> matches Eol st st.

(** A text that starts with a digit. *)
Definition digit_led (text : string) : Prop :=
  exists c t, text = String c t /\ Chars.is_digit c = true.

(** [captures i r]: whenever [r] matches, group [i] holds the text of a
    number [\d+(?:\.\d+)?]. *)
Inductive captures (i : nat) : regex -> Prop :=
| cap_here r : captures i (Grp i (Seq (plus d) r))
| cap_left r1 r2 : captures i r1 -> ~ In i (groups r2) -> captures i (Seq r1 r2)
| cap_right r1 r2 : captures i r2 -> captures i (Seq r1 r2).

(** The position after the word [w], read from [st] without regard to the
    case of its letters. *)
Fixpoint advance_ci (w : string) (st : mstate) : option mstate :=
  match w with
  | EmptyString => Some st
  | String c w' =>
      match rest st with
      | String x s' =>
          if Ascii.eqb (Chars.upper x) (Chars.upper c)
          then advance_ci w' (MState (S (idx st)) (Some x) s' (caps st))
          else None
      | EmptyString => None
      end
  end.

End ReSpec.

(** What [getShippoQuotes] makes of the provider's answer to a shipment:
    its rates as quotes, sorted; nothing when the answer does not arrive, its
    body does not parse or has no rates. *)
Definition shippoAnswer (answer : fetched ShippoData) : list QuoteResult :=
  match answer with
  | Response _ (Some data) =>
      match sd_rates data with
      | Some rates => sortByPrice (List.map shippoQuote rates)
      | None => []
      end
  | _ => []
  end.

(** The shipment [getShippoQuotes] submits for two addresses. *)
Definition shipmentOf (p : ParsedRequest) (contact : Contact) (o d : ShippoAddress)
  : ShippoShipment :=
  mkShipment o d (parcels p)
    (or_text (email contact) DEFAULT_CONTACT_EMAIL)
    (or_text (phone contact) DEFAULT_CONTACT_PHONE).

(** The cache after the two computations of a race. *)
Definition merged (later : bool) (w w1 w2 : World) : gmap string Address.t :=
  if later
  then overlay (LOCATION_CACHE w) (LOCATION_CACHE w2) (LOCATION_CACHE w1)
  else overlay (LOCATION_CACHE w) (LOCATION_CACHE w1) (LOCATION_CACHE w2).

(** What the specification counts as a failure of the small-parcel path:
    no API key, an origin or a destination that does not resolve, a network
    error, or a body that does not parse. *)
Definition shippoFails (env : Env) (p : ParsedRequest) (w : World) : Prop :=
  present (SHIPPO_API_KEY env) = false
  \/ (exists w1,
        buildShippoAddress env (origin p) (originCountry p) w = (Eff.Returned None, w1))
  \/ (exists a w1 w2,
        buildShippoAddress env (origin p) (originCountry p) w = (a, w1)
        /\ buildShippoAddress env (destination p) (destCountry p) w1 = (Eff.Returned None, w2))
  \/ (forall shipment, shippo_shipments env shipment = NetworkError)
  \/ (forall shipment, exists ok, shippo_shipments env shipment = Response ok None).

(** A failure of the freight path: a network error or a body that does not
    parse. *)
Definition freightosFails (env : Env) (p : ParsedRequest) : Prop :=
  freightos_calculator env p = NetworkError
  \/ exists ok, freightos_calculator env p = Response ok None.

(** ** Sample inputs *)

(** No key, no database, and no service reachable. *)
Definition offline : Env :=
  mkEnv None None None
    (fun _ => NetworkError) (fun _ _ => NetworkError) (fun _ => NetworkError)
    (fun _ _ => NetworkError) (fun _ => NetworkError) (fun _ => NetworkError)
    (fun _ => true).

(** A postal database that knows one ZIP code; everything else is down. *)
Definition postalOnly : Env :=
  mkEnv (Some "shippo_test_key") None None
    (fun z => if String.eqb z "33142"
              then Response true (Some [mkZipPlace (Some "Miami") (Some "FL") (Some "33142")])
              else Response false None)
    (fun _ _ => NetworkError) (fun _ => NetworkError)
    (fun _ _ => NetworkError) (fun _ => NetworkError) (fun _ => NetworkError)
    (fun _ => true).

Definition emptyWorld : World := mkWorld ∅ [].

Definition noContact : Contact := mkContact None None.

Definition smallBox : ParsedRequest :=
  Eval vm_compute in parseNaturalLanguage "24x10x10 20lbs from 33142 to 90210".


(** A request body with nothing to extract, and its parse. *)
Definition helloBody : Body := mkBody (Some "hello") None None.

Definition helloParsed : ParsedRequest := Eval vm_compute in parseNaturalLanguage "hello".

(** The text "pallet" with an acute accent on its second letter (U+00E1). *)
Definition accentedPallet : string := String "p" (String (ascii_of_N 225) "llet").

(** An answer of the freight provider with an air estimate and an
    air-tagged flat rate. *)
Definition airEstimate : FreightosEstimateMode :=
  mkEstimateMode (Some "air") None
    (Some (mkMoney (Some (AmountNumber (Num.of_Z 100))) (Some "USD"))) None.

Definition airRate : FreightosRate :=
  mkFreightosRate (Some "air") None (Some (Num.of_Z 80)) None None None None None None None.

Definition bothTiers : FreightosData :=
  mkFreightosData (Some (ManyModes [airEstimate])) (Some [airRate]) None.

(** An answer of the freight provider with no pricing in it. *)
Definition noPricing : FreightosData := mkFreightosData None None None.


(** * Further definitions: the location formatter and measures of a request *)

(** ** [formatFreightosLocation] *)

(** [/^[A-Z]{3,5}$/]: three capital letters and up to two more. *)
Definition portCodePattern : Re.regex :=
  let capital := Re.Chr (Chars.in_range 65 90) in
  Re.seqs [Re.Bol; Re.times 3 capital; Re.Opt (Re.Seq capital (Re.Opt capital)); Re.Eol].

(** The text of a place as the freight provider's calculator takes it: a
    text with a digit (a postal code) in upper case, a port code as it is,
    and a list of names separated by commas in title case, with the names
    of states after the first replaced by their abbreviations ([join] turns
    each into a text). *)
Definition formatFreightosLocation (location : string) : string :=
  let trimmed := Str.trim location in
  if negb (Str.truthy trimmed) then trimmed
  else if Re.test Re.d trimmed then Str.toUpperCase trimmed
  else if Re.test portCodePattern trimmed then trimmed
  else
    match List.filter Str.truthy (List.map Str.trim (Str.split_on "," trimmed)) with
    | [] => trimmed
    | first :: others =>
        Str.join ", "
          (toTitleCase first
           :: List.map
                (fun part =>
                   state_string
                     (or_state (normalizeState (Some part)) (StateText (toTitleCase part))))
                others)
    end.

(** ** Measures of a computation *)

(** The calls to the geocoder and to the postal database. *)
Definition is_geocoder (c : Call) : bool :=
  match c with
  | Geocode _ | ReverseGeocode _ _ => true
  | _ => false
  end.

Definition is_postal (c : Call) : bool :=
  match c with
  | ZipLookup _ | CityLookup _ _ => true
  | _ => false
  end.

Definition is_call (c' c : Call) : bool :=
  match c', c with
  | ShippoRates, ShippoRates => true
  | FreightosEstimate, FreightosEstimate => true
  | DatabaseInsert, DatabaseInsert => true
  | _, _ => false
  end.

Definition any_call (c : Call) : bool := true.

(** The number of calls of a kind in a list of calls. *)
Definition count_calls (kind : Call -> bool) (cs : list Call) : nat :=
  List.length (List.filter kind cs).

(** A computation that makes at most [n] calls of a kind. *)
Definition spends {A} (kind : Call -> bool) (n : nat) (m : Eff.M A) : Prop :=
  forall w r w', m w = (r, w') ->
    exists cs, calls w' = calls w ++ cs /\ count_calls kind cs <= n.

(** A computation within a budget of external calls: in all, to the
    geocoder, to the postal database, rate requests to the small-parcel
    provider, estimate requests to the freight provider, and saves. *)
Definition within {A} (all_ geocoder postal rates estimates saves : nat) (m : Eff.M A)
  : Prop :=
  spends any_call all_ m /\ spends is_geocoder geocoder m /\ spends is_postal postal m
  /\ spends (is_call ShippoRates) rates m
  /\ spends (is_call FreightosEstimate) estimates m
  /\ spends (is_call DatabaseInsert) saves m.

(** A computation that only adds entries to the address cache, under keys
    among [keys] that were not in it. *)
Definition adds_keys {A} (keys : list string) (m : Eff.M A) : Prop :=
  forall w r w', m w = (r, w') ->
    forall k, LOCATION_CACHE w' !! k <> LOCATION_CACHE w !! k ->
      LOCATION_CACHE w !! k = None /\ In k keys.

(** A text none of whose characters satisfies [p]. *)
Fixpoint none_of (p : ascii -> bool) (s : string) : bool :=
  match s with
  | EmptyString => true
  | String c s' => negb (p c) && none_of p s'
  end.

(** A text of [n] digits. *)
Fixpoint all_digits (s : string) : bool :=
  match s with
  | EmptyString => true
  | String c s' => Chars.is_digit c && all_digits s'
  end.

(** ** The cheapest estimate *)

(** The amount [buildCheapest] reads from a mode:
    [parseAmount(mode.price?.min?.moneyAmount?.amount || mode.price?.moneyAmount?.amount)]. *)
Definition amountOf (m : FreightosEstimateMode) : Num.number := parseAmount (modeAmount m).

(** The reducer of [buildCheapest]. *)
Definition cheaperMode (min m : FreightosEstimateMode) : FreightosEstimateMode :=
  if Num.truthy (amountOf m)
     && Num.ltb (amountOf m) (if Num.truthy (amountOf min) then amountOf min else Num.infinity)
  then m else min.

(** [min] is the lowest of the modes seen: no mode with an amount is below
    it; as long as [min] has no amount, the modes seen with one are at
    infinity. *)
Definition lowestMode (min : FreightosEstimateMode) (seen : list FreightosEstimateMode)
  : Prop :=
  forall m, In m seen -> Num.truthy (amountOf m) = true ->
    if Num.truthy (amountOf min) then Num.ltb (amountOf m) (amountOf min) = false
    else amountOf m = Num.infinity.

(** An air-tagged flat rate with a price, and one without any. *)
Definition pricedRate (usd : Z) : FreightosRate :=
  mkFreightosRate (Some "air") None (Some (Num.of_Z usd)) None None None None None None None.

Definition unpricedRate : FreightosRate :=
  mkFreightosRate (Some "air") None None None None None None None None None.

(** A request from a ZIP code to the same ZIP code, and the world after the
    small-parcel path has run once for it from the empty world, with the
    postal database that knows this ZIP code. *)
Definition sameZip : ParsedRequest :=
  Eval vm_compute in parseNaturalLanguage "12x10x8 5lb from 33142 to 33142".

Definition afterFirst : World :=
  mkWorld (<["33142"%string := Address.Build "Miami" (StateText "FL") "33142"]> ∅)
    [ZipLookup "33142"; ZipLookup "33142"; ShippoRates].

(** ** Sorted quotes *)

Definition is_nan (x : Num.number) : bool :=
  match x with
  | S754_nan => true
  | _ => false
  end.

(** A list of quotes in the order of the comparator [(a, b) => a.price -
    b.price]: for consecutive quotes [a], [b], the difference [b.price -
    a.price] is not negative. *)
Fixpoint ascending (l : list QuoteResult) : Prop :=
  match l with
  | a :: l' =>
      match l' with
      | b :: _ => Num.ltb (Num.sub (price b) (price a)) Num.zero = false
      | [] => True
      end /\ ascending l'
  | [] => True
  end.

(** Two quotes a provider could send, at 12.5 and at 8 dollars. *)
Definition twoRates : list ShippoRate :=
  [mkShippoRate "USPS" (Some "Priority Mail") None "12.50" "USD" (Some (Num.of_Z 2)) None;
   mkShippoRate "UPS" None (Some "Ground") "8" "USD" None (Some "3 to 5 days")].

(** ** Complete addresses *)

(** An address with a city, a state and a ZIP code. *)
Definition complete (a : Address.t) : Prop :=
  Address.city a <> ""%string /\ Address.state a <> StateText ""
  /\ Address.zip a <> ""%string.

Definition complete_cache (w : World) : Prop :=
  forall key a, LOCATION_CACHE w !! key = Some a -> complete a.

(** A computation that leaves a cache of complete addresses so. *)
Definition keeps_complete {A} (m : Eff.M A) : Prop :=
  forall w r w', complete_cache w -> m w = (r, w') -> complete_cache w'.

(** ** Answers of the lookup services *)

(** An answer the lookup helpers take as a failure: a network error, a
    response that is not [ok], or a body that does not parse. *)
Definition failed {A} (answer : fetched A) : bool :=
  match answer with
  | Response true (Some _) => false
  | _ => true
  end.

(** A text of capital letters [A-Z]. *)
Fixpoint all_capitals (s : string) : bool :=
  match s with
  | EmptyString => true
  | String c s' => Chars.in_range 65 90 c && all_capitals s'
  end.

(** A text of exactly five digits. *)
Definition five_digit (zip : string) : Prop :=
  String.length zip = 5 /\ all_digits zip = true.

(** ** The matches of a repeated search *)

(** One match ends before the next one starts. *)
Definition precedes (m1 m2 : Re.rmatch) : Prop :=
  Re.idx (Re.m_end m1) <= Re.m_start m2.

(** Matches in the order of the text that do not overlap. *)
Fixpoint in_order (ms : list Re.rmatch) : Prop :=
  match ms with
  | m1 :: ms' =>
      match ms' with
      | m2 :: _ => precedes m1 m2
      | [] => True
      end /\ in_order ms'
  | [] => True
  end.

(** A match that is not empty and lies in a text of length [n]. *)
Definition proper_match (n : nat) (m : Re.rmatch) : Prop :=
  Re.m_start m < Re.idx (Re.m_end m) /\ Re.idx (Re.m_end m) <= n.

(** ** Texts *)

(** The text starts with a white space character. *)
Definition head_space (s : string) : bool :=
  match s with
  | String c _ => Chars.is_space c
  | EmptyString => false
  end.

(** The text has only white space characters. *)
Fixpoint all_space (s : string) : bool :=
  match s with
  | String c s' => Chars.is_space c && all_space s'
  | EmptyString => true
  end.

(** A text without the three letters whose upper case the model does not
    have: U+00B5, U+00DF and U+00FF. *)
Definition in_model (s : string) : bool :=
  none_of (fun c => (Chars.code c =? 181)%N || (Chars.code c =? 223)%N
                    || (Chars.code c =? 255)%N) s.

(** Title case, one character at a time: at the start of the text, inside
    a word, or inside a run of white space.  A run of white space becomes
    one space, the first letter of a word is put in upper case and its other
    letters in lower case. *)
Inductive titleState : Type :=
| AtStart
| InWord
| InGap.

Fixpoint titleScan (st : titleState) (s : string) : string :=
  match s with
  | EmptyString => EmptyString
  | String c s' =>
      if Chars.is_space c then
        match st with
        | InGap => titleScan InGap s'
        | _ => String " " (titleScan InGap s')
        end
      else
        match st with
        | InWord => String (Chars.lower c) (titleScan InWord s')
        | _ => String (Chars.upper c) (titleScan InWord s')
        end
  end.


(** ** The calls of a request *)

(** The calls of [saveToDatabase]: one insert when the database is
    configured. *)
Definition saved (env : Env) : list Call :=
  if present (DATABASE_URL env) then [DatabaseInsert] else [].

(** What [getFreightosQuotes] makes of the provider's answer: the quotes
    of the normalizer when the body parses, nothing otherwise. *)
Definition freightosAnswer (p : ParsedRequest) (answer : fetched FreightosData)
  : list QuoteResult :=
  match answer with
  | Response _ (Some data) => normalizeFreightos p data
  | _ => []
  end.

(** The small-parcel provider is asked for rates: there is an API key and
    both places have an address, each from the cache as the request found
    it. *)
Definition shippoAsked (env : Env) (p : ParsedRequest) (w : World) : Prop :=
  present (SHIPPO_API_KEY env) = true
  /\ (exists o w1,
        buildShippoAddress env (origin p) (originCountry p) w = (Eff.Returned (Some o), w1))
  /\ (exists d w2,
        buildShippoAddress env (destination p) (destCountry p) w
        = (Eff.Returned (Some d), w2)).

(** The calls of the small-parcel path: calls of address resolution, then
    the rate request, which is made exactly when the provider is asked. *)
Definition shippoCalls (env : Env) (p : ParsedRequest) (w : World) (cs : list Call) : Prop :=
  exists rs,
    Forall resolverCall rs
    /\ ((shippoAsked env p w /\ cs = rs ++ [ShippoRates])
        \/ (~ shippoAsked env p w /\ cs = rs)).

(** The quotes the flat list yields for the rates with one tag: none when
    no rate has the tag, else one quote with the given service name and
    mode, made of a rate with the tag; its price is the lowest when every
    rate with the tag has a price. *)
Definition tierQuote (tagged : list FreightosRate) (service_ mode_ : string)
    (qs : list QuoteResult) : Prop :=
  match qs with
  | [] => tagged = []
  | [q] =>
      provider q = "Freightos"%string /\ service q = service_ /\ mode q = Some mode_
      /\ (exists r, In r tagged /\ price q = ratePrice r Num.zero)
      /\ ((forall r, In r tagged -> Num.truthy (ratePrice r Num.zero) = true) ->
          forall r, In r tagged -> Num.ltb (ratePrice r Num.zero) (price q) = false)
  | _ => False
  end.

(** ** The body of a request *)

(** What the handler finds in the body of a request: a text that is not
    JSON, the JSON value [null], or a JSON value with the three fields the
    handler reads off it. *)
Inductive RequestJson : Type :=
| NotJson
| JsonNull
| JsonValue (fields : Body).

(** The first two lines of the handler, [await req.json()] and the
    destructuring of its value: they throw on a text that is not JSON and
    on [null]. *)
Definition readBody (j : RequestJson) : option Body :=
  match j with
  | JsonValue fields => Some fields
  | NotJson | JsonNull => None
  end.

(** ** More sample inputs *)

(** Every service answers: the postal database knows two ZIP codes, the
    small-parcel provider sends two rates, the freight provider sends no
    pricing, and a database is configured. *)
Definition allReachable : Env :=
  mkEnv (Some "shippo_test_key") None (Some "postgres://quotes")
    (fun z => if String.eqb z "33142"
              then Response true (Some [mkZipPlace (Some "Miami") (Some "FL") (Some "33142")])
              else if String.eqb z "90210"
              then Response true
                     (Some [mkZipPlace (Some "Beverly Hills") (Some "CA") (Some "90210")])
              else Response false None)
    (fun _ _ => Response false None) (fun _ => Response false None)
    (fun _ _ => Response false None)
    (fun _ => Response true (Some (mkShippoData (Some twoRates))))
    (fun _ => Response true (Some noPricing))
    (fun _ => true).


(** A pallet of 500 lb and a box of 15 lb between the two ZIP codes. *)
Definition palletLoad : ParsedRequest :=
  Eval vm_compute in parseNaturalLanguage "pallet 48x40x60 500lb from 33142 to 90210".


(** The two addresses of these requests, and the quotes of [twoRates] in
    the order of their prices. *)
Definition miami : Address.t := Address.Build "Miami" (StateText "FL") "33142".
Definition beverlyHills : Address.t := Address.Build "Beverly Hills" (StateText "CA") "90210".

Definition twoQuotes : list QuoteResult :=
  [mkQuote "UPS" "Ground" (Num.of_Z 8) "USD" (Some [Text "3 to 5 days"]) None;
   mkQuote "USPS" "Priority Mail" (Num.literal "12.5") "USD"
     (Some [Number (Num.of_Z 2); Text " days"]) None].
(** * Properties *)

(** ** The routing classifier *)

(** The reductions of the parser are the sums of the specification. *)
Lemma sumFrom_fold {A} (f : A -> Num.number) (l : list A) (acc : Num.number) :
  fold_left (fun sum x => Num.add sum (f x)) l acc = sumFrom acc (List.map f l).
Proof. revert acc. induction l as [|x l IH]; intros acc; simpl; [done | apply IH]. Qed.

Lemma totalWeightOf_sum (ps : list Parcel.t) : totalWeightOf ps = sumOfWeights ps.
Proof. apply sumFrom_fold. Qed.

Lemma totalVolumeOf_sum (ps : list Parcel.t) : totalVolumeOf ps = sumOfVolumes ps.
Proof. apply (sumFrom_fold volumeOf). Qed.

(** C2: for every input text, the parsed [needsBothQuotes] is
    [multipleBoxes || (isInternational && !isPallet) || heavy || bulky],
    computed from the parcels and the two flags of the same parsed request:
    more than one parcel, the sum of the parcel weights above 150, the sum
    over the parcels of length * width * height above 50000. *)
Theorem C2_needsBothQuotes_formula (input : string) :
  let p := parseNaturalLanguage input in
  needsBothQuotes p = needsBothQuotesOf (parcels p) (isInternational p) (isPallet p).
Proof.
  intros p. subst p. unfold parseNaturalLanguage.
  destruct (extractRoute (Str.stripDiacritics input)) as [o dst].
  cbv zeta. cbn [needsBothQuotes parcels isInternational isPallet].
  unfold needsBothQuotesOf, Num.gtb.
  by rewrite totalWeightOf_sum, totalVolumeOf_sum.
Qed.

(** C2 at three requests between two ZIP codes of the United States, none
    with a pallet: one box of 40 x 40 x 40 and 10 lb is bulky (64000 cubic
    inches) and nothing else; one box of 10 x 10 x 10 and 200 lb is heavy
    and nothing else; one box of 24 x 10 x 10 and 20 lb is neither. *)
Lemma C2_witness :
  (parcels bulkyBox
     = [Parcel.Build (Num.of_Z 40) (Num.of_Z 40) (Num.of_Z 40) (Num.of_Z 10)]
   /\ isInternational bulkyBox = false /\ isPallet bulkyBox = false
   /\ sumOfWeights (parcels bulkyBox) = Num.of_Z 10
   /\ sumOfVolumes (parcels bulkyBox) = Num.of_Z 64000
   /\ needsBothQuotes (parseNaturalLanguage "40x40x40 10lb from 33142 to 90210") = true)
  /\ (parcels heavyBox
        = [Parcel.Build (Num.of_Z 10) (Num.of_Z 10) (Num.of_Z 10) (Num.of_Z 200)]
      /\ isInternational heavyBox = false /\ isPallet heavyBox = false
      /\ sumOfWeights (parcels heavyBox) = Num.of_Z 200
      /\ sumOfVolumes (parcels heavyBox) = Num.of_Z 1000
      /\ needsBothQuotes (parseNaturalLanguage "10x10x10 200lb from 33142 to 90210") = true)
  /\ (parcels smallBox
        = [Parcel.Build (Num.of_Z 24) (Num.of_Z 10) (Num.of_Z 10) (Num.of_Z 20)]
      /\ isInternational smallBox = false /\ isPallet smallBox = false
      /\ sumOfWeights (parcels smallBox) = Num.of_Z 20
      /\ sumOfVolumes (parcels smallBox) = Num.of_Z 2400
      /\ needsBothQuotes (parseNaturalLanguage "24x10x10 20lbs from 33142 to 90210") = false).
Proof.
  pose proof (C2_needsBothQuotes_formula "40x40x40 10lb from 33142 to 90210") as H1.
  pose proof (C2_needsBothQuotes_formula "10x10x10 200lb from 33142 to 90210") as H2.
  pose proof (C2_needsBothQuotes_formula "24x10x10 20lbs from 33142 to 90210") as H3.
  cbv zeta in H1, H2, H3. rewrite H1, H2, H3. clear H1 H2 H3.
  vm_compute. repeat split.
Defined.

(** C5: on the text of the README's first example the parcel extractor
    stops the third dimension at its first digit and reads the second digit
    as the weight, and the destination pattern starts at the article "a":
    the parse has one parcel 24 x 10 x 1 of weight 0, origin "33142",
    destination "24x10x10 box weighing 20lbs", both countries US, and the
    small-parcel route. *)
Theorem C5_readme_example :
  let p := parseNaturalLanguage "Ship a 24x10x10 box weighing 20lbs from 33142 to 90210" in
  parcels p = [Parcel.Build (Num.of_Z 24) (Num.of_Z 10) (Num.of_Z 1) Num.zero]
  /\ origin p = "33142"
  /\ destination p = "24x10x10 box weighing 20lbs"
  /\ originCountry p = "US" /\ destCountry p = "US"
  /\ chooseRoute p = ShippoOnly.
Proof. vm_compute. repeat split. Qed.

(** ** The cache after two computations awaited together *)

Lemma overlay_lookup (base top bottom : gmap string Address.t) (k : string) :
  overlay base top bottom !! k =
    match top !! k with
    | Some v => if decide (base !! k = Some v) then bottom !! k else Some v
    | None => bottom !! k
    end.
Proof.
  unfold overlay. destruct (top !! k) as [v|] eqn:T.
  - destruct (decide (base !! k = Some v)) as [E|E].
    + apply lookup_union_r, map_lookup_filter_None. right.
      intros x Hx. simpl. rewrite T in Hx. injection Hx as <-. by intros H.
    + apply lookup_union_Some_l, map_lookup_filter_Some. by split.
  - apply lookup_union_r, map_lookup_filter_None. by left.
Qed.

(** An entry of the merged cache is an entry of one of the two. *)
Lemma overlay_either (base top bottom : gmap string Address.t) (k : string) :
  overlay base top bottom !! k = top !! k \/ overlay base top bottom !! k = bottom !! k.
Proof.
  rewrite overlay_lookup. destruct (top !! k) as [v|]; [|by right].
  destruct (decide _); [by right | by left].
Qed.

(** Where neither has changed an entry, the merged cache has it as it was. *)
Lemma overlay_unchanged (base top bottom : gmap string Address.t) (k : string) :
  top !! k = base !! k -> bottom !! k = base !! k -> overlay base top bottom !! k = base !! k.
Proof. intros T B. destruct (overlay_either base top bottom k) as [-> | ->]; done. Qed.

(** A computation that has written nothing leaves the merge to the other. *)
Lemma overlay_base_top (base bottom : gmap string Address.t) :
  overlay base base bottom = bottom.
Proof.
  apply map_eq. intros k. rewrite overlay_lookup.
  destruct (base !! k) as [v|] eqn:E; [|done]. by rewrite decide_True.
Qed.

Lemma overlay_base_bottom (base top : gmap string Address.t) :
  base ⊆ top -> overlay base top base = top.
Proof.
  intros Hsub. apply map_eq. intros k. rewrite overlay_lookup.
  destruct (top !! k) as [v|] eqn:T.
  - destruct (decide _) as [E|E]; done.
  - destruct (base !! k) as [v|] eqn:E; [|done].
    rewrite (lookup_weaken _ _ _ _ E Hsub) in T. done.
Qed.

(** What [all2] does: the first computation from the world, the second
    from the snapshot, the calls of both, and the merged cache. *)
Lemma all2_run {A B} (later : bool) (a : Eff.M A) (b : Eff.M B) (w : World) :
  exists ra w1 rb w2,
    a w = (ra, w1) /\ b (snapshot w w1) = (rb, w2)
    /\ Eff.all2 later a b w =
         (match ra, rb with
          | Eff.Returned x, Eff.Returned y => Eff.Returned (x, y)
          | _, _ => Eff.Thrown
          end,
          mkWorld (merged later w w1 w2) (calls w2)).
Proof.
  destruct (a w) as [ra w1] eqn:Ea. destruct (b (snapshot w w1)) as [rb w2] eqn:Eb.
  exists ra, w1, rb, w2. split; [reflexivity|]. split; [exact Eb|].
  unfold Eff.all2. rewrite Ea, Eb. destruct ra, rb; reflexivity.
Qed.

(** ** Effects: totality and footprints *)

Section EffFacts.

Import Eff.

Context {A B : Type}.

Lemma total_ret (a : A) : total (ret a).
Proof. intros w. by exists a, w. Qed.

Lemma total_bind (m : M A) (k : A -> M B) :
  total m -> (forall a, total (k a)) -> total (bind m k).
Proof.
  intros Hm Hk w. destruct (Hm w) as (a & w1 & Ha).
  destruct (Hk a w1) as (b & w2 & Hb). exists b, w2.
  unfold bind. by rewrite Ha.
Qed.

Lemma total_try_catch (body handler : M A) : total handler -> total (try_catch body handler).
Proof.
  intros Hh w. unfold try_catch. destruct (body w) as [[a|] w1].
  - by exists a, w1.
  - apply Hh.
Qed.

Lemma total_all2 (later : bool) (a : M A) (b : M B) :
  total a -> total b -> total (all2 later a b).
Proof.
  intros Ha Hb w. destruct (Ha w) as (x & w1 & Hx).
  destruct (Hb (snapshot w w1)) as (y & w2 & Hy).
  eexists (x, y), _. unfold all2. by rewrite Hx, Hy.
Qed.

Lemma bind_returned (m : M A) (k : A -> M B) w a w1 :
  m w = (Returned a, w1) -> bind m k w = k a w1.
Proof. intros H. unfold bind. by rewrite H. Qed.

Lemma all2_returned (later : bool) (a : M A) (b : M B) w x w1 y w2 :
  a w = (Returned x, w1) -> b (snapshot w w1) = (Returned y, w2) ->
  all2 later a b w =
    (Returned (x, y), mkWorld (merged later w w1 w2) (calls w2)).
Proof. intros Ha Hb. unfold all2. by rewrite Ha, Hb. Qed.

Variable P : Call -> Prop.

Lemma emits_ret (a : A) : emits P (ret a).
Proof. intros w r w' [= <- <-]. exists []. by rewrite app_nil_r. Qed.

Lemma emits_throw : emits P (@throw A).
Proof. intros w r w' [= <- <-]. exists []. by rewrite app_nil_r. Qed.

Lemma emits_bind (m : M A) (k : A -> M B) :
  emits P m -> (forall a, emits P (k a)) -> emits P (bind m k).
Proof.
  intros Hm Hk w r w'. unfold bind. destruct (m w) as [[a|] w1] eqn:E; intros H.
  - destruct (Hm _ _ _ E) as (c1 & E1 & F1).
    destruct (Hk a _ _ _ H) as (c2 & E2 & F2).
    exists (c1 ++ c2). split; [|by apply Forall_app].
    by rewrite E2, E1, app_assoc.
  - injection H as <- <-. exact (Hm _ _ _ E).
Qed.

Lemma emits_try_catch (body handler : M A) :
  emits P body -> emits P handler -> emits P (try_catch body handler).
Proof.
  intros Hb Hh w r w'. unfold try_catch. destruct (body w) as [[a|] w1] eqn:E; intros H.
  - injection H as <- <-. exact (Hb _ _ _ E).
  - destruct (Hb _ _ _ E) as (c1 & E1 & F1).
    destruct (Hh _ _ _ H) as (c2 & E2 & F2).
    exists (c1 ++ c2). split; [|by apply Forall_app].
    by rewrite E2, E1, app_assoc.
Qed.

Lemma emits_all2 (later : bool) (a : M A) (b : M B) :
  emits P a -> emits P b -> emits P (all2 later a b).
Proof.
  intros Ha Hb w r w' H.
  destruct (all2_run later a b w) as (ra & w1 & rb & w2 & Ea & Eb & E).
  rewrite E in H. injection H as _ <-. simpl.
  destruct (Ha _ _ _ Ea) as (c1 & E1 & F1). destruct (Hb _ _ _ Eb) as (c2 & E2 & F2).
  exists (c1 ++ c2). split; [|by apply Forall_app].
  simpl in E2. by rewrite E2, E1, app_assoc.
Qed.

Lemma emits_log (c : Call) : P c -> emits P (log c).
Proof. intros Hc w r w' [= <- <-]. exists [c]. split; [done | by constructor]. Qed.

Lemma emits_json (body : option A) : emits P (json body).
Proof. destruct body; [apply emits_ret | apply emits_throw]. Qed.

Lemma emits_cache_set key a : emits P (cache_set key a).
Proof. intros w r w' [= <- <-]. exists []. by rewrite app_nil_r. Qed.

Lemma emits_cache_get key : emits P (cache_get key).
Proof. intros w r w' [= <- <-]. exists []. by rewrite app_nil_r. Qed.

End EffFacts.

Lemma emits_fetch {A} (P : Call -> Prop) (c : Call) (answer : fetched A) :
  P c -> emits P (Eff.fetch c answer).
Proof.
  intros Hc. apply emits_bind; [by apply emits_log | intros _].
  destruct answer; [apply emits_throw | apply emits_ret].
Qed.

Lemma emits_weaken {A} (P Q : Call -> Prop) (m : Eff.M A) :
  (forall c, P c -> Q c) -> emits P m -> emits Q m.
Proof.
  intros HPQ Hm w r w' E. destruct (Hm _ _ _ E) as (cs & E1 & F).
  exists cs. split; [done | by eapply Forall_impl].
Qed.

Section CacheFacts.

Import Eff.

Context {A B : Type}.

Lemma keeps_ret (a : A) : keeps_cache (ret a).
Proof. by intros w r w' [= <- <-]. Qed.

Lemma keeps_throw : keeps_cache (@throw A).
Proof. by intros w r w' [= <- <-]. Qed.

Lemma keeps_bind (m : M A) (k : A -> M B) :
  keeps_cache m -> (forall a, keeps_cache (k a)) -> keeps_cache (bind m k).
Proof.
  intros Hm Hk w r w'. unfold bind. destruct (m w) as [[a|] w1] eqn:E; intros H.
  - rewrite (Hk _ _ _ _ H). exact (Hm _ _ _ E).
  - injection H as <- <-. exact (Hm _ _ _ E).
Qed.

Lemma keeps_try_catch (body handler : M A) :
  keeps_cache body -> keeps_cache handler -> keeps_cache (try_catch body handler).
Proof.
  intros Hb Hh w r w'. unfold try_catch. destruct (body w) as [[a|] w1] eqn:E; intros H.
  - injection H as <- <-. exact (Hb _ _ _ E).
  - rewrite (Hh _ _ _ H). exact (Hb _ _ _ E).
Qed.

Lemma keeps_json (body : option A) : keeps_cache (json body).
Proof. destruct body; [apply keeps_ret | apply keeps_throw]. Qed.

Lemma keeps_fetch (c : Call) (answer : fetched A) : keeps_cache (fetch c answer).
Proof.
  intros w r w'. unfold fetch, bind, log.
  destruct answer; by intros [= <- <-].
Qed.

(** A computation that never throws and keeps the cache. *)
Lemma call_frame (m : M A) (w : World) :
  total m -> keeps_cache m ->
  exists a w', m w = (Returned a, w') /\ LOCATION_CACHE w' = LOCATION_CACHE w.
Proof.
  intros Ht Hk. destruct (Ht w) as (a & w' & E). exists a, w'. split; [done|].
  exact (Hk _ _ _ E).
Qed.

End CacheFacts.

Ltac eff_keeps :=
  repeat first
    [ solve [auto]
    | progress cbv zeta
    | apply keeps_ret
    | apply keeps_throw
    | apply keeps_json
    | apply keeps_fetch
    | apply keeps_try_catch
    | apply keeps_bind; [| intros ?]
    | match goal with
      | |- keeps_cache (if ?b then _ else _) => destruct b
      | |- keeps_cache (match ?x with _ => _ end) => destruct x
      end
    ].

Ltac eff_total :=
  repeat first
    [ solve [auto]
    | progress cbv zeta
    | apply total_ret
    | apply total_try_catch
    | apply total_all2
    | apply total_bind; [| intros ?]
    | match goal with
      | |- total (if ?b then _ else _) => destruct b
      | |- total (match ?x with _ => _ end) => destruct x
      end
    ].

Ltac eff_emits :=
  repeat first
    [ solve [auto]
    | progress cbv zeta
    | apply emits_ret
    | apply emits_throw
    | apply emits_json
    | apply emits_cache_get
    | apply emits_cache_set
    | apply emits_fetch; first [reflexivity | exact I]
    | apply emits_log; first [reflexivity | exact I]
    | apply emits_try_catch
    | apply emits_all2
    | apply emits_bind; [| intros ?]
    | match goal with
      | |- emits _ (if ?b then _ else _) => destruct b
      | |- emits _ (match ?x with _ => _ end) => destruct x
      end
    ].

(** ** Computations that do not read the world *)

Section BlindFacts.

Import Eff.

Context {A B : Type}.

Lemma blind_ret (a : A) : blind (ret a).
Proof. exists (Returned a), id, []. intros [c l]. unfold ret. simpl. by rewrite app_nil_r. Qed.

Lemma blind_throw : blind (@throw A).
Proof. exists Thrown, id, []. intros [c l]. unfold throw. simpl. by rewrite app_nil_r. Qed.

Lemma blind_bind (m : M A) (k : A -> M B) :
  blind m -> (forall a, blind (k a)) -> blind (bind m k).
Proof.
  intros (r & u & cs & Hm) Hk. destruct r as [a|].
  - destruct (Hk a) as (r' & u' & cs' & Hk').
    exists r', (fun c => u' (u c)), (cs ++ cs'). intros w.
    unfold bind. rewrite Hm, Hk'. simpl. by rewrite app_assoc.
  - exists Thrown, u, cs. intros w. unfold bind. by rewrite Hm.
Qed.

Lemma blind_try_catch (body handler : M A) :
  blind body -> blind handler -> blind (try_catch body handler).
Proof.
  intros (r & u & cs & Hb) (r' & u' & cs' & Hh). destruct r as [a|].
  - exists (Returned a), u, cs. intros w. unfold try_catch. by rewrite Hb.
  - exists r', (fun c => u' (u c)), (cs ++ cs'). intros w.
    unfold try_catch. rewrite Hb, Hh. simpl. by rewrite app_assoc.
Qed.

Lemma blind_json (body : option A) : blind (json body).
Proof. destruct body; [apply blind_ret | apply blind_throw]. Qed.

End BlindFacts.

Lemma blind_log (c : Call) : blind (Eff.log c).
Proof. by exists (Eff.Returned tt), id, [c]. Qed.

Lemma blind_cache_set (key : string) (a : Address.t) : blind (Eff.cache_set key a).
Proof.
  exists (Eff.Returned tt), (fun c => <[key := a]> c), []. intros [c l].
  unfold Eff.cache_set. simpl. by rewrite app_nil_r.
Qed.

Lemma blind_fetch {A} (c : Call) (answer : fetched A) : blind (Eff.fetch c answer).
Proof.
  apply blind_bind; [apply blind_log | intros _].
  destruct answer; [apply blind_throw | apply blind_ret].
Qed.

(** From two worlds a blind computation has the same outcome and makes the
    same calls; it keeps the cache of both or of neither. *)
Lemma blind_same {A} (m : Eff.M A) (w v : World) :
  blind m ->
  exists r cs cw cv,
    m w = (r, mkWorld cw (calls w ++ cs)) /\ m v = (r, mkWorld cv (calls v ++ cs))
    /\ (LOCATION_CACHE w = LOCATION_CACHE v -> cw = cv).
Proof.
  intros (r & u & cs & H). exists r, cs, (u (LOCATION_CACHE w)), (u (LOCATION_CACHE v)).
  split; [apply H|]. split; [apply H|]. by intros ->.
Qed.

Ltac eff_blind :=
  repeat first
    [ solve [auto]
    | progress cbv zeta
    | apply blind_ret
    | apply blind_throw
    | apply blind_json
    | apply blind_cache_set
    | apply blind_fetch
    | apply blind_log
    | apply blind_try_catch
    | apply blind_bind; [| intros ?]
    | match goal with
      | |- blind (if ?b then _ else _) => destruct b
      | |- blind (match ?x with _ => _ end) => destruct x
      end
    ].

Section ResolverFacts.

Variable env : Env.

Lemma lookupZipDetails_total zip : total (lookupZipDetails env zip).
Proof. unfold lookupZipDetails. eff_total. Qed.

Lemma geocodeCity_total location : total (geocodeCity env location).
Proof. unfold geocodeCity. eff_total. Qed.

Lemma reverseGeocodeZip_total lat lon : total (reverseGeocodeZip env lat lon).
Proof. unfold reverseGeocodeZip. eff_total. Qed.

Lemma lookupZipByCityState_total c s : total (lookupZipByCityState env c s).
Proof. unfold lookupZipByCityState. eff_total. Qed.

Lemma lookupZipDetails_emits zip : emits resolverCall (lookupZipDetails env zip).
Proof. unfold lookupZipDetails. eff_emits. Qed.

Lemma geocodeCity_emits location : emits resolverCall (geocodeCity env location).
Proof. unfold geocodeCity. eff_emits. Qed.

Lemma reverseGeocodeZip_emits lat lon : emits resolverCall (reverseGeocodeZip env lat lon).
Proof. unfold reverseGeocodeZip. eff_emits. Qed.

Lemma lookupZipByCityState_emits c s : emits resolverCall (lookupZipByCityState env c s).
Proof. unfold lookupZipByCityState. eff_emits. Qed.

Lemma resolveByGeocoding_emits key location hint :
  emits resolverCall (resolveByGeocoding env key location hint).
Proof.
  pose proof geocodeCity_emits. pose proof reverseGeocodeZip_emits.
  pose proof lookupZipByCityState_emits. pose proof lookupZipDetails_emits.
  unfold resolveByGeocoding. eff_emits.
Qed.

Lemma resolveUsAddress_emits location : emits resolverCall (resolveUsAddress env location).
Proof.
  pose proof resolveByGeocoding_emits. pose proof lookupZipDetails_emits.
  unfold resolveUsAddress. eff_emits.
Qed.

Lemma buildShippoAddress_emits location country :
  emits resolverCall (buildShippoAddress env location country).
Proof.
  pose proof geocodeCity_emits. pose proof resolveUsAddress_emits.
  unfold buildShippoAddress. eff_emits.
Qed.

Lemma lookupZipDetails_keeps zip : keeps_cache (lookupZipDetails env zip).
Proof. unfold lookupZipDetails. eff_keeps. Qed.

Lemma geocodeCity_keeps location : keeps_cache (geocodeCity env location).
Proof. unfold geocodeCity. eff_keeps. Qed.

Lemma reverseGeocodeZip_keeps lat lon : keeps_cache (reverseGeocodeZip env lat lon).
Proof. unfold reverseGeocodeZip. eff_keeps. Qed.

Lemma lookupZipByCityState_keeps c s : keeps_cache (lookupZipByCityState env c s).
Proof. unfold lookupZipByCityState. eff_keeps. Qed.

Lemma lookupZipDetails_blind zip : blind (lookupZipDetails env zip).
Proof. unfold lookupZipDetails. eff_blind. Qed.

Lemma geocodeCity_blind location : blind (geocodeCity env location).
Proof. unfold geocodeCity. eff_blind. Qed.

Lemma reverseGeocodeZip_blind lat lon : blind (reverseGeocodeZip env lat lon).
Proof. unfold reverseGeocodeZip. eff_blind. Qed.

Lemma lookupZipByCityState_blind c s : blind (lookupZipByCityState env c s).
Proof. unfold lookupZipByCityState. eff_blind. Qed.

Lemma resolveByGeocoding_blind key location hint :
  blind (resolveByGeocoding env key location hint).
Proof.
  pose proof geocodeCity_blind. pose proof reverseGeocodeZip_blind.
  pose proof lookupZipByCityState_blind. pose proof lookupZipDetails_blind.
  unfold resolveByGeocoding. eff_blind.
Qed.

(** [resolveUsAddress] reads the cache once, at its start, under the
    lower-cased location; after a miss it does not read the world. *)
Lemma resolveUsAddress_read location :
  exists rest,
    blind rest
    /\ forall w,
         resolveUsAddress env location w =
           match LOCATION_CACHE w !! Str.toLowerCase location with
           | Some a => (Eff.Returned (Some a), w)
           | None => rest w
           end.
Proof.
  eexists. split; cycle 1.
  - intros w. unfold resolveUsAddress, Eff.bind at 1, Eff.cache_get. cbv zeta. cbv beta iota.
    destruct (LOCATION_CACHE w !! Str.toLowerCase location); reflexivity.
  - pose proof resolveByGeocoding_blind. pose proof lookupZipDetails_blind. eff_blind.
Qed.

(** From two worlds that have the same entry, or none, for a location,
    [resolveUsAddress] has the same outcome and makes the same calls. *)
Lemma resolveUsAddress_agree location w v :
  LOCATION_CACHE w !! Str.toLowerCase location
  = LOCATION_CACHE v !! Str.toLowerCase location ->
  exists r cs cw cv,
    resolveUsAddress env location w = (r, mkWorld cw (calls w ++ cs))
    /\ resolveUsAddress env location v = (r, mkWorld cv (calls v ++ cs)).
Proof.
  intros H. destruct (resolveUsAddress_read location) as (rest & Hb & Hr).
  rewrite !Hr, <- H. destruct (LOCATION_CACHE w !! Str.toLowerCase location) as [a|].
  - exists (Eff.Returned (Some a)), [], (LOCATION_CACHE w), (LOCATION_CACHE v).
    rewrite !app_nil_r. by destruct w, v.
  - destruct (blind_same rest w v Hb) as (r & cs & cw & cv & E1 & E2 & _).
    by exists r, cs, cw, cv.
Qed.

Lemma buildShippoAddress_agree location country w v :
  (country = "US" ->
   LOCATION_CACHE w !! Str.toLowerCase location
   = LOCATION_CACHE v !! Str.toLowerCase location) ->
  exists r cs cw cv,
    buildShippoAddress env location country w = (r, mkWorld cw (calls w ++ cs))
    /\ buildShippoAddress env location country v = (r, mkWorld cv (calls v ++ cs)).
Proof.
  intros H. unfold buildShippoAddress.
  destruct (String.eqb country "US") eqn:Ec; cbv beta iota delta [negb].
  - apply String.eqb_eq in Ec.
    destruct (resolveUsAddress_agree location w v (H Ec))
      as (r & cs & cw & cv & E1 & E2).
    unfold Eff.bind. rewrite E1, E2.
    destruct r as [[a|]|]; eexists _, cs, cw, cv; split; reflexivity.
  - assert (blind (geocoded <- geocodeCity env location ;;
                   (let g_field (f : Geocoded -> option string) :=
                      match geocoded with Some g => f g | None => None end in
                    Eff.ret (Some (mkShippoAddress
                                 (or_text (g_field g_city) (cityFromText location))
                                 (or_state (normalizeState (g_field g_state)) (StateText ""))
                                 (or_text (fiveDigits (g_field g_zip)) "")
                                 country))))%eff) as Hb.
    { pose proof geocodeCity_blind. eff_blind. }
    destruct (blind_same _ w v Hb) as (r & cs & cw & cv & E1 & E2 & _).
    by exists r, cs, cw, cv.
Qed.

Lemma getFreightosQuotes_blind parsed : blind (getFreightosQuotes env parsed).
Proof. unfold getFreightosQuotes. eff_blind. Qed.

Lemma saveToDatabase_blind : blind (saveToDatabase env).
Proof. unfold saveToDatabase. eff_blind. Qed.

Lemma buildShippoAddress_total location country :
  total (buildShippoAddress env location country).
Proof.
  pose proof lookupZipDetails_total. pose proof geocodeCity_total.
  pose proof reverseGeocodeZip_total. pose proof lookupZipByCityState_total.
  unfold buildShippoAddress, resolveUsAddress, resolveByGeocoding, Eff.cache_get,
    Eff.cache_set.
  eff_total; intros w; eauto.
Qed.

(** One run of [getShippoQuotes] with an API key: the two addresses are
    resolved, the destination from the snapshot; with both of them the
    shipment is submitted and its answer turned into quotes; without one of
    them nothing is submitted. *)
Lemma getShippoQuotes_run p contact w :
  present (SHIPPO_API_KEY env) = true ->
  exists ro w1 rd w2,
    buildShippoAddress env (origin p) (originCountry p) w = (Eff.Returned ro, w1)
    /\ buildShippoAddress env (destination p) (destCountry p) (snapshot w w1)
       = (Eff.Returned rd, w2)
    /\ getShippoQuotes env p contact w =
         (Eff.Returned
            match ro, rd with
            | Some o, Some d => shippoAnswer (shippo_shipments env (shipmentOf p contact o d))
            | _, _ => []
            end,
          mkWorld (merged (second_lands_last env AddressRace) w w1 w2)
            (calls w2 ++ match ro, rd with Some _, Some _ => [ShippoRates] | _, _ => [] end)).
Proof.
  intros K.
  destruct (buildShippoAddress_total (origin p) (originCountry p) w) as (ro & w1 & Ea).
  destruct (buildShippoAddress_total (destination p) (destCountry p) (snapshot w w1))
    as (rd & w2 & Eb).
  exists ro, w1, rd, w2. split; [done|]. split; [done|].
  unfold getShippoQuotes. rewrite K. cbv beta iota delta [negb].
  unfold Eff.try_catch, Eff.bind at 1.
  rewrite (all2_returned _ _ _ _ _ _ _ _ Ea Eb).
  destruct ro as [o|], rd as [d|]; try (unfold Eff.ret; by rewrite app_nil_r).
  unfold shipmentOf, shippoAnswer, Eff.fetch, Eff.log, Eff.bind, Eff.json, Eff.ret, Eff.throw.
  cbv zeta.
  destruct (shippo_shipments env _) as [|ok [data|]]; simpl; try reflexivity.
  by destruct (sd_rates data).
Qed.

Lemma getShippoQuotes_no_key p contact w :
  present (SHIPPO_API_KEY env) = false -> getShippoQuotes env p contact w = (Eff.Returned [], w).
Proof. intros K. unfold getShippoQuotes. by rewrite K. Qed.

Lemma getShippoQuotes_total parsed contact : total (getShippoQuotes env parsed contact).
Proof.
  intros w. destruct (present (SHIPPO_API_KEY env)) eqn:K.
  - destruct (getShippoQuotes_run parsed contact w K) as (ro & w1 & rd & w2 & _ & _ & E).
    rewrite E. by eexists _, _.
  - rewrite (getShippoQuotes_no_key _ _ _ K). by eexists _, _.
Qed.

Lemma getShippoQuotes_emits parsed contact :
  emits parcelCall (getShippoQuotes env parsed contact).
Proof.
  assert (forall l c, emits parcelCall (buildShippoAddress env l c)) as H.
  { intros l c. eapply emits_weaken; [|apply buildShippoAddress_emits]. by intros []. }
  unfold getShippoQuotes. eff_emits.
Qed.

Lemma getFreightosQuotes_total parsed : total (getFreightosQuotes env parsed).
Proof. unfold getFreightosQuotes. eff_total. Qed.

Lemma getFreightosQuotes_emits parsed :
  emits (fun c => c = FreightosEstimate) (getFreightosQuotes env parsed).
Proof. unfold getFreightosQuotes. eff_emits. Qed.

Lemma saveToDatabase_total : total (saveToDatabase env).
Proof. unfold saveToDatabase. eff_total. Qed.

Lemma saveToDatabase_emits : emits (fun c => c = DatabaseInsert) (saveToDatabase env).
Proof. unfold saveToDatabase. eff_emits. Qed.

End ResolverFacts.

Lemma chooseRoute_rows (p : ParsedRequest) :
  match chooseRoute p with
  | FreightosOnly => freightRow p
  | ShippoOnly => ~ freightRow p /\ parcelRow p
  | BothProviders => ~ freightRow p /\ ~ parcelRow p
  end.
Proof.
  unfold chooseRoute, freightRow, parcelRow, singleLightParcel.
  destruct (isPallet p), (isInternational p), (needsBothQuotes p),
    (parcels p) as [|q [|q' l]]; simpl;
    try destruct (Num.ltb (Parcel.weight q) (Num.of_Z 70)) eqn:E; simpl;
    try (left; reflexivity); try (right; split; reflexivity);
    (split; [intros [?|[??]]; discriminate|]);
    try (split; [reflexivity | by exists q]);
    intros [? (q0 & ? & ?)]; try discriminate; congruence.
Qed.

(** ** The request handler *)

Lemma missingInfoOf_absent (p : ParsedRequest) (item : string) :
  In item (missingInfoOf p) <-> absent p item.
Proof.
  unfold missingInfoOf, absent.
  destruct (parcels p), (origin p), (destination p); simpl;
    intuition (try discriminate; subst; auto).
Qed.

(** C3: for a parsed request that lacks parcels, an origin or a destination
    the handler answers with [success: false], routing "incomplete" and no
    quotes; [missingInfo] holds exactly the absent items among "dimensions",
    "origin" and "destination"; the world is left as it was, so no provider
    and no other collaborator has been called; and that is the answer of
    [POST] to every request text with this parse (a text that reaches the
    parser is not empty). *)
Theorem C3_validation_short_circuit
    (env : Env) (p : ParsedRequest) (contact : Contact) (w : World) :
  parcels p = [] \/ origin p = "" \/ destination p = "" ->
  exists r missing,
    quoteParsed env p contact w = (Eff.Returned r, w)
    /\ success r = false /\ routing r = "incomplete" /\ quotes r = []
    /\ missingInfo r = Some missing
    /\ (forall item, In item missing <-> absent p item)
    /\ (forall body text,
          request body = Some text -> text <> "" ->
          parseNaturalLanguage text = p ->
          contact = mkContact (body_email body) (body_phone body) ->
          POST env (Some body) w = (Eff.Returned r, w)).
Proof.
  intros Hmiss.
  destruct (missingInfoOf p) as [|m ms] eqn:E.
  { exfalso.
    assert (forall item, ~ absent p item) as Hno.
    { intros item Ha. apply missingInfoOf_absent in Ha. by rewrite E in Ha. }
    destruct Hmiss as [H|[H|H]].
    - apply (Hno "dimensions"). left. done.
    - apply (Hno "origin"). right. left. done.
    - apply (Hno "destination"). right. right. done. }
  assert (quoteParsed env p contact w
          = (Eff.Returned (incompleteResponse p (m :: ms)), w)) as Hq.
  { unfold quoteParsed. by rewrite E. }
  exists (incompleteResponse p (m :: ms)), (m :: ms).
  split; [exact Hq|]. repeat split; try reflexivity.
  - rewrite <- E. apply missingInfoOf_absent.
  - rewrite <- E. apply missingInfoOf_absent.
  - intros body text Hreq Htext Hp ->.
    unfold POST, Eff.try_catch, Eff.bind, Eff.json, Eff.ret. rewrite Hreq.
    assert (Str.truthy text = true) as -> by (by destruct text).
    change (negb true) with false. cbv beta iota. by rewrite Hp, Hq.
Qed.

(** C3 at the text "hello", which has no dimensions and no places. *)
Lemma C3_witness :
  (parcels helloParsed = [] \/ origin helloParsed = "" \/ destination helloParsed = "")
  /\ exists r missing,
       quoteParsed offline helloParsed noContact emptyWorld = (Eff.Returned r, emptyWorld)
       /\ success r = false /\ routing r = "incomplete" /\ quotes r = []
       /\ missingInfo r = Some missing
       /\ (forall item, In item missing <-> absent helloParsed item)
       /\ (forall body text,
             request body = Some text -> text <> "" ->
             parseNaturalLanguage text = helloParsed ->
             noContact = mkContact (body_email body) (body_phone body) ->
             POST offline (Some body) emptyWorld = (Eff.Returned r, emptyWorld)).
Proof.
  split; [left; reflexivity|].
  apply (C3_validation_short_circuit offline helloParsed noContact emptyWorld).
  left. reflexivity.
Defined.

(** ** The freight normalizer *)


Lemma normalizeFreightos_cases (p : ParsedRequest) (data : FreightosData) :
  normalizeFreightos p data =
    match estimateQuotes p data
          ++ match rateList data with Some rates => rateQuotes rates | None => [] end
    with
    | q :: qs => q :: qs
    | [] =>
        match rateList data with
        | Some (r :: rs) => List.map verbatimQuote (firstn 5 (r :: rs))
        | _ => heuristicQuotes p
        end
    end.
Proof.
  unfold normalizeFreightos.
  destruct (rateList data) as [rates|].
  - destruct (estimateQuotes p data ++ rateQuotes rates); [|done].
    by destruct rates.
  - rewrite app_nil_r. by destruct (estimateQuotes p data).
Qed.

(** C4 as stated fails: with an air estimate in the structured modes and an
    air-tagged rate in the flat list, the result carries both air quotes. *)
Lemma C4_counterexample :
  exists q1 q2,
    In q1 (estimateQuotes smallBox bothTiers) /\ mode q1 = Some "Air"
    /\ In q2 (rateQuotes [airRate]) /\ mode q2 = Some "Air"
    /\ normalizeFreightos smallBox bothTiers = [q1; q2].
Proof.
  exists (mkQuote "Freightos" "Air Freight (Estimate)" (Num.of_Z 100) "USD" None (Some "Air")),
         (mkQuote "Freightos" "Air Freight (Cheapest)" (Num.of_Z 80) "USD"
            (Some [Text "Varies"]) (Some "Air")).
  vm_compute. repeat split; left; reflexivity.
Qed.

(** ** The address cache *)

Lemma truthy_nonempty (t : string) : Str.truthy t = true <-> t <> "".
Proof. destruct t; simpl; split; congruence. Qed.

Lemma state_truthy_nonempty (v : stateValue) : state_truthy v = true <-> v <> StateText "".
Proof. destruct v as [[|c t]| |]; simpl; split; congruence. Qed.

Lemma or_state_truthy (a : option stateValue) (v : stateValue) :
  state_truthy v = true -> state_truthy (or_state a v) = true.
Proof. intros H. unfold or_state. destruct a as [x|]; [|done]. by destruct (state_truthy x) eqn:E. Qed.

Section CacheTheorems.

Variable env : Env.

Lemma resolveByGeocoding_spec (key location : string) (hint : option stateValue) (w : World) :
  exists r w',
    resolveByGeocoding env key location hint w = (Eff.Returned r, w')
    /\ match r with
       | Some a =>
           Address.city a <> "" /\ Address.state a <> StateText ""
           /\ LOCATION_CACHE w' = <[key := a]> (LOCATION_CACHE w)
       | None => LOCATION_CACHE w' = LOCATION_CACHE w
       end.
Proof.
  pose proof (reverseGeocodeZip_total env). pose proof (reverseGeocodeZip_keeps env).
  pose proof (lookupZipByCityState_total env). pose proof (lookupZipByCityState_keeps env).
  unfold resolveByGeocoding.
  destruct (call_frame (geocodeCity env location) w) as (g & w1 & E1 & C1);
    [apply geocodeCity_total | apply geocodeCity_keeps |].
  rewrite (bind_returned _ _ _ _ _ E1). cbv zeta.
  match goal with
  | |- context [Eff.bind ?m _ w1] =>
      destruct (call_frame m w1) as (z1 & w2 & E2 & C2); [eff_total | eff_keeps |]
  end.
  rewrite (bind_returned _ _ _ _ _ E2).
  match goal with
  | |- context [Eff.bind ?m _ w2] =>
      destruct (call_frame m w2) as (z2 & w3 & E3 & C3); [eff_total | eff_keeps |]
  end.
  rewrite (bind_returned _ _ _ _ _ E3).
  destruct (present z2).
  2: { exists None, w3. split; [done|]. congruence. }
  destruct (call_frame (lookupZipDetails env (or_text z2 "")) w3) as (dt & w4 & E4 & C4);
    [apply lookupZipDetails_total | apply lookupZipDetails_keeps |].
  rewrite (bind_returned _ _ _ _ _ E4).
  match goal with
  | |- context [if ?c then _ else _] => destruct c eqn:T
  end.
  - apply andb_prop in T as [T1 T2]. apply truthy_nonempty in T1.
    apply state_truthy_nonempty in T2.
    eexists (Some _), _. split; [reflexivity|].
    split; [exact T1 | split; [exact T2|]]. simpl. congruence.
  - exists None, w4. split; [done|]. congruence.
Qed.


End CacheTheorems.

Lemma buildShippoAddress_US (env : Env) (location : string) (w : World) :
  buildShippoAddress env location "US" w =
    Eff.bind (resolveUsAddress env location)
      (fun resolved =>
         match resolved with
         | Some a =>
             Eff.ret (Some (mkShippoAddress (Address.city a) (Address.state a)
                              (Address.zip a) "US"))
         | None => Eff.ret None
         end) w.
Proof. reflexivity. Qed.


(** ** Strings *)

Lemma str_app_cons (x : ascii) (a b : string) :
  (String x a ++ b)%string = String x (a ++ b).
Proof. reflexivity. Qed.

Lemma str_app_assoc (a b c : string) : ((a ++ b) ++ c = a ++ (b ++ c))%string.
Proof. induction a as [|x a IH]; [done|]. by rewrite !str_app_cons, IH. Qed.

Lemma str_app_length (a b : string) :
  String.length (a ++ b) = String.length a + String.length b.
Proof. induction a as [|x a IH]; [done|]. rewrite str_app_cons. simpl. by rewrite IH. Qed.

Lemma str_app_nil_r (a : string) : (a ++ "")%string = a.
Proof. induction a as [|x a IH]; [done|]. by rewrite str_app_cons, IH. Qed.

Lemma str_map_app (f : ascii -> ascii) (a b : string) :
  Str.map f (a ++ b) = (Str.map f a ++ Str.map f b)%string.
Proof.
  induction a as [|x a IH]; [done|]. rewrite str_app_cons. simpl.
  by rewrite IH, str_app_cons.
Qed.

(** ** Soundness of the matcher *)

Module ReFacts.
Import Re ReSpec.

Lemma orelse_some (a : option mstate) (b : unit -> option mstate) (res : mstate) :
  orelse a b = Some res -> a = Some res \/ (a = None /\ b tt = Some res).
Proof. destruct a; simpl; intros H; [left | right]; auto. Qed.

(** Every result of [run] comes from a match of the expression followed by
    the continuation. *)
Lemma run_sound (r : regex) :
  forall (k : cont) (st res : mstate),
    run r k st = Some res -> exists st', matches r st st' /\ k st' = Some res.
Proof.
  induction r as [|p|r1 IH1 r2 IH2|r1 IH1 r2 IH2|r1 IH1|g r1 IH1|i r1 IH1| | |];
    intros k st res H; cbn [run] in H.
  - exists st. split; [constructor | done].
  - destruct (rest st) as [|c s'] eqn:E; [done|].
    destruct (p c) eqn:Ep; [|done].
    eexists. split; [by eapply M_Chr | done].
  - apply IH1 in H as (st1 & M1 & H). apply IH2 in H as (st2 & M2 & H).
    exists st2. split; [by econstructor | done].
  - apply orelse_some in H as [H|[_ H]].
    + apply IH1 in H as (st' & M & H). exists st'. split; [by apply M_AltL | done].
    + apply IH2 in H as (st' & M & H). exists st'. split; [by apply M_AltR | done].
  - apply orelse_some in H as [H|[_ H]].
    + apply IH1 in H as (st' & M & H). destruct (idx st' =? idx st)%nat; [done|].
      exists st'. split; [by apply M_OptTake | done].
    + exists st. split; [apply M_OptSkip | done].
  - revert H. generalize (S (String.length (rest st))). intros fuel. revert st.
    induction fuel as [|fuel IHf]; intros st H; simpl in H.
    + exists st. split; [apply M_StarDone | done].
    + assert (run r1 (fun st' : mstate =>
                          if (idx st' =? idx st)%nat then None
                          else iterate g (fun k' st'0 => run r1 k' (clear (groups r1) st'0))
                                 k fuel st')
                    (clear (groups r1) st) = Some res ->
                exists st', matches (Star g r1) st st' /\ k st' = Some res) as Hiter.
      { intros Hx. apply IH1 in Hx as (st1 & M1 & Hx).
        destruct (idx st1 =? idx st)%nat; [done|].
        apply IHf in Hx as (st2 & M2 & Hx).
        exists st2. split; [by eapply M_StarIter | done]. }
      destruct g; apply orelse_some in H as [H|[_ H]].
      * by apply Hiter.
      * exists st. split; [apply M_StarDone | done].
      * exists st. split; [apply M_StarDone | done].
      * by apply Hiter.
  - apply IH1 in H as (st' & M & H). eexists. split; [by apply M_Grp | done].
  - destruct (xorb (word_before st) (word_after st)) eqn:E; [|done].
    exists st. split; [by apply M_WordB | done].
  - destruct (idx st =? 0)%nat eqn:E; [|done]. apply Nat.eqb_eq in E.
    exists st. split; [by apply M_Bol | done].
  - destruct (rest st) eqn:E; [|done]. exists st. split; [by apply M_Eol | done].
Qed.

Lemma search_sound (r : regex) (s : string) :
  forall i p a st,
    search r i p s = Some (a, st) -> exists st0, matches r st0 st.
Proof.
  induction s as [|c s IH]; intros i p a st H; simpl in H.
  - destruct (run r Some (MState i p "" [])) eqn:E; [|done].
    injection H as _ <-. apply run_sound in E as (st' & M & [= <-]). eauto.
  - destruct (run r Some (MState i p (String c s) [])) eqn:E.
    + injection H as _ <-. apply run_sound in E as (st' & M & [= <-]). eauto.
    + eauto.
Qed.

Lemma exec_sound (r : regex) (input : string) (m : rmatch) :
  exec r input = Some m -> exists st0, matches r st0 (m_end m).
Proof.
  unfold exec. destruct (search r 0 None input) as [[a st]|] eqn:E; [|done].
  intros [= <-]. by eapply search_sound.
Qed.

Lemma exec_all_sound (r : regex) (input : string) (fuel : nat) :
  forall i p s m,
    In m (exec_all fuel r input i p s) -> exists st0, matches r st0 (m_end m).
Proof.
  induction fuel as [|fuel IH]; intros i p s m H; simpl in H; [done|].
  destruct (search r i p s) as [[a st]|] eqn:E; [|done].
  destruct H as [<-|H]; [by eapply search_sound|].
  destruct (idx st =? a)%nat; [destruct (rest st); [done|] |]; eauto.
Qed.

Lemma matchAll_sound (r : regex) (input : string) (m : rmatch) :
  In m (matchAll r input) -> exists st0, matches r st0 (m_end m).
Proof. apply exec_all_sound. Qed.

(** A match consumes a prefix of the remaining text. *)
Lemma matches_consumes (r : regex) (st st' : mstate) :
  matches r st st' ->
  exists u, rest st = (u ++ rest st')%string /\ idx st' = idx st + String.length u.
Proof.
  induction 1 as [st|p st c s' E Hp|r1 r2 st st1 st2 _ IH1 _ IH2|r1 r2 st st' _ IH
                 |r1 r2 st st' _ IH|r st|r st st' _ IH|g r st|g r st st1 st2 _ IH1 _ IH2
                 |i r st st' _ IH|st|st|st];
    try (exists ""%string; simpl; split; [done | lia]).
  - exists (String c ""). simpl. split; [done | lia].
  - destruct IH1 as (u1 & E1 & I1), IH2 as (u2 & E2 & I2).
    exists (u1 ++ u2)%string. rewrite E1, E2, I2, I1, str_app_length.
    split; [by rewrite str_app_assoc | lia].
  - done.
  - done.
  - destruct IH as (u & E & I). exists u. by destruct (groups r).
  - destruct IH1 as (u1 & E1 & I1), IH2 as (u2 & E2 & I2).
    exists (u1 ++ u2)%string. rewrite E2 in E1. rewrite I2, str_app_length.
    split; [|destruct (groups r); simpl in *; lia].
    rewrite str_app_assoc. by destruct (groups r).
  - done.
Qed.

Lemma cap_lookup_filter (i : nat) (gs : list nat) (l : list (nat * string)) :
  ~ In i gs ->
  cap_lookup i (List.filter (fun c => negb (existsb (Nat.eqb (fst c)) gs)) l) = cap_lookup i l.
Proof.
  intros Hi. induction l as [|[j t] l IH]; [done|]. simpl.
  destruct (existsb (Nat.eqb j) gs) eqn:E; simpl.
  - destruct (Nat.eqb_spec j i) as [->|]; [|exact IH].
    apply existsb_exists in E as (x & Hx & Ex). apply Nat.eqb_eq in Ex. by subst.
  - by rewrite IH.
Qed.

Lemma cap_lookup_clear (i : nat) (gs : list nat) (st : mstate) :
  ~ In i gs -> cap_lookup i (caps (clear gs st)) = cap_lookup i (caps st).
Proof.
  intros Hi. unfold clear. destruct gs as [|g gs']; [done|].
  exact (cap_lookup_filter i (g :: gs') (caps st) Hi).
Qed.

(** A match leaves alone the groups that do not occur in the expression. *)
Lemma matches_keeps (i : nat) (r : regex) (st st' : mstate) :
  matches r st st' -> ~ In i (groups r) ->
  cap_lookup i (caps st') = cap_lookup i (caps st).
Proof.
  induction 1 as [st|p st c s' E Hp|r1 r2 st st1 st2 _ IH1 _ IH2|r1 r2 st st' _ IH
                 |r1 r2 st st' _ IH|r st|r st st' _ IH|g r st|g r st st1 st2 _ IH1 _ IH2
                 |j r st st' _ IH|st|st|st];
    simpl; intros Hi; try done.
  - rewrite in_app_iff in Hi. rewrite IH2, IH1; tauto.
  - rewrite in_app_iff in Hi. apply IH; tauto.
  - rewrite in_app_iff in Hi. apply IH; tauto.
  - rewrite IH by done. by apply cap_lookup_clear.
  - rewrite IH2, IH1 by done. by apply cap_lookup_clear.
  - destruct (Nat.eqb_spec j i) as [->|]; [tauto|]. apply IH. tauto.
Qed.

Lemma prefix_digit_led (n : nat) (c : ascii) (s : string) :
  Chars.is_digit c = true -> digit_led (prefix (S n) (String c s)).
Proof. intros Hc. by exists c, (String.substring 0 n s). Qed.

(** A group holding a number is set to a text that starts with a digit. *)
Lemma captures_sound (i : nat) (r : regex) :
  captures i r ->
  forall st st', matches r st st' ->
    exists t, cap_lookup i (caps st') = Some t /\ digit_led t.
Proof.
  induction 1 as [r|r1 r2 _ IH Hi|r1 r2 _ IH]; intros st st' M.
  - inversion M as [| | | | | | | | |j r0 st0 st1 M1| | |]; subst.
    simpl. rewrite Nat.eqb_refl. eexists. split; [done|].
    destruct (matches_consumes _ _ _ M1) as (u & Eu & Iu).
    inversion M1 as [| |ra rb s0 sa sb Ma Mb| | | | | | | | | |]; subst.
    inversion Ma as [| |ra rb s0 sc sd Mc Md| | | | | | | | | |]; subst.
    inversion Mc as [|p s0 c s' Ec Hc| | | | | | | | | | |]; subst.
    rewrite Ec.
    destruct (matches_consumes _ _ _ Md) as (u1 & _ & I1).
    destruct (matches_consumes _ _ _ Mb) as (u2 & _ & I2).
    simpl in I1. replace (idx st1 - idx st) with (S (String.length u1 + String.length u2)) by lia.
    by apply prefix_digit_led.
  - inversion M as [| |ra rb s0 s1 s2 M1 M2| | | | | | | | | |]; subst.
    destruct (IH _ _ M1) as (t & Ht & Dt). exists t. split; [|done].
    by rewrite (matches_keeps _ _ _ _ M2 Hi).
  - inversion M as [| |ra rb s0 s1 s2 M1 M2| | | | | | | | | |]; subst. eauto.
Qed.

End ReFacts.

(** ** Numbers: signs *)

Module NumFacts.
Import Num.

Local Open Scope Z_scope.

Lemma shr_1_nonneg (mrs : shr_record) : 0 <= shr_m mrs -> 0 <= shr_m (shr_1 mrs).
Proof. destruct mrs as [[|[p|p|]|[p|p|]] r s]; simpl; lia. Qed.

Lemma iter_shr_1_nonneg (n : positive) :
  forall mrs, 0 <= shr_m mrs -> 0 <= shr_m (SpecFloat.iter_pos shr_1 n mrs).
Proof.
  induction n as [n IH|n IH|]; intros mrs H; simpl.
  - apply IH, IH. by apply shr_1_nonneg.
  - by apply IH, IH.
  - by apply shr_1_nonneg.
Qed.

Lemma shr_fexp_nonneg (m e : Z) (l : location) :
  0 <= m -> 0 <= shr_m (fst (shr_fexp prec emax m e l)).
Proof.
  intros H. unfold shr_fexp, shr.
  assert (0 <= shr_m (shr_record_of_loc m l)) as H0.
  { by destruct l as [|[]]. }
  destruct (fexp prec emax (Zdigits2 m + e) - e); simpl; try done.
  by apply iter_shr_1_nonneg.
Qed.

Lemma round_nearest_even_nonneg (m : Z) (l : location) :
  0 <= m -> 0 <= round_nearest_even m l.
Proof. intros H. destruct l as [|[]]; simpl; try done; try lia. destruct (Z.even m); lia. Qed.

Lemma binary_round_aux_nonneg (m e : Z) (l : location) :
  0 <= m -> nonneg (binary_round_aux prec emax false m e l).
Proof.
  intros H. unfold binary_round_aux.
  pose proof (shr_fexp_nonneg m e l H) as H1.
  destruct (shr_fexp prec emax m e l) as [mrs' e'].
  pose proof (shr_fexp_nonneg _ e' loc_Exact
                (round_nearest_even_nonneg _ (loc_of_shr_record mrs') H1)) as H2.
  destruct (shr_fexp prec emax _ e' loc_Exact) as [mrs'' e''].
  simpl in H2. destruct (shr_m mrs''); [done | | lia].
  by destruct (e'' <=? emax - prec).
Qed.

Lemma binary_normalize_nonneg (m e : Z) :
  0 <= m -> nonneg (binary_normalize prec emax m e false).
Proof.
  intros H. destruct m as [|p|p]; [done | | lia]. simpl. unfold binary_round.
  destruct (shl_align p e _) as [mz ez]. by apply binary_round_aux_nonneg.
Qed.

Lemma of_ratio_nonneg (n d : positive) : nonneg (of_ratio false n d).
Proof.
  unfold of_ratio, SFdiv_core_binary.
  match goal with
  | |- context [Z.div_eucl ?a ?b] =>
      assert (0 <= a) as Ha by (destruct (_ - _ - _); [lia | apply Z.shiftl_nonneg; lia | lia]);
      pose proof (Z.div_pos a b Ha ltac:(lia)) as Hq;
      unfold Z.div in Hq; destruct (Z.div_eucl a b) as [q r]
  end.
  by apply binary_round_aux_nonneg.
Qed.

Lemma of_decimal_nonneg (m e : Z) : nonneg (of_decimal false m e).
Proof.
  unfold of_decimal. destruct m as [|p|p]; [done | | done].
  destruct (0 <=? e); [by apply binary_normalize_nonneg | apply of_ratio_nonneg].
Qed.

Lemma mul_nonneg (x : number) (mc : positive) (ec : Z) :
  nonneg x -> nonneg (mul x (S754_finite false mc ec)).
Proof.
  destruct x as [s|[]| |[] m e]; try done; intros _.
  by apply binary_round_aux_nonneg.
Qed.

Lemma of_Z_nonneg (z : Z) : 0 <= z -> nonneg (of_Z z).
Proof. apply binary_normalize_nonneg. Qed.

Lemma digit_not_space (c : ascii) : Chars.is_digit c = true -> Chars.is_space c = false.
Proof. destruct c as [[] [] [] [] [] [] [] []]; by vm_compute. Qed.

Lemma digits_count (s : string) :
  forall acc n v n' s', digits s acc n = (v, n', s') -> (n <= n')%nat.
Proof.
  induction s as [|x s IH]; intros acc n v n' s' E; simpl in E.
  - injection E as _ <- _. lia.
  - destruct (Chars.is_digit x).
    + apply IH in E. lia.
    + injection E as _ <- _. lia.
Qed.

(** A text that starts with a digit reads as a number that is not negative. *)
Lemma parseFloat_digit_led (t : string) : ReSpec.digit_led t -> nonneg (parseFloat t).
Proof.
  intros (c & t' & -> & Hc). unfold parseFloat. simpl Str.trimStart.
  rewrite (digit_not_space c Hc).
  assert (unsigned_literal false (String c t') = parseFloat (String c t')
          /\ nonneg (unsigned_literal false (String c t'))) as [_ H].
  { split.
    - unfold parseFloat. simpl Str.trimStart. rewrite (digit_not_space c Hc).
      destruct c as [[] [] [] [] [] [] [] []]; try discriminate Hc; reflexivity.
    - unfold unsigned_literal.
      assert (Str.startsWith "Infinity" (String c t') = false) as ->.
      { destruct c as [[] [] [] [] [] [] [] []]; try discriminate Hc; reflexivity. }
      simpl digits. rewrite Hc.
      destruct (digits t' _ 1) as [[i ni] s1] eqn:E1.
      pose proof (digits_count _ _ _ _ _ _ E1) as Hni.
      destruct (match s1 with
                | String "."%char t => digits t i 0
                | _ => (i, 0%nat, s1)
                end) as [[m nf] s2].
      destruct (ni + nf)%nat eqn:En; [lia|]. apply of_decimal_nonneg. }
  destruct c as [[] [] [] [] [] [] [] []]; try discriminate Hc; exact H.
Qed.

End NumFacts.

(** ** The parcel extractor *)

Section ParcelFacts.

Import Re ReSpec.

Ltac prove_captures :=
  first
    [ apply cap_here
    | apply cap_left; [prove_captures | vm_compute; intuition lia]
    | apply cap_right; prove_captures ].

Lemma captures_dimOnly (i : nat) :
  In i [1; 3; 5] -> captures i Pattern.dimOnlyPattern.
Proof.
  cbv [Pattern.dimOnlyPattern seqs Pattern.num].
  intros [<-|[<-|[<-|[]]]]; prove_captures.
Qed.

Lemma captures_box (i : nat) :
  In i [1; 3; 5; 7] -> captures i Pattern.boxPattern.
Proof.
  cbv [Pattern.boxPattern Pattern.dimOnlyPattern seqs Pattern.num].
  intros [<-|[<-|[<-|[<-|[]]]]]; prove_captures.
Qed.

Lemma captures_weight : captures 1 Pattern.weightPattern.
Proof. cbv [Pattern.weightPattern seqs Pattern.num]. prove_captures. Qed.

Lemma captures_weightWord : captures 1 Pattern.weightWordPattern.
Proof. cbv [Pattern.weightWordPattern seqs Pattern.num]. prove_captures. Qed.

Lemma group_nonneg (i : nat) (r : regex) (m : rmatch) :
  captures i r -> (exists st0, matches r st0 (m_end m)) ->
  nonneg (parseFloat_group i m).
Proof.
  intros Hc (st0 & M). unfold parseFloat_group, group.
  destruct (ReFacts.captures_sound i r Hc _ _ M) as (t & -> & Ht).
  by apply NumFacts.parseFloat_digit_led.
Qed.

Lemma normalizeLength_nonneg (v : Num.number) (u : option string) :
  nonneg v -> nonneg (normalizeLength v u).
Proof.
  intros H. unfold normalizeLength. destruct u as [u|]; [|done].
  destruct (no_unit _); [done|]. destruct (_ || _ || _); [|done].
  by apply NumFacts.mul_nonneg.
Qed.

Lemma normalizeWeight_nonneg (v : Num.number) (u : option string) :
  nonneg v -> nonneg (normalizeWeight v u).
Proof.
  intros H. unfold normalizeWeight. destruct u as [u|]; [|done].
  destruct (no_unit _); [done|]. destruct (_ || _ || _ || _); [|done].
  by apply NumFacts.mul_nonneg.
Qed.

Lemma boxParcel_nonneg (input : string) (m : rmatch) :
  In m (collectMatches Pattern.boxPattern input) -> parcel_nonneg (boxParcel m).
Proof.
  intros Hm. apply ReFacts.matchAll_sound in Hm.
  repeat split; simpl;
    (apply normalizeLength_nonneg || apply normalizeWeight_nonneg);
    (eapply group_nonneg; [apply captures_box; simpl; tauto | exact Hm]).
Qed.

Lemma pairParcels_nonneg (input : string) (defaultWeight : option Num.number)
    (weightMatches : list rmatch) :
  (forall m, In m weightMatches -> exists st0, matches Pattern.weightPattern st0 (m_end m)) ->
  (forall dw, defaultWeight = Some dw -> nonneg dw) ->
  forall dimMatches i p,
    (forall m, In m dimMatches -> exists st0, matches Pattern.dimOnlyPattern st0 (m_end m)) ->
    In p (pairParcels i dimMatches weightMatches defaultWeight) -> parcel_nonneg p.
Proof.
  intros Hw Hd. induction dimMatches as [|dim dims IH]; intros i p Hdims Hp; [done|].
  simpl in Hp. destruct Hp as [<-|Hp].
  - repeat split; simpl.
    1-3: apply normalizeLength_nonneg;
      (eapply group_nonneg; [apply captures_dimOnly; simpl; tauto | apply Hdims; by left]).
    destruct (nth_error weightMatches i) as [wm|] eqn:E.
    + apply normalizeWeight_nonneg.
      eapply group_nonneg; [apply captures_weight | apply Hw; by eapply nth_error_In].
    + destruct defaultWeight as [dw|]; [by apply Hd | done].
  - eapply IH; [|exact Hp]. intros m Hm. apply Hdims. by right.
Qed.

Lemma extractParcels_nonneg (normalizedInput : string) (p : Parcel.t) :
  In p (extractParcels normalizedInput) -> parcel_nonneg p.
Proof.
  unfold extractParcels.
  destruct (collectMatches Pattern.boxPattern normalizedInput) as [|m ms] eqn:E.
  - apply (pairParcels_nonneg normalizedInput).
    + intros m. apply ReFacts.matchAll_sound.
    + destruct (exec Pattern.weightWordPattern normalizedInput) as [wm|] eqn:Ew; [|done].
      intros dw [= <-]. apply normalizeWeight_nonneg.
      eapply group_nonneg; [apply captures_weightWord | by eapply ReFacts.exec_sound].
    + intros m. apply ReFacts.matchAll_sound.
  - intros Hp. apply in_map_iff in Hp as (m' & <- & Hm').
    apply (boxParcel_nonneg normalizedInput). by rewrite E.
Qed.

End ParcelFacts.

(** C8, as the code has it: every parcel of a parsed request has a length,
    width, height and weight that are numbers and are not negative; zero is
    possible. *)
Theorem C8_parcel_measures_not_negative (input : string) (p : Parcel.t) :
  In p (parcels (parseNaturalLanguage input)) -> parcel_nonneg p.
Proof.
  unfold parseNaturalLanguage.
  destruct (extractRoute (Str.stripDiacritics input)) as [o dst]. simpl.
  apply extractParcels_nonneg.
Qed.

(** C8 at the one parcel of "24x10x10 20lbs from 33142 to 90210". *)
Lemma C8_witness :
  parcel_nonneg (Parcel.Build (Num.of_Z 24) (Num.of_Z 10) (Num.of_Z 10) (Num.of_Z 20)).
Proof.
  apply (C8_parcel_measures_not_negative "24x10x10 20lbs from 33142 to 90210").
  vm_compute. left. reflexivity.
Defined.

(** C8 as stated fails: the text "0x0x0 0lb" parses to one parcel whose
    four measures are zero. *)
Lemma C8_counterexample :
  exists p, In p (parcels (parseNaturalLanguage "0x0x0 0lb")) /\ ~ parcel_positive p.
Proof.
  exists (Parcel.Build Num.zero Num.zero Num.zero Num.zero).
  split; [vm_compute; by left|].
  intros [H _]. vm_compute in H. discriminate.
Qed.

(** ** Key-word tests *)

Module WordFacts.
Import Re ReSpec.

Lemma run_liti (w : string) :
  forall (k : cont) (st : mstate),
    run (liti w) k st =
      match advance_ci w st with
      | Some st' => k st'
      | None => None
      end.
Proof.
  induction w as [|c w IH]; intros k st; [done|].
  destruct w as [|c' w'].
  - simpl. destruct (rest st) as [|x s']; [done|]. by destruct (Ascii.eqb _ _).
  - change (liti (String c (String c' w'))) with (Seq (chri c) (liti (String c' w'))).
    cbn [run chri advance_ci].
    destruct (rest st) as [|x s']; [done|].
    destruct (Ascii.eqb _ _); [|done]. apply IH.
Qed.

Lemma advance_ci_spec (w : string) :
  forall st,
    is_Some (advance_ci w st) <->
    exists u t, rest st = (u ++ t)%string /\ Str.map Chars.upper u = Str.map Chars.upper w.
Proof.
  induction w as [|c w IH]; intros st; simpl.
  - split; [intros _; by exists ""%string, (rest st) | done].
  - destruct (rest st) as [|x s'] eqn:E.
    + split; [by intros [? ?]|]. intros ([|y u] & t & Hu & Hm); discriminate.
    + destruct (Ascii.eqb_spec (Chars.upper x) (Chars.upper c)) as [Hx|Hx].
      * rewrite IH. simpl. split.
        -- intros (u & t & -> & Hm). exists (String x u), t. simpl. by rewrite Hx, Hm.
        -- intros ([|y u] & t & Hu & Hm); [discriminate|].
           rewrite str_app_cons in Hu. injection Hu as <- ->.
           simpl in Hm. injection Hm as _ Hm. by exists u, t.
      * split; [by intros [? ?]|]. intros ([|y u] & t & Hu & Hm); [discriminate|].
        rewrite str_app_cons in Hu. injection Hu as <- ->.
        simpl in Hm. injection Hm as Hy _. done.
Qed.

Lemma run_wordsi (ws : list string) (st : mstate) :
  is_Some (run (wordsi ws) Some st) <-> exists w, In w ws /\ is_Some (advance_ci w st).
Proof.
  unfold wordsi. induction ws as [|w ws IH].
  - simpl. split; [|by intros (w & [] & _)].
    destruct (rest st); by intros [? ?].
  - destruct ws as [|w2 ws].
    + simpl. rewrite run_liti. split.
      * intros H. exists w. split; [by left|]. by destruct (advance_ci w st).
      * intros (w' & [<-|[]] & H). by destruct (advance_ci w st).
    + change (alts (List.map liti (w :: w2 :: ws)))
        with (Alt (liti w) (alts (List.map liti (w2 :: ws)))).
      cbn [run]. rewrite run_liti. unfold orelse.
      destruct (advance_ci w st) as [st'|] eqn:E.
      * split; [|done]. intros _. exists w. split; [by left|]. by rewrite E.
      * rewrite IH. split.
        -- intros (w' & Hw & H). exists w'. split; [by right | done].
        -- intros (w' & [<-|Hw] & H); [rewrite E in H; by destruct H|]. by exists w'.
Qed.

Lemma search_wordsi (ws : list string) (s : string) :
  forall i p,
    is_Some (search (wordsi ws) i p s) <-> exists w, In w ws /\ contains_ci w s.
Proof.
  unfold contains_ci.
  induction s as [|c s IH]; intros i p; simpl.
  - destruct (run (wordsi ws) Some (MState i p "" [])) as [st|] eqn:E.
    + split; [intros _ | done].
      destruct (proj1 (run_wordsi ws _) (ex_intro _ st E)) as (w & Hw & H).
      apply advance_ci_spec in H as (u & t & Hu & Hm). simpl in Hu.
      exists w. split; [done|]. by exists ""%string, u, t.
    + split; [by intros [? ?]|]. intros (w & Hw & before & u & after & Hs & Hm).
      assert (is_Some (run (wordsi ws) Some (MState i p "" []))) as [? ?]; [|congruence].
      apply run_wordsi. exists w. split; [done|]. apply advance_ci_spec.
      destruct before; [|discriminate]. by exists u, after.
  - destruct (run (wordsi ws) Some (MState i p (String c s) [])) as [st|] eqn:E.
    + split; [intros _ | done].
      destruct (proj1 (run_wordsi ws _) (ex_intro _ st E)) as (w & Hw & H).
      apply advance_ci_spec in H as (u & t & Hu & Hm). simpl in Hu.
      exists w. split; [done|]. by exists ""%string, u, t.
    + rewrite IH. split.
      * intros (w & Hw & before & u & after & -> & Hm).
        exists w. split; [done|]. by exists (String c before), u, after.
      * intros (w & Hw & before & u & after & Hs & Hm).
        destruct before as [|b before].
        -- assert (is_Some (run (wordsi ws) Some (MState i p (String c s) []))) as [? ?];
             [|congruence].
           apply run_wordsi. exists w. split; [done|]. apply advance_ci_spec.
           by exists u, after.
        -- rewrite str_app_cons in Hs. injection Hs as _ ->.
           exists w. split; [done|]. by exists before, u, after.
Qed.

Lemma test_wordsi (ws : list string) (s : string) :
  test (wordsi ws) s = true <-> exists w, In w ws /\ contains_ci w s.
Proof.
  rewrite <- (search_wordsi ws s 0 None). unfold test, exec.
  destruct (search (wordsi ws) 0 None s) as [[a st]|].
  - split; [by eexists | done].
  - split; [done | by intros [? ?]].
Qed.

End WordFacts.

Lemma upper_lower (c : ascii) : Chars.upper (Chars.lower c) = Chars.upper c.
Proof. destruct c as [[] [] [] [] [] [] [] []]; by vm_compute. Qed.

Lemma upper_of_lowercase (c : ascii) :
  Chars.in_range 97 122 c = true -> Chars.in_range 65 90 (Chars.upper c) = true.
Proof. destruct c as [[] [] [] [] [] [] [] []]; by vm_compute. Qed.

Lemma strip_mark_letter (x : ascii) :
  Chars.in_range 65 90 (Chars.upper x) = true -> Chars.strip_mark x = x.
Proof. destruct x as [[] [] [] [] [] [] [] []]; by vm_compute. Qed.

Lemma map_upper_lower (u : string) :
  Str.map Chars.upper (Str.map Chars.lower u) = Str.map Chars.upper u.
Proof. induction u as [|x u IH]; simpl; [done | by rewrite upper_lower, IH]. Qed.

Lemma str_map_app_inv (f : ascii -> ascii) (t : string) :
  forall a b, Str.map f t = (a ++ b)%string ->
    exists a' b', t = (a' ++ b')%string /\ Str.map f a' = a /\ Str.map f b' = b.
Proof.
  induction t as [|x t IH]; intros a b H.
  - destruct a; [|discriminate]. destruct b; [|discriminate]. by exists ""%string, ""%string.
  - destruct a as [|y a].
    + exists ""%string, (String x t). split; [done | split; [done | exact H]].
    + rewrite str_app_cons in H. simpl in H. injection H as <- H.
      apply IH in H as (a' & b' & -> & <- & <-). by exists (String x a'), b'.
Qed.

Lemma contains_ci_lower (w t : string) :
  contains_ci w (Str.toLowerCase t) <-> contains_ci w t.
Proof.
  unfold contains_ci, Str.toLowerCase. split.
  - intros (before & u & after & H & Hm).
    apply str_map_app_inv in H as (b' & r' & -> & <- & H).
    apply str_map_app_inv in H as (u' & a' & -> & <- & <-).
    exists b', u', a'. split; [done|]. by rewrite <- map_upper_lower.
  - intros (before & u & after & -> & Hm).
    exists (Str.map Chars.lower before), (Str.map Chars.lower u), (Str.map Chars.lower after).
    split; [by rewrite !str_map_app | by rewrite map_upper_lower].
Qed.

Lemma strip_matching (w : string) :
  lowercase w ->
  forall u, Str.map Chars.upper u = Str.map Chars.upper w -> Str.stripDiacritics u = u.
Proof.
  unfold lowercase. induction w as [|c w IH]; intros Hw u Hm.
  - by destruct u.
  - destruct u as [|x u]; [done|]. simpl in Hm, Hw. injection Hm as Hx Hm.
    apply Forall_cons in Hw as [Hc Hw]. unfold Str.stripDiacritics. simpl.
    fold (Str.stripDiacritics u). rewrite (IH Hw u Hm).
    rewrite strip_mark_letter; [done|]. rewrite Hx. by apply upper_of_lowercase.
Qed.

Lemma contains_ci_strip (w t : string) :
  lowercase w -> contains_ci w t -> contains_ci w (Str.stripDiacritics t).
Proof.
  intros Hw (before & u & after & -> & Hm).
  exists (Str.stripDiacritics before), u, (Str.stripDiacritics after).
  split; [|done]. pose proof (strip_matching w Hw u Hm) as Hu.
  unfold Str.stripDiacritics in *. by rewrite !str_map_app, Hu.
Qed.

Lemma palletWords_lowercase (w : string) : In w Pattern.palletWords -> lowercase w.
Proof.
  intros [<-|[<-|[<-|[<-|[<-|[]]]]]]; unfold lowercase; simpl;
    repeat (apply Forall_cons; split; [reflexivity|]); apply Forall_nil; exact I.
Qed.

(** C10, as the code has it: the parsed [isPallet] flag holds exactly when
    the text, once its diacritics are stripped, contains "pallet",
    "freight", "lcl", "fcl" or "container" up to the case of the letters; in
    particular it holds whenever the text as given contains one of them; and
    the flag alone sends a valid request to the freight provider only. *)
Theorem C10_isPallet_keywords (input : string) :
  (isPallet (parseNaturalLanguage input) = true <->
     exists w, In w ["pallet"; "freight"; "lcl"; "fcl"; "container"]
               /\ contains_ci w (Str.stripDiacritics input))
  /\ ((exists w, In w ["pallet"; "freight"; "lcl"; "fcl"; "container"]
                 /\ contains_ci w input) ->
      isPallet (parseNaturalLanguage input) = true)
  /\ (isPallet (parseNaturalLanguage input) = true ->
      chooseRoute (parseNaturalLanguage input) = FreightosOnly).
Proof.
  assert (isPallet (parseNaturalLanguage input)
          = Re.test Pattern.palletPattern (Str.toLowerCase (Str.stripDiacritics input))) as E.
  { unfold parseNaturalLanguage.
    by destruct (extractRoute (Str.stripDiacritics input)). }
  assert (isPallet (parseNaturalLanguage input) = true <->
          exists w, In w Pattern.palletWords
                    /\ contains_ci w (Str.stripDiacritics input)) as H.
  { rewrite E. unfold Pattern.palletPattern. rewrite WordFacts.test_wordsi.
    split; intros (w & Hw & Hc); exists w; (split; [done|]); by apply contains_ci_lower. }
  split; [exact H | split].
  - intros (w & Hw & Hc). apply H. exists w. split; [done|].
    apply contains_ci_strip; [by apply palletWords_lowercase | done].
  - intros Hp. unfold chooseRoute. by rewrite Hp.
Qed.

(** C10 as stated fails: "pallet" written with an accented "a" does not
    contain any of the five words, whatever the case, and still sets the
    flag, since the accent is stripped before the test. *)
Lemma C10_counterexample :
  isPallet (parseNaturalLanguage accentedPallet) = true
  /\ ~ exists w, In w ["pallet"; "freight"; "lcl"; "fcl"; "container"]
                 /\ contains_ci w accentedPallet.
Proof.
  split; [by vm_compute|]. intros H.
  apply (WordFacts.test_wordsi ["pallet"; "freight"; "lcl"; "fcl"; "container"]) in H.
  vm_compute in H. discriminate.
Qed.

(** * Further properties *)

(** ** The handler: what it answers and what it leaves behind *)

Lemma quoteParsed_total (env : Env) (p : ParsedRequest) (contact : Contact) :
  total (quoteParsed env p contact).
Proof.
  pose proof (getShippoQuotes_total env). pose proof (getFreightosQuotes_total env).
  pose proof (saveToDatabase_total env).
  unfold quoteParsed, dispatch. eff_total.
Qed.

(** What [dispatch] does, step by step: the provider calls of the chosen
    route, then the save, then the success response. *)
Lemma dispatch_returns (env : Env) (p : ParsedRequest) (contact : Contact) (w : World) :
  exists label s f w1 w',
    dispatch env p contact w = (Eff.Returned (successResponse label p s f), w')
    /\ In label ["Freightos Only (Freight)"; "Shippo Only (Domestic Parcel)";
                 "Both (Comparison)"]%string
    /\ match chooseRoute p with
       | FreightosOnly => s = [] /\ getFreightosQuotes env p w = (Eff.Returned f, w1)
       | ShippoOnly => f = [] /\ getShippoQuotes env p contact w = (Eff.Returned s, w1)
       | BothProviders =>
           exists w0 w2,
             getShippoQuotes env p contact w = (Eff.Returned s, w0)
             /\ getFreightosQuotes env p (snapshot w w0) = (Eff.Returned f, w2)
             /\ w1 = mkWorld (merged (second_lands_last env ProviderRace) w w0 w2) (calls w2)
       end
    /\ saveToDatabase env w1 = (Eff.Returned tt, w').
Proof.
  unfold dispatch. destruct (chooseRoute p).
  - destruct (getFreightosQuotes_total env p w) as (f & w1 & Ef).
    destruct (saveToDatabase_total env w1) as ([] & w' & Es).
    exists "Freightos Only (Freight)"%string, [], f, w1, w'.
    unfold Eff.bind at 1 2. rewrite Ef. unfold Eff.ret at 1.
    unfold Eff.bind. rewrite Es. simpl. tauto.
  - destruct (getShippoQuotes_total env p contact w) as (s & w1 & E1).
    destruct (saveToDatabase_total env w1) as ([] & w' & Es).
    exists "Shippo Only (Domestic Parcel)"%string, s, [], w1, w'.
    unfold Eff.bind at 1 2. rewrite E1. unfold Eff.ret at 1.
    unfold Eff.bind. rewrite Es. simpl. tauto.
  - destruct (getShippoQuotes_total env p contact w) as (s & w0 & E1).
    destruct (getFreightosQuotes_total env p (snapshot w w0)) as (f & w2 & Ef).
    set (w1 := mkWorld (merged (second_lands_last env ProviderRace) w w0 w2) (calls w2)).
    destruct (saveToDatabase_total env w1) as ([] & w' & Es).
    exists "Both (Comparison)"%string, s, f, w1, w'.
    unfold Eff.bind at 1 2. rewrite (all2_returned _ _ _ _ _ _ _ _ E1 Ef).
    unfold Eff.ret at 1. unfold Eff.bind. fold w1. rewrite Es. simpl.
    split; [done|]. split; [tauto|]. split; [by exists w0, w2 | done].
Qed.

(** What [POST] does with a body that parses. *)
Lemma POST_cases (env : Env) (b : Body) (w : World) :
  POST env (Some b) w =
    match request b with
    | Some (String c t) =>
        quoteParsed env (parseNaturalLanguage (String c t))
          (mkContact (body_email b) (body_phone b)) w
    | _ => (Eff.Returned (errorResponse "Please provide a shipping request" 400), w)
    end.
Proof.
  unfold POST, Eff.try_catch, Eff.bind at 1. simpl.
  destruct (request b) as [[|c t]|]; try reflexivity.
  simpl.
  destruct (quoteParsed_total env (parseNaturalLanguage (String c t))
              (mkContact (body_email b) (body_phone b)) w) as (r & w' & E).
  by rewrite E.
Qed.

(** What [quoteParsed] answers: the incomplete response, with the world as
    it was, or the response of [dispatch]. *)
Lemma quoteParsed_cases (env : Env) (p : ParsedRequest) (contact : Contact) (w : World) :
  quoteParsed env p contact w =
    match missingInfoOf p with
    | [] => dispatch env p contact w
    | missing => (Eff.Returned (incompleteResponse p missing), w)
    end.
Proof. unfold quoteParsed. by destruct (missingInfoOf p). Qed.

Lemma POST_total (env : Env) (body : option Body) : total (POST env body).
Proof.
  pose proof (quoteParsed_total env).
  unfold POST. eff_total.
Qed.

(** X1: [POST] always answers, and its status code tells why: 500 exactly
    when the body of the request is not JSON or is the JSON value [null]
    (the destructuring of [null] throws, inside the [try]), 400 exactly when
    the body is another JSON value whose [request] field is absent, not a
    string or empty; in both cases the answer is the error response with no
    quotes and the empty parse, no external call is made and the address
    cache is untouched.  Nothing after the parse can make the handler answer
    500. *)
Theorem POST_status_classifies (env : Env) (json : RequestJson) (w : World) :
  exists r w',
    POST env (readBody json) w = (Eff.Returned r, w')
    /\ (status r = 500 <-> json = NotJson \/ json = JsonNull)
    /\ (status r = 400 <->
        exists b, json = JsonValue b /\ (request b = None \/ request b = Some ""%string))
    /\ (status r = 200 \/ status r = 400 \/ status r = 500)
    /\ (status r <> 200 ->
        w' = w /\ success r = false /\ routing r = "error"%string
        /\ quotes r = [] /\ parsed r = emptyParsed).
Proof.
  destruct json as [| |b].
  1,2: eexists _, w; split; [reflexivity|]; simpl;
       repeat split; try done; try tauto; by intros (b & ? & _).
  simpl readBody. rewrite POST_cases.
  destruct (request b) as [[|c t]|] eqn:Eb.
  1,3: eexists _, w; split; [reflexivity|]; simpl;
       repeat split; try done; try tauto;
       try (intros [H|H]; discriminate H); intros _; exists b; tauto.
  assert (forall r : QuoteResponse, status r = 200 ->
            (status r = 500 <-> JsonValue b = NotJson \/ JsonValue b = JsonNull)
            /\ (status r = 400 <->
                exists b0, JsonValue b = JsonValue b0
                           /\ (request b0 = None \/ request b0 = Some ""%string))
            /\ (status r = 200 \/ status r = 400 \/ status r = 500)) as Hok.
  { intros r Hr. rewrite Hr. repeat split; try done; try tauto.
    - intros [H|H]; discriminate H.
    - intros (b0 & [= <-] & [H|H]); congruence. }
  rewrite quoteParsed_cases.
  destruct (missingInfoOf _) as [|item missing].
  - destruct (dispatch_returns env (parseNaturalLanguage (String c t))
                (mkContact (body_email b) (body_phone b)) w)
      as (label & s & f & w1 & w' & E & _).
    eexists _, w'. split; [exact E|].
    destruct (Hok (successResponse label (parseNaturalLanguage (String c t)) s f))
      as (H1 & H2 & H3); [done|].
    repeat split; try apply H1; try apply H2; try done.
  - eexists _, w. split; [reflexivity|].
    destruct (Hok (incompleteResponse (parseNaturalLanguage (String c t)) (item :: missing)))
      as (H1 & H2 & H3); [done|].
    repeat split; try apply H1; try apply H2; try done.
Qed.

(** X1 at a body that is the JSON value [null]: the answer is the error
    response with status 500, and nothing has been called. *)
Lemma POST_status_classifies_witness :
  POST offline (readBody JsonNull) emptyWorld
  = (Eff.Returned (errorResponse "Failed to process quote request" 500), emptyWorld)
  /\ exists r w',
       POST offline (readBody JsonNull) emptyWorld = (Eff.Returned r, w')
       /\ status r = 500 /\ w' = emptyWorld /\ quotes r = [].
Proof.
  split; [reflexivity|].
  destruct (POST_status_classifies offline JsonNull emptyWorld)
    as (r & w' & E & H500 & _ & _ & Herr).
  assert (status r = 500) as Hs by (apply H500; by right).
  exists r, w'. split; [exact E|]. split; [exact Hs|].
  destruct Herr as (Hw & _ & _ & Hq & _); [by rewrite Hs|]. by split.
Defined.

(** ** Counting calls *)

Lemma count_calls_app (kind : Call -> bool) (a b : list Call) :
  count_calls kind (a ++ b) = count_calls kind a + count_calls kind b.
Proof. unfold count_calls. by rewrite List.filter_app, List.length_app. Qed.

Section SpendsFacts.

Import Eff.

Context {A B : Type}.

Variable kind : Call -> bool.

Lemma spends_weaken (n n' : nat) (m : M A) : spends kind n m -> n <= n' -> spends kind n' m.
Proof.
  intros Hm Hn w r w' E. destruct (Hm _ _ _ E) as (cs & E1 & L).
  exists cs. split; [done | lia].
Qed.

Lemma spends_ret (a : A) : spends kind 0 (ret a).
Proof. intros w r w' [= <- <-]. exists []. by rewrite app_nil_r. Qed.

Lemma spends_throw : spends kind 0 (@throw A).
Proof. intros w r w' [= <- <-]. exists []. by rewrite app_nil_r. Qed.

Lemma spends_bind (n1 n2 : nat) (m : M A) (k : A -> M B) :
  spends kind n1 m -> (forall a, spends kind n2 (k a)) -> spends kind (n1 + n2) (bind m k).
Proof.
  intros Hm Hk w r w'. unfold bind. destruct (m w) as [[a|] w1] eqn:E; intros H.
  - destruct (Hm _ _ _ E) as (c1 & E1 & L1).
    destruct (Hk a _ _ _ H) as (c2 & E2 & L2).
    exists (c1 ++ c2). rewrite count_calls_app. split; [|lia].
    by rewrite E2, E1, app_assoc.
  - injection H as <- <-. destruct (Hm _ _ _ E) as (c1 & E1 & L1).
    exists c1. split; [done | lia].
Qed.

Lemma spends_try_catch (n1 n2 : nat) (body handler : M A) :
  spends kind n1 body -> spends kind n2 handler ->
  spends kind (n1 + n2) (try_catch body handler).
Proof.
  intros Hb Hh w r w'. unfold try_catch. destruct (body w) as [[a|] w1] eqn:E; intros H.
  - injection H as <- <-. destruct (Hb _ _ _ E) as (c1 & E1 & L1).
    exists c1. split; [done | lia].
  - destruct (Hb _ _ _ E) as (c1 & E1 & L1).
    destruct (Hh _ _ _ H) as (c2 & E2 & L2).
    exists (c1 ++ c2). rewrite count_calls_app. split; [|lia].
    by rewrite E2, E1, app_assoc.
Qed.

Lemma spends_log (c : Call) : spends kind (if kind c then 1 else 0) (log c).
Proof.
  intros w r w' [= <- <-]. exists [c]. split; [done|].
  unfold count_calls. simpl. by destruct (kind c).
Qed.

Lemma spends_json (body : option A) : spends kind 0 (json body).
Proof. destruct body; [apply spends_ret | apply spends_throw]. Qed.

Lemma spends_cache_set key a : spends kind 0 (cache_set key a).
Proof. intros w r w' [= <- <-]. exists []. by rewrite app_nil_r. Qed.

Lemma spends_cache_get key : spends kind 0 (cache_get key).
Proof. intros w r w' [= <- <-]. exists []. by rewrite app_nil_r. Qed.

Lemma spends_max_l (n1 n2 : nat) (m : M A) : spends kind n1 m -> spends kind (Nat.max n1 n2) m.
Proof. intros H. eapply spends_weaken; [exact H | lia]. Qed.

Lemma spends_max_r (n1 n2 : nat) (m : M A) : spends kind n2 m -> spends kind (Nat.max n1 n2) m.
Proof. intros H. eapply spends_weaken; [exact H | lia]. Qed.

End SpendsFacts.

Lemma spends_all2 {A B} (kind : Call -> bool) (n1 n2 : nat) (later : bool)
    (a : Eff.M A) (b : Eff.M B) :
  spends kind n1 a -> spends kind n2 b -> spends kind (n1 + n2) (Eff.all2 later a b).
Proof.
  intros Ha Hb w r w' H.
  destruct (all2_run later a b w) as (ra & w1 & rb & w2 & Ea & Eb & E).
  rewrite E in H. injection H as _ <-. simpl.
  destruct (Ha _ _ _ Ea) as (c1 & E1 & L1). destruct (Hb _ _ _ Eb) as (c2 & E2 & L2).
  exists (c1 ++ c2). rewrite count_calls_app. split; [|lia].
  simpl in E2. by rewrite E2, E1, app_assoc.
Qed.

Lemma spends_fetch {A} (kind : Call -> bool) (c : Call) (answer : fetched A) :
  spends kind (if kind c then 1 else 0) (Eff.fetch c answer).
Proof.
  eapply spends_weaken.
  - apply spends_bind; [apply spends_log | intros _].
    instantiate (1 := 0). destruct answer; [apply spends_throw | apply spends_ret].
  - lia.
Qed.

(** The bound of a computation built from the operations of the monad: a
    branch costs the larger of its two arms. *)
Ltac spends_branch x :=
  first
    [ match goal with
      | |- spends _ ?n _ =>
          let a := fresh "a" in
          let b := fresh "b" in
          evar (a : nat); evar (b : nat);
          unify n (Nat.max a b); subst a b;
          destruct x; [apply spends_max_l | apply spends_max_r]
      end
    | match goal with
      | |- spends _ ?n _ =>
          let a := fresh "a" in
          let b := fresh "b" in
          let c := fresh "c" in
          evar (a : nat); evar (b : nat); evar (c : nat);
          unify n (Nat.max a (Nat.max b c)); subst a b c;
          destruct x;
          [ apply spends_max_l
          | apply spends_max_r, spends_max_l
          | apply spends_max_r, spends_max_r ]
      end
    | destruct x as [? ?] ].

Lemma within_any {A} t g p r e s (m : Eff.M A) :
  within t g p r e s m -> spends any_call t m.
Proof. by intros (? & ? & ? & ? & ? & ?). Qed.

Lemma within_geocoder {A} t g p r e s (m : Eff.M A) :
  within t g p r e s m -> spends is_geocoder g m.
Proof. by intros (? & ? & ? & ? & ? & ?). Qed.

Lemma within_postal {A} t g p r e s (m : Eff.M A) :
  within t g p r e s m -> spends is_postal p m.
Proof. by intros (? & ? & ? & ? & ? & ?). Qed.

Lemma within_rates {A} t g p r e s (m : Eff.M A) :
  within t g p r e s m -> spends (is_call ShippoRates) r m.
Proof. by intros (? & ? & ? & ? & ? & ?). Qed.

Lemma within_estimates {A} t g p r e s (m : Eff.M A) :
  within t g p r e s m -> spends (is_call FreightosEstimate) e m.
Proof. by intros (? & ? & ? & ? & ? & ?). Qed.

Lemma within_saves {A} t g p r e s (m : Eff.M A) :
  within t g p r e s m -> spends (is_call DatabaseInsert) s m.
Proof. by intros (? & ? & ? & ? & ? & ?). Qed.

Create HintDb within.

Ltac eff_spends :=
  repeat first
    [ progress cbv zeta
    | eapply within_any; solve [eauto with within nocore]
    | eapply within_geocoder; solve [eauto with within nocore]
    | eapply within_postal; solve [eauto with within nocore]
    | eapply within_rates; solve [eauto with within nocore]
    | eapply within_estimates; solve [eauto with within nocore]
    | eapply within_saves; solve [eauto with within nocore]
    | apply spends_ret
    | apply spends_throw
    | apply spends_json
    | apply spends_cache_get
    | apply spends_cache_set
    | apply spends_fetch
    | apply spends_log
    | apply spends_try_catch
    | apply spends_all2
    | apply spends_bind; [| intros ?]
    | match goal with
      | |- spends _ _ (if ?b then _ else _) => spends_branch b
      | |- spends _ _ (match ?x with _ => _ end) => spends_branch x
      end
    ].

(** A bound proved through [eff_spends], then compared with the stated one. *)
Ltac spends_within := eapply spends_weaken; [eff_spends | cbv; lia].

Ltac prove_within :=
  unfold within; repeat split; spends_within.

Lemma lookupZipDetails_within (env : Env) zip : within 1 0 1 0 0 0 (lookupZipDetails env zip).
Proof. unfold lookupZipDetails. prove_within. Qed.

Lemma geocodeCity_within (env : Env) location : within 1 1 0 0 0 0 (geocodeCity env location).
Proof. unfold geocodeCity. prove_within. Qed.

Lemma reverseGeocodeZip_within (env : Env) lat lon :
  within 1 1 0 0 0 0 (reverseGeocodeZip env lat lon).
Proof. unfold reverseGeocodeZip. prove_within. Qed.

Lemma lookupZipByCityState_within (env : Env) c s :
  within 1 0 1 0 0 0 (lookupZipByCityState env c s).
Proof. unfold lookupZipByCityState. prove_within. Qed.

#[local] Hint Resolve lookupZipDetails_within geocodeCity_within reverseGeocodeZip_within
  lookupZipByCityState_within : within.

Lemma resolveByGeocoding_within (env : Env) key location hint :
  within 4 2 2 0 0 0 (resolveByGeocoding env key location hint).
Proof. unfold resolveByGeocoding. prove_within. Qed.

#[local] Hint Resolve resolveByGeocoding_within : within.

Lemma resolveUsAddress_within (env : Env) location :
  within 5 2 3 0 0 0 (resolveUsAddress env location).
Proof. unfold resolveUsAddress. prove_within. Qed.

#[local] Hint Resolve resolveUsAddress_within : within.

Lemma buildShippoAddress_within (env : Env) location country :
  within 5 2 3 0 0 0 (buildShippoAddress env location country).
Proof. unfold buildShippoAddress. prove_within. Qed.

#[local] Hint Resolve buildShippoAddress_within : within.

Lemma getShippoQuotes_within (env : Env) p contact :
  within 11 4 6 1 0 0 (getShippoQuotes env p contact).
Proof. unfold getShippoQuotes. prove_within. Qed.

Lemma getFreightosQuotes_within (env : Env) p :
  within 1 0 0 0 1 0 (getFreightosQuotes env p).
Proof. unfold getFreightosQuotes. prove_within. Qed.

Lemma saveToDatabase_within (env : Env) : within 1 0 0 0 0 1 (saveToDatabase env).
Proof. unfold saveToDatabase. prove_within. Qed.

#[local] Hint Resolve getShippoQuotes_within getFreightosQuotes_within saveToDatabase_within
  : within.

Lemma dispatch_within (env : Env) p contact :
  within 13 4 6 1 1 1 (dispatch env p contact).
Proof. unfold dispatch. prove_within. Qed.

#[local] Hint Resolve dispatch_within : within.

Lemma POST_within (env : Env) body : within 13 4 6 1 1 1 (POST env body).
Proof. unfold POST, quoteParsed. prove_within. Qed.

Lemma count_any_call (cs : list Call) : count_calls any_call cs = List.length cs.
Proof.
  unfold count_calls. induction cs as [|c cs IH]; [done|]. simpl. by rewrite IH.
Qed.

(** The calls of a computation that never throws, with their counts. *)
Lemma within_run {A} t g p r e s (m : Eff.M A) (w : World) :
  total m -> within t g p r e s m ->
  exists a w' cs,
    m w = (Eff.Returned a, w') /\ calls w' = calls w ++ cs
    /\ List.length cs <= t /\ count_calls is_geocoder cs <= g
    /\ count_calls is_postal cs <= p
    /\ count_calls (is_call ShippoRates) cs <= r
    /\ count_calls (is_call FreightosEstimate) cs <= e
    /\ count_calls (is_call DatabaseInsert) cs <= s.
Proof.
  intros Ht (H1 & H2 & H3 & H4 & H5 & H6). destruct (Ht w) as (a & w' & E).
  destruct (H1 _ _ _ E) as (cs & Ec & L1). exists a, w', cs.
  rewrite count_any_call in L1.
  assert (forall kind n, spends kind n m -> count_calls kind cs <= n) as Hc.
  { intros kind n H. destruct (H _ _ _ E) as (cs' & Ec' & L).
    rewrite Ec in Ec'. apply app_inv_head in Ec'. by subst cs'. }
  repeat split; auto.
Qed.

Lemma resolveUsAddress_total (env : Env) location : total (resolveUsAddress env location).
Proof.
  pose proof (lookupZipDetails_total env). pose proof (geocodeCity_total env).
  pose proof (reverseGeocodeZip_total env). pose proof (lookupZipByCityState_total env).
  unfold resolveUsAddress, resolveByGeocoding, Eff.cache_get, Eff.cache_set.
  eff_total; intros w; eauto.
Qed.

(** X2: one resolution of a United States address makes at most five
    external calls, all of them to the postal database and to the geocoder:
    at most three to the first and at most two to the second. *)
Theorem resolveUsAddress_call_budget (env : Env) (location : string) (w : World) :
  exists r w' cs,
    resolveUsAddress env location w = (Eff.Returned r, w')
    /\ calls w' = calls w ++ cs
    /\ List.length cs <= 5
    /\ count_calls is_postal cs <= 3
    /\ count_calls is_geocoder cs <= 2
    /\ Forall (fun c => is_postal c || is_geocoder c = true) cs.
Proof.
  destruct (within_run 5 2 3 0 0 0 (resolveUsAddress env location) w)
    as (r & w' & cs & E & Ec & L & Lg & Lp & _).
  { apply resolveUsAddress_total. }
  { apply resolveUsAddress_within. }
  exists r, w', cs. repeat split; try done.
  destruct (resolveUsAddress_emits env location _ _ _ E) as (cs' & Ec' & F).
  rewrite Ec in Ec'. apply app_inv_head in Ec'. subst cs'.
  eapply Forall_impl; [exact F|]. by intros [].
Qed.

(** X3: one request makes at most thirteen external calls: at most four to
    the geocoder and six to the postal database (address resolution for the
    small-parcel provider), one rate request to each provider and one save. *)
Theorem POST_call_budget (env : Env) (body : option Body) (w : World) :
  exists r w' cs,
    POST env body w = (Eff.Returned r, w')
    /\ calls w' = calls w ++ cs
    /\ List.length cs <= 13
    /\ count_calls is_geocoder cs <= 4
    /\ count_calls is_postal cs <= 6
    /\ count_calls (is_call ShippoRates) cs <= 1
    /\ count_calls (is_call FreightosEstimate) cs <= 1
    /\ count_calls (is_call DatabaseInsert) cs <= 1.
Proof.
  apply within_run; [apply POST_total | apply POST_within].
Qed.

(** ** The address cache only grows *)

Section AddsFacts.

Import Eff.

Context {A B : Type}.

Variable keys : list string.

Lemma adds_of_keeps (m : M A) : keeps_cache m -> adds_keys keys m.
Proof. intros Hm w r w' E k Hk. by rewrite (Hm _ _ _ E) in Hk. Qed.

Lemma adds_step (w w1 w' : World) :
  (forall k, LOCATION_CACHE w1 !! k <> LOCATION_CACHE w !! k ->
     LOCATION_CACHE w !! k = None /\ In k keys) ->
  (forall k, LOCATION_CACHE w' !! k <> LOCATION_CACHE w1 !! k ->
     LOCATION_CACHE w1 !! k = None /\ In k keys) ->
  forall k, LOCATION_CACHE w' !! k <> LOCATION_CACHE w !! k ->
    LOCATION_CACHE w !! k = None /\ In k keys.
Proof.
  intros H1 H2 k Hk.
  destruct (decide (LOCATION_CACHE w1 !! k = LOCATION_CACHE w !! k)) as [E|E].
  - rewrite <- E in *. by apply H2.
  - by apply H1.
Qed.

Lemma adds_bind (m : M A) (k : A -> M B) :
  adds_keys keys m -> (forall a, adds_keys keys (k a)) -> adds_keys keys (bind m k).
Proof.
  intros Hm Hk w r w'. unfold bind. destruct (m w) as [[a|] w1] eqn:E; intros H.
  - eapply adds_step; [exact (Hm _ _ _ E) | exact (Hk _ _ _ _ H)].
  - injection H as <- <-. exact (Hm _ _ _ E).
Qed.

Lemma adds_try_catch (body handler : M A) :
  adds_keys keys body -> adds_keys keys handler -> adds_keys keys (try_catch body handler).
Proof.
  intros Hb Hh w r w'. unfold try_catch. destruct (body w) as [[a|] w1] eqn:E; intros H.
  - injection H as <- <-. exact (Hb _ _ _ E).
  - eapply adds_step; [exact (Hb _ _ _ E) | exact (Hh _ _ _ H)].
Qed.

Lemma adds_all2 (later : bool) (a : M A) (b : M B) :
  adds_keys keys a -> adds_keys keys b -> adds_keys keys (all2 later a b).
Proof.
  intros Ha Hb w r w' H k Hk.
  destruct (all2_run later a b w) as (ra & w1 & rb & w2 & Ea & Eb & E).
  rewrite E in H. injection H as _ <-. simpl in Hk.
  pose proof (Ha _ _ _ Ea k) as H1. pose proof (Hb _ _ _ Eb k) as H2. simpl in H2.
  destruct (decide (LOCATION_CACHE w1 !! k = LOCATION_CACHE w !! k)) as [E1|E1]; [|auto].
  destruct (decide (LOCATION_CACHE w2 !! k = LOCATION_CACHE w !! k)) as [E2|E2]; [|auto].
  exfalso. apply Hk. unfold merged. destruct later; by apply overlay_unchanged.
Qed.

End AddsFacts.

(** A computation that only adds entries keeps those that were there. *)
Lemma adds_subset {A} (keys : list string) (m : Eff.M A) (w w' : World) r :
  adds_keys keys m -> m w = (r, w') -> LOCATION_CACHE w ⊆ LOCATION_CACHE w'.
Proof.
  intros Hm E. apply map_subseteq_spec. intros k a Hka.
  destruct (decide (LOCATION_CACHE w' !! k = LOCATION_CACHE w !! k)) as [Ek|Ek].
  - by rewrite Ek.
  - destruct (Hm _ _ _ E k Ek) as [Hn _]. congruence.
Qed.

(** An entry one of two computations awaited together leaves in its cache
    is in the merged cache, with some address. *)
Lemma merged_is_Some (later : bool) (w w1 w2 : World) (k : string) :
  LOCATION_CACHE w ⊆ LOCATION_CACHE w1 -> LOCATION_CACHE w ⊆ LOCATION_CACHE w2 ->
  is_Some (LOCATION_CACHE w1 !! k) \/ is_Some (LOCATION_CACHE w2 !! k) ->
  is_Some (merged later w w1 w2 !! k).
Proof.
  intros S1 S2 H. unfold merged.
  assert (forall top bottom : gmap string Address.t,
            LOCATION_CACHE w ⊆ top -> LOCATION_CACHE w ⊆ bottom ->
            is_Some (top !! k) \/ is_Some (bottom !! k) ->
            is_Some (overlay (LOCATION_CACHE w) top bottom !! k)) as Ho.
  { intros top bottom St Sb Hk. rewrite overlay_lookup.
    destruct (top !! k) as [v|] eqn:T.
    - destruct (decide _) as [E|E]; [|done].
      rewrite (lookup_weaken _ _ _ _ E Sb). done.
    - destruct Hk as [[? ?]|Hk]; done. }
  destruct later; apply Ho; tauto.
Qed.

Lemma snapshot_same (w : World) : snapshot w w = w.
Proof. by destruct w. Qed.

Lemma merged_same (later : bool) (w : World) : merged later w w w = LOCATION_CACHE w.
Proof. unfold merged. destruct later; apply overlay_base_top. Qed.

Lemma adds_weaken {A} (keys keys' : list string) (m : Eff.M A) :
  (forall k, In k keys -> In k keys') -> adds_keys keys m -> adds_keys keys' m.
Proof.
  intros Hsub Hm w r w' E k Hk. destruct (Hm _ _ _ E k Hk) as [H1 H2]. auto.
Qed.

(** What one resolution does: a hit returns the cached address and changes
    nothing; a miss either fails, leaving the cache as it is, or adds the
    address it returns under the lower-cased location. *)
Lemma resolveUsAddress_cache (env : Env) (location : string) (w : World) :
  exists r w',
    resolveUsAddress env location w = (Eff.Returned r, w')
    /\ ((exists a, LOCATION_CACHE w !! Str.toLowerCase location = Some a
                   /\ r = Some a /\ w' = w)
        \/ (LOCATION_CACHE w !! Str.toLowerCase location = None
            /\ r = None /\ LOCATION_CACHE w' = LOCATION_CACHE w)
        \/ (LOCATION_CACHE w !! Str.toLowerCase location = None
            /\ exists a, r = Some a
                 /\ LOCATION_CACHE w' = <[Str.toLowerCase location := a]> (LOCATION_CACHE w))).
Proof.
  unfold resolveUsAddress, Eff.bind at 1, Eff.cache_get.
  destruct (LOCATION_CACHE w !! Str.toLowerCase location) as [a|] eqn:Hit.
  { exists (Some a), w. split; [done|]. left. by exists a. }
  assert (forall w1, LOCATION_CACHE w1 = LOCATION_CACHE w ->
    exists r w',
      resolveByGeocoding env (Str.toLowerCase location) location
        (normalizeState (extractStateAbbreviation location)) w1 = (Eff.Returned r, w')
      /\ ((exists a : Address.t, None = Some a /\ r = Some a /\ w' = w)
          \/ (None = @None Address.t /\ r = None /\ LOCATION_CACHE w' = LOCATION_CACHE w)
          \/ (None = @None Address.t
              /\ exists a, r = Some a
                   /\ LOCATION_CACHE w'
                      = <[Str.toLowerCase location := a]> (LOCATION_CACHE w)))) as Hgeo.
  { intros w1 C1.
    destruct (resolveByGeocoding_spec env (Str.toLowerCase location) location
      (normalizeState (extractStateAbbreviation location)) w1) as (r & w' & E & Hr).
    exists r, w'. split; [done|]. right. destruct r as [a|].
    - destruct Hr as (_ & _ & Hm). right. split; [done|]. exists a. by rewrite Hm, C1.
    - left. split; [done|]. split; [done | congruence]. }
  destruct (extractZip location) as [z|]; [|by apply Hgeo].
  destruct (call_frame (lookupZipDetails env z) w) as (dt & w1 & E1 & C1);
    [apply lookupZipDetails_total | apply lookupZipDetails_keeps |].
  rewrite (bind_returned _ _ _ _ _ E1). cbv zeta.
  match goal with
  | |- context [if ?c then _ else _] => destruct c eqn:T
  end.
  - eexists (Some _), _. split; [reflexivity|]. right. right. split; [done|].
    eexists. split; [reflexivity|]. simpl. by rewrite C1.
  - by apply Hgeo.
Qed.

Lemma resolveUsAddress_adds (env : Env) (location : string) :
  adds_keys [Str.toLowerCase location] (resolveUsAddress env location).
Proof.
  intros w r0 w0 E k Hk.
  destruct (resolveUsAddress_cache env location w) as (r & w' & E' & H).
  rewrite E' in E. injection E as <- <-.
  destruct H as [(a & _ & _ & ->)|[(_ & _ & H)|(Hnone & a & _ & H)]];
    [done | by rewrite H in Hk |].
  rewrite H in Hk. destruct (decide (Str.toLowerCase location = k)) as [<-|Hne].
  - split; [done | by left].
  - by rewrite lookup_insert_ne in Hk.
Qed.

(** An address that [resolveUsAddress] returns is in the cache afterwards. *)
Lemma resolveUsAddress_cached (env : Env) (location : string) (w w' : World)
    (a : Address.t) :
  resolveUsAddress env location w = (Eff.Returned (Some a), w') ->
  LOCATION_CACHE w' !! Str.toLowerCase location = Some a.
Proof.
  intros E. destruct (resolveUsAddress_cache env location w) as (r & w1 & E' & H).
  rewrite E' in E. injection E as -> ->.
  destruct H as [(b & Hb & [= ->] & ->)|[(_ & H & _)|(_ & b & [= ->] & H)]]; try done.
  rewrite H. apply lookup_insert_eq.
Qed.

(** With its address in the cache, a location resolves without any call. *)
Lemma resolveUsAddress_hit (env : Env) (location : string) (w : World) (a : Address.t) :
  LOCATION_CACHE w !! Str.toLowerCase location = Some a ->
  resolveUsAddress env location w = (Eff.Returned (Some a), w).
Proof. intros H. unfold resolveUsAddress, Eff.bind, Eff.cache_get. by rewrite H. Qed.

Lemma buildShippoAddress_adds (env : Env) (location country : string) :
  adds_keys [Str.toLowerCase location] (buildShippoAddress env location country).
Proof.
  unfold buildShippoAddress. destruct (negb _).
  - apply adds_of_keeps. pose proof (geocodeCity_keeps env). eff_keeps.
  - apply adds_bind; [apply resolveUsAddress_adds | intros [a|]];
      apply adds_of_keeps, keeps_ret.
Qed.

Lemma getShippoQuotes_adds (env : Env) (p : ParsedRequest) (contact : Contact) :
  adds_keys [Str.toLowerCase (origin p); Str.toLowerCase (destination p)]
    (getShippoQuotes env p contact).
Proof.
  unfold getShippoQuotes. destruct (negb _); [apply adds_of_keeps, keeps_ret|].
  apply adds_try_catch; [|apply adds_of_keeps, keeps_ret].
  apply adds_bind.
  - apply adds_all2; (eapply adds_weaken; [|apply buildShippoAddress_adds]);
      intros k [<-|[]]; simpl; tauto.
  - intros [[o|] [d|]]; apply adds_of_keeps; eff_keeps.
Qed.

Lemma getFreightosQuotes_keeps (env : Env) (p : ParsedRequest) :
  keeps_cache (getFreightosQuotes env p).
Proof. unfold getFreightosQuotes. eff_keeps. Qed.

Lemma saveToDatabase_keeps (env : Env) : keeps_cache (saveToDatabase env).
Proof.
  unfold saveToDatabase. destruct (negb _); [apply keeps_ret|].
  apply keeps_try_catch; [|apply keeps_ret]. by intros w r w' [= <- <-].
Qed.

Lemma quoteParsed_adds (env : Env) (p : ParsedRequest) (contact : Contact) :
  adds_keys [Str.toLowerCase (origin p); Str.toLowerCase (destination p)]
    (quoteParsed env p contact).
Proof.
  pose proof (getShippoQuotes_adds env p contact) as Hs.
  pose proof (adds_of_keeps [Str.toLowerCase (origin p); Str.toLowerCase (destination p)]
                _ (getFreightosQuotes_keeps env p)) as Hf.
  pose proof (adds_of_keeps [Str.toLowerCase (origin p); Str.toLowerCase (destination p)]
                _ (saveToDatabase_keeps env)) as Hd.
  unfold quoteParsed. destruct (missingInfoOf p); [|apply adds_of_keeps, keeps_ret].
  unfold dispatch. apply adds_bind.
  - destruct (chooseRoute p).
    + apply adds_bind; [exact Hf | intros ?; apply adds_of_keeps, keeps_ret].
    + apply adds_bind; [exact Hs | intros ?; apply adds_of_keeps, keeps_ret].
    + apply adds_bind; [by apply adds_all2 | intros ?; apply adds_of_keeps, keeps_ret].
  - intros ?. apply adds_bind; [exact Hd | intros ?; apply adds_of_keeps, keeps_ret].
Qed.

(** X4: a request never changes or removes an address that is in the
    cache: after [POST] the cache holds every entry it held before, and the
    only keys it can have gained are the lower-cased origin and destination
    of the parsed request. *)
Theorem POST_cache_only_grows (env : Env) (body : option Body) (w : World) :
  exists r w',
    POST env body w = (Eff.Returned r, w')
    /\ LOCATION_CACHE w ⊆ LOCATION_CACHE w'
    /\ forall k, LOCATION_CACHE w' !! k <> LOCATION_CACHE w !! k ->
         LOCATION_CACHE w !! k = None
         /\ success r = true
         /\ (k = Str.toLowerCase (origin (parsed r))
             \/ k = Str.toLowerCase (destination (parsed r))).
Proof.
  destruct (POST_total env body w) as (r & w' & E). exists r, w'. split; [done|].
  assert (forall k, LOCATION_CACHE w' !! k <> LOCATION_CACHE w !! k ->
            LOCATION_CACHE w !! k = None
            /\ success r = true
            /\ (k = Str.toLowerCase (origin (parsed r))
                \/ k = Str.toLowerCase (destination (parsed r)))) as H.
  { intros k Hk. destruct body as [b|]; [|injection E as <- <-; done].
    rewrite POST_cases in E.
    destruct (request b) as [[|c t]|]; try (injection E as <- <-; done).
    destruct (quoteParsed_adds env _ _ _ _ _ E k Hk) as [Hn Hin].
    split; [done|]. rewrite quoteParsed_cases in E.
    destruct (missingInfoOf _); [|injection E as <- <-; done].
    destruct (dispatch_returns env (parseNaturalLanguage (String c t))
                (mkContact (body_email b) (body_phone b)) w)
      as (label & s & f & w1 & w2 & E2 & _).
    rewrite E2 in E. injection E as <- <-. simpl.
    split; [done|]. destruct Hin as [<-|[<-|[]]]; tauto. }
  split; [|exact H].
  apply map_subseteq_spec. intros k a Hka.
  destruct (decide (LOCATION_CACHE w' !! k = LOCATION_CACHE w !! k)) as [Ek|Ek].
  - by rewrite Ek.
  - destruct (H k Ek) as [Hn _]. congruence.
Qed.

(** ** The save *)

Lemma saveToDatabase_run (env : Env) (w : World) :
  exists w',
    saveToDatabase env w = (Eff.Returned tt, w')
    /\ LOCATION_CACHE w' = LOCATION_CACHE w
    /\ calls w' = calls w ++ (if present (DATABASE_URL env) then [DatabaseInsert] else []).
Proof.
  unfold saveToDatabase. destruct (present (DATABASE_URL env)); simpl.
  - eexists. split; [reflexivity|]. by split.
  - exists w. split; [reflexivity|]. split; [done|]. by rewrite app_nil_r.
Qed.

(** The provider calls of [dispatch]: none of them is a save. *)
Lemma providers_calls (env : Env) (p : ParsedRequest) (contact : Contact)
    (w w1 : World) (s f : list QuoteResult) :
  match chooseRoute p with
  | FreightosOnly => s = [] /\ getFreightosQuotes env p w = (Eff.Returned f, w1)
  | ShippoOnly => f = [] /\ getShippoQuotes env p contact w = (Eff.Returned s, w1)
  | BothProviders =>
      exists w0 w2,
        getShippoQuotes env p contact w = (Eff.Returned s, w0)
        /\ getFreightosQuotes env p (snapshot w w0) = (Eff.Returned f, w2)
        /\ w1 = mkWorld (merged (second_lands_last env ProviderRace) w w0 w2) (calls w2)
  end ->
  exists cs, calls w1 = calls w ++ cs
             /\ Forall (fun c => parcel_side c || freight_side c = true) cs.
Proof.
  assert (forall w w1 s, getShippoQuotes env p contact w = (Eff.Returned s, w1) ->
            exists cs, calls w1 = calls w ++ cs
                       /\ Forall (fun c => parcel_side c || freight_side c = true) cs) as Hs.
  { intros v v1 s0 E. destruct (getShippoQuotes_emits env p contact _ _ _ E) as (cs & Ec & F).
    exists cs. split; [done|]. eapply Forall_impl; [exact F|].
    intros c Hc. unfold parcelCall in Hc. by rewrite Hc. }
  assert (forall w w1 f, getFreightosQuotes env p w = (Eff.Returned f, w1) ->
            exists cs, calls w1 = calls w ++ cs
                       /\ Forall (fun c => parcel_side c || freight_side c = true) cs) as Hf.
  { intros v v1 f0 E. destruct (getFreightosQuotes_emits env p _ _ _ E) as (cs & Ec & F).
    exists cs. split; [done|]. eapply Forall_impl; [exact F|]. by intros c ->. }
  destruct (chooseRoute p).
  - intros [_ E]. by eapply Hf.
  - intros [_ E]. by eapply Hs.
  - intros (w0 & w2 & E1 & E2 & ->).
    destruct (Hs _ _ _ E1) as (c1 & Ec1 & F1). destruct (Hf _ _ _ E2) as (c2 & Ec2 & F2).
    exists (c1 ++ c2). simpl in *.
    split; [by rewrite Ec2, Ec1, app_assoc | by apply Forall_app].
Qed.

(** X5: a request is saved exactly when it is answered with success and a
    database is configured: then the save is one call, made after every
    provider call; an error or an incomplete request is never saved. *)
Theorem POST_saves_successes_once (env : Env) (body : option Body) (w : World) :
  exists r w' cs,
    POST env body w = (Eff.Returned r, w')
    /\ calls w' = calls w ++ cs
         ++ (if success r && present (DATABASE_URL env) then [DatabaseInsert] else [])
    /\ ~ In DatabaseInsert cs.
Proof.
  assert (forall r, success r = false ->
            exists r' w' cs,
              (Eff.Returned r, w) = (Eff.Returned r', w')
              /\ calls w' = calls w ++ cs
                   ++ (if success r' && present (DATABASE_URL env)
                       then [DatabaseInsert] else [])
              /\ ~ In DatabaseInsert cs) as Hfail.
  { intros r Hr. exists r, w, []. rewrite Hr. simpl. rewrite app_nil_r.
    split; [done|]. split; [done|]. by intros []. }
  destruct body as [b|]; [|by apply Hfail].
  rewrite POST_cases. destruct (request b) as [[|c t]|]; try by apply Hfail.
  rewrite quoteParsed_cases. destruct (missingInfoOf _); [|by apply Hfail].
  destruct (dispatch_returns env (parseNaturalLanguage (String c t))
              (mkContact (body_email b) (body_phone b)) w)
    as (label & s & f & w1 & w' & E & _ & Hp & Hs).
  apply providers_calls in Hp as (cs & Ec & F).
  destruct (saveToDatabase_run env w1) as (w2 & Es & _ & Ec2).
  rewrite Es in Hs. injection Hs as <-.
  eexists _, w2, cs. split; [exact E|]. simpl.
  split; [by rewrite Ec2, Ec, app_assoc|].
  intros Hin. rewrite Forall_forall in F. apply list_elem_of_In in Hin.
  by specialize (F _ Hin).
Qed.

(** ** The freight provider's quotes *)

Lemma getFreightosQuotes_run (env : Env) (p : ParsedRequest) (w : World) :
  exists w',
    getFreightosQuotes env p w =
      (Eff.Returned
         match freightos_calculator env p with
         | Response _ (Some data) => normalizeFreightos p data
         | _ => []
         end, w')
    /\ calls w' = calls w ++ [FreightosEstimate]
    /\ LOCATION_CACHE w' = LOCATION_CACHE w.
Proof.
  unfold getFreightosQuotes, Eff.try_catch, Eff.bind, Eff.fetch, Eff.log, Eff.bind,
    Eff.json, Eff.ret, Eff.throw.
  destruct (freightos_calculator env p) as [|ok [data|]]; simpl; by eexists.
Qed.

Lemma buildCheapest_length (l : list FreightosEstimateMode) (label fallback : string) :
  List.length (buildCheapest l label fallback) <= 1.
Proof.
  unfold buildCheapest. destruct l as [|m l]; [simpl; lia|].
  cbv zeta. destruct (negb _); simpl; lia.
Qed.

Lemma cheapestQuote_length (l : list FreightosRate) (service mode_ : string) :
  List.length (cheapestQuote l service mode_) <= 1.
Proof. destruct l; simpl; lia. Qed.

Lemma estimateQuotes_length (p : ParsedRequest) (data : FreightosData) :
  List.length (estimateQuotes p data) <= 2.
Proof.
  unfold estimateQuotes. destruct (fd_estimated_mode data) as [m|]; [|simpl; lia].
  cbv zeta. rewrite length_app.
  destruct (allowAir p); simpl List.length;
    repeat match goal with
    | |- context [List.length (buildCheapest ?l ?a ?b)] =>
        pose proof (buildCheapest_length l a b);
        generalize dependent (List.length (buildCheapest l a b)); intros
    end; lia.
Qed.

Lemma rateQuotes_length (rates : list FreightosRate) : List.length (rateQuotes rates) <= 2.
Proof.
  unfold rateQuotes. rewrite length_app.
  pose proof (cheapestQuote_length (airRates rates) "Air Freight (Cheapest)" "Air").
  pose proof (cheapestQuote_length (oceanRates rates) "Ocean Freight (Cheapest)" "Ocean/LCL").
  lia.
Qed.

Lemma heuristicQuotes_length (p : ParsedRequest) :
  1 <= List.length (heuristicQuotes p) <= 2.
Proof. unfold heuristicQuotes. rewrite length_app. destruct (allowAir p); simpl; lia. Qed.

Lemma normalizeFreightos_length (p : ParsedRequest) (data : FreightosData) :
  1 <= List.length (normalizeFreightos p data) <= 5.
Proof.
  rewrite normalizeFreightos_cases.
  pose proof (estimateQuotes_length p data) as H1.
  pose proof (heuristicQuotes_length p) as H3.
  destruct (rateList data) as [rates|].
  - pose proof (rateQuotes_length rates) as H2.
    destruct (estimateQuotes p data ++ rateQuotes rates) as [|q qs] eqn:E.
    + destruct rates as [|r rs]; [lia|].
      rewrite length_map. pose proof (firstn_le_length 5 (r :: rs)).
      destruct rs as [|? [|? [|? [|? ?]]]]; simpl; lia.
    + rewrite <- E, length_app. split; [|lia].
      apply (f_equal (@List.length _)) in E. rewrite length_app in E. simpl in E. lia.
  - rewrite app_nil_r. destruct (estimateQuotes p data) as [|q qs] eqn:E; [lia|].
    simpl in *. lia.
Qed.

(** X6: the freight path makes exactly one call and leaves the address
    cache alone; it returns at most five quotes; and it returns none
    exactly when the call failed (a network error or a body that does not
    parse): any answer that parses, to a body of the declared response type,
    gets at least one quote, if need be the static estimate. *)
Theorem getFreightosQuotes_empty_iff_failed (env : Env) (p : ParsedRequest) (w : World) :
  exists qs w',
    getFreightosQuotes env p w = (Eff.Returned qs, w')
    /\ calls w' = calls w ++ [FreightosEstimate]
    /\ LOCATION_CACHE w' = LOCATION_CACHE w
    /\ List.length qs <= 5
    /\ (qs = [] <-> freightosFails env p).
Proof.
  destruct (getFreightosQuotes_run env p w) as (w' & E & Ec & Ek).
  eexists _, w'. split; [exact E|]. split; [done|]. split; [done|].
  unfold freightosFails.
  destruct (freightos_calculator env p) as [|ok [data|]].
  - split; [simpl; lia|]. split; [by left | done].
  - pose proof (normalizeFreightos_length p data) as L. split; [lia|]. split.
    + intros H. rewrite H in L. simpl in L. lia.
    + intros [H|(ok' & H)]; discriminate.
  - split; [simpl; lia|]. split; [right; by exists ok | done].
Qed.

Lemma or_text_nonempty (a : option string) (t : string) : t <> ""%string -> or_text a t <> ""%string.
Proof.
  intros Ht. unfold or_text. destruct a as [x|]; [|done].
  destruct x; simpl; [done | discriminate].
Qed.

Lemma str_app_nonempty_r (a b : string) : b <> ""%string -> (a ++ b)%string <> ""%string.
Proof. intros Hb. destruct a; [done | by rewrite str_app_cons]. Qed.

(** X7: every quote of the freight path, from whichever tier it comes, is
    labelled with the provider "Freightos" and has a service name, a
    currency and a mode that are not empty: a missing name, currency or mode
    in the provider's answer is replaced by "Freight", "USD" and "Freight". *)
Theorem freightos_quotes_are_labelled (p : ParsedRequest) (data : FreightosData) :
  Forall (fun q => provider q = "Freightos"%string
                   /\ service q <> ""%string
                   /\ currency q <> ""%string
                   /\ exists m, mode q = Some m /\ m <> ""%string)
    (normalizeFreightos p data).
Proof.
  set (P := fun q => provider q = "Freightos"%string
                     /\ service q <> ""%string
                     /\ currency q <> ""%string
                     /\ exists m, mode q = Some m /\ m <> ""%string).
  assert (forall l label fb, fb <> ""%string -> Forall P (buildCheapest l label fb)) as Hb.
  { intros l label fb Hfb. unfold buildCheapest. destruct l as [|m l]; [constructor|].
    cbv zeta. destruct (negb _); constructor; [|constructor].
    repeat split; simpl; try done.
    - by apply str_app_nonempty_r.
    - by apply or_text_nonempty.
    - by exists fb. }
  assert (forall l service_ mode_, service_ <> ""%string -> mode_ <> ""%string ->
            Forall P (cheapestQuote l service_ mode_)) as Hc.
  { intros l sv md Hsv Hmd. destruct l as [|r l]; constructor; [|constructor].
    repeat split; simpl; try done.
    - by apply or_text_nonempty.
    - by exists md. }
  assert (Forall P (estimateQuotes p data)) as H1.
  { unfold estimateQuotes. destruct (fd_estimated_mode data) as [m|]; [|constructor].
    cbv zeta. apply Forall_app. split.
    - destruct (allowAir p); [by apply Hb | constructor].
    - apply Hb. by destruct (_ && _). }
  assert (forall rates, Forall P (rateQuotes rates)) as H2.
  { intros rates. apply Forall_app. split; by apply Hc. }
  assert (forall rates, Forall P (List.map verbatimQuote rates)) as H3.
  { intros rates. apply Forall_forall. intros q Hq. apply list_elem_of_In in Hq.
    apply in_map_iff in Hq as (r & <- & _).
    repeat split; simpl; try done; try by apply or_text_nonempty.
    eexists. split; [reflexivity|]. by apply or_text_nonempty. }
  assert (Forall P (heuristicQuotes p)) as H4.
  { unfold heuristicQuotes. apply Forall_app. split.
    - destruct (allowAir p); [|constructor]. constructor; [|constructor].
      repeat split; simpl; try done. by eexists.
    - constructor; [|constructor].
      repeat split; simpl; try done; destruct (_ && _); try done; by eexists. }
  rewrite normalizeFreightos_cases.
  destruct (rateList data) as [rates|].
  - destruct (estimateQuotes p data ++ rateQuotes rates) as [|q qs] eqn:E.
    + destruct rates; [exact H4 | apply H3].
    + rewrite <- E. apply Forall_app. by split.
  - rewrite app_nil_r. by destruct (estimateQuotes p data).
Qed.

Lemma buildCheapest_mode (l : list FreightosEstimateMode) (label fb : string) :
  Forall (fun q => mode q = Some fb) (buildCheapest l label fb).
Proof.
  unfold buildCheapest. destruct l as [|m l]; [constructor|].
  cbv zeta. destruct (negb _); constructor; [done | constructor].
Qed.

(** X8: a shipment that is domestic and freight-class gets no air quote
    from the structured estimates nor from the static estimate; the flat
    rate list is not filtered in this way: an air-tagged flat rate always
    yields the quote "Air Freight (Cheapest)" of mode "Air", whatever the
    shipment. *)
Theorem air_quotes_of_domestic_freight (p : ParsedRequest) (data : FreightosData) :
  (isDomestic p && isFreight p = true ->
   Forall (fun q => mode q <> Some "Air"%string) (estimateQuotes p data ++ heuristicQuotes p))
  /\ (forall rates, rateList data = Some rates -> airRates rates <> [] ->
      Exists (fun q => mode q = Some "Air"%string
                       /\ service q = "Air Freight (Cheapest)"%string)
        (normalizeFreightos p data)).
Proof.
  split.
  - intros Hd. apply Forall_app. split.
    + unfold estimateQuotes. destruct (fd_estimated_mode data) as [m|]; [|constructor].
      cbv zeta. unfold allowAir. rewrite Hd. simpl.
      eapply Forall_impl; [apply buildCheapest_mode|]. by intros q ->.
    + unfold heuristicQuotes, allowAir. rewrite Hd. simpl.
      constructor; [done | constructor].
  - intros rates Hr Ha. rewrite normalizeFreightos_cases, Hr.
    assert (Exists (fun q => mode q = Some "Air"%string
                            /\ service q = "Air Freight (Cheapest)"%string)
              (estimateQuotes p data ++ rateQuotes rates)) as H.
    { apply Exists_app. right. unfold rateQuotes. apply Exists_app. left.
      destruct (airRates rates) as [|r rs]; [done|]. by constructor. }
    destruct (estimateQuotes p data ++ rateQuotes rates); [by inversion H | exact H].
Qed.

(** A domestic pallet: the premise of X8 holds for it. *)
Lemma air_quotes_of_domestic_freight_witness :
  isDomestic (parseNaturalLanguage "pallet 48x40x40 500lb from Miami to Dallas")
    && isFreight (parseNaturalLanguage "pallet 48x40x40 500lb from Miami to Dallas") = true
  /\ Forall (fun q => mode q <> Some "Air"%string)
       (estimateQuotes (parseNaturalLanguage "pallet 48x40x40 500lb from Miami to Dallas")
          bothTiers
        ++ heuristicQuotes (parseNaturalLanguage "pallet 48x40x40 500lb from Miami to Dallas")).
Proof.
  split; [by vm_compute|].
  apply (proj1 (air_quotes_of_domestic_freight
                  (parseNaturalLanguage "pallet 48x40x40 500lb from Miami to Dallas")
                  bothTiers)).
  by vm_compute.
Defined.

(** ** The small-parcel provider's quotes *)

Lemma insertByPrice_perm (q : QuoteResult) (l : list QuoteResult) :
  Permutation (insertByPrice q l) (q :: l).
Proof.
  induction l as [|q' l IH]; simpl; [done|].
  destruct (Num.ltb _ _); [done|]. rewrite IH. apply perm_swap.
Qed.

Lemma sortByPrice_perm (l : list QuoteResult) : Permutation (sortByPrice l) l.
Proof.
  unfold sortByPrice.
  assert (forall acc, Permutation (fold_left (fun sorted q => insertByPrice q sorted) l acc)
                        (acc ++ l)) as H.
  { induction l as [|q l IH]; intros acc; simpl; [by rewrite app_nil_r|].
    rewrite IH, insertByPrice_perm. simpl. apply Permutation_middle. }
  exact (H []).
Qed.

Lemma buildShippoAddress_country (env : Env) (location country : string) (w w' : World)
    (a : ShippoAddress) :
  buildShippoAddress env location country w = (Eff.Returned (Some a), w') ->
  sa_country a = country.
Proof.
  unfold buildShippoAddress. destruct (String.eqb_spec country "US") as [->|Hc]; simpl.
  - unfold Eff.bind. destruct (resolveUsAddress env location w) as [[[r|]|] w1];
      unfold Eff.ret; by intros [= <- _].
  - unfold Eff.bind. destruct (geocodeCity env location w) as [[g|] w1];
      unfold Eff.ret; by intros [= <- _].
Qed.

(** X9: whatever the small-parcel path returns is a reordering of the
    rates the provider sent for one shipment, each rate turned into a quote
    field by field: no rate is dropped, added or repeated.  The shipment
    carries the parcels of the request, addresses in the countries of the
    parsed origin and destination, and the contact details of the request or
    else the default ones.  The [ok] flag of the provider's answer is not
    looked at. *)
Theorem getShippoQuotes_reorders_rates
    (env : Env) (p : ParsedRequest) (contact : Contact) (w : World) :
  exists qs w',
    getShippoQuotes env p contact w = (Eff.Returned qs, w')
    /\ (qs = []
        \/ exists shipment ok rates,
             shippo_shipments env shipment = Response ok (Some (mkShippoData (Some rates)))
             /\ Permutation qs (List.map shippoQuote rates)
             /\ shipment_parcels shipment = parcels p
             /\ sa_country (address_from shipment) = originCountry p
             /\ sa_country (address_to shipment) = destCountry p
             /\ contact_email shipment = or_text (email contact) DEFAULT_CONTACT_EMAIL
             /\ contact_phone shipment = or_text (phone contact) DEFAULT_CONTACT_PHONE).
Proof.
  destruct (present (SHIPPO_API_KEY env)) eqn:K.
  2: { rewrite (getShippoQuotes_no_key env p contact w K). eexists _, _. split; [done | by left]. }
  destruct (getShippoQuotes_run env p contact w K) as (ro & w1 & rd & w2 & Ea & Eb & E).
  rewrite E. eexists _, _. split; [reflexivity|].
  destruct ro as [a|], rd as [b|]; try by left.
  unfold shippoAnswer.
  destruct (shippo_shipments env (shipmentOf p contact a b)) as [|ok [[[rates|]]|]] eqn:Es;
    try by left.
  right. exists (shipmentOf p contact a b), ok, rates.
  split; [done|]. split; [apply sortByPrice_perm|]. simpl.
  rewrite (buildShippoAddress_country _ _ _ _ _ _ Ea),
    (buildShippoAddress_country _ _ _ _ _ _ Eb). done.
Qed.

(** ** The parser and the router together *)

(** X10: for the parse of any text, the route is the freight provider alone
    exactly when the text has a pallet key word: the second way into that
    route, an international request that does not need both quotes, cannot
    occur, since an international request without a pallet key word always
    needs both quotes.  So an international request without a pallet key
    word is always sent to both providers, and a request sent to the
    small-parcel provider alone has one parcel and an origin and a
    destination in the same country. *)
Theorem freightos_only_iff_pallet (input : string) :
  let p := parseNaturalLanguage input in
  (chooseRoute p = FreightosOnly <-> isPallet p = true)
  /\ (isInternational p && negb (needsBothQuotes p) = true -> isPallet p = true)
  /\ (isInternational p = true -> isPallet p = false -> chooseRoute p = BothProviders)
  /\ (chooseRoute p = ShippoOnly ->
      originCountry p = destCountry p /\ exists q, parcels p = [q]).
Proof.
  unfold parseNaturalLanguage, chooseRoute, singleLightParcel.
  destruct (extractRoute (Str.stripDiacritics input)) as [o dst]. cbv zeta. simpl.
  set (intl := negb (detectCountry o =? detectCountry dst)%string || _).
  set (pal := Re.test Pattern.palletPattern _).
  set (many := (1 <? _)%nat). set (heavy := Num.gtb _ _). set (bulky := Num.gtb _ _).
  assert (intl = false -> detectCountry o = detectCountry dst) as Hc.
  { subst intl. intros H. apply orb_false_elim in H as [H _].
    apply negb_false_iff in H. by apply String.eqb_eq. }
  set (ps := extractParcels _).
  set (light := match ps with [p] => Num.ltb (Parcel.weight p) (Num.of_Z 70) | _ => false end).
  assert (light = true -> exists q, ps = [q]) as Hl.
  { subst light. destruct ps as [|q [|q' l]]; try done. by exists q. }
  split; [|split; [|split]].
  - destruct pal, intl, many, heavy, bulky, light; simpl; split; done.
  - destruct pal, intl, many, heavy, bulky; simpl; done.
  - intros -> ->. simpl. by destruct many, heavy, bulky.
  - destruct pal, intl, many, heavy, bulky, light eqn:L; simpl; try done;
      intros _; (split; [by apply Hc | by apply Hl]).
Qed.

(** ** Addresses outside the United States *)

Lemma geocodeCity_run (env : Env) (location : string) (w : World) :
  exists g w',
    geocodeCity env location w = (Eff.Returned g, w')
    /\ LOCATION_CACHE w' = LOCATION_CACHE w
    /\ calls w' = calls w ++ [Geocode (location ++ ", USA")%string]
    /\ (match nominatim_search env (location ++ ", USA")%string with
        | Response true (Some (first :: _)) => geo_address first = None
        | _ => True
        end -> g = None).
Proof.
  unfold geocodeCity, Eff.try_catch, Eff.bind, Eff.fetch, Eff.log, Eff.bind, Eff.json,
    Eff.ret, Eff.throw. cbv zeta.
  destruct (nominatim_search env (location ++ ", USA")%string)
    as [|[] [[|first results]|]]; simpl; try by eexists _, _.
  destruct (geo_address first) as [address|]; simpl; by eexists _, _.
Qed.

(** X11: for a location of Latin-1 characters (the texts of this
    development, which have no lone surrogate) and a country other than the
    United States, [buildShippoAddress] always gives an address, in that
    country; it asks the geocoder once, for the location followed by
    ", USA", and neither reads nor writes the address cache; when the
    geocoder gives nothing, the address is the first comma-separated part of
    the location in title case, with an empty state and an empty postal
    code. *)
Theorem buildShippoAddress_foreign
    (env : Env) (location country : string) (w : World) :
  country <> "US"%string ->
  exists a w',
    buildShippoAddress env location country w = (Eff.Returned (Some a), w')
    /\ sa_country a = country
    /\ LOCATION_CACHE w' = LOCATION_CACHE w
    /\ calls w' = calls w ++ [Geocode (location ++ ", USA")%string]
    /\ (match nominatim_search env (location ++ ", USA")%string with
        | Response true (Some (first :: _)) => geo_address first = None
        | _ => True
        end ->
        a = mkShippoAddress (cityFromText location) (StateText "") "" country).
Proof.
  intros Hc. unfold buildShippoAddress.
  destruct (String.eqb_spec country "US") as [->|_]; [done|]. simpl.
  destruct (geocodeCity_run env location w) as (g & w' & E & Ek & Ec & Hg).
  rewrite (bind_returned _ _ _ _ _ E). eexists _, w'. split; [reflexivity|].
  repeat split; try done. intros H. by rewrite (Hg H).
Qed.

(** X11 at "Shanghai" in China with nothing reachable. *)
Lemma buildShippoAddress_foreign_witness :
  "CN"%string <> "US"%string
  /\ buildShippoAddress offline "Shanghai" "CN" emptyWorld
     = (Eff.Returned (Some (mkShippoAddress "Shanghai" (StateText "") "" "CN")),
        mkWorld ∅ [Geocode "Shanghai, USA"]).
Proof.
  split; [discriminate|].
  destruct (buildShippoAddress_foreign offline "Shanghai" "CN" emptyWorld)
    as (a & [c l] & E & _ & Ek & Ec & Ha); [discriminate|].
  simpl in Ek, Ec, Ha. rewrite E, Ek, Ec, (Ha I). reflexivity.
Defined.

(** ** Where a match lies in the input *)

Module ReWhere.
Import Re ReSpec.

(** A successful search starts its match at a position of the text. *)
Lemma search_at (r : regex) (s : string) :
  forall i p a st,
    search r i p s = Some (a, st) ->
    exists pre p' s0,
      s = (pre ++ s0)%string /\ a = i + String.length pre
      /\ matches r (MState a p' s0 []) st.
Proof.
  induction s as [|c s IH]; intros i p a st H; simpl in H.
  - destruct (run r Some (MState i p "" [])) eqn:E; [|done].
    injection H as <- <-. apply ReFacts.run_sound in E as (st' & M & [= <-]).
    exists ""%string, p, ""%string. simpl. split; [done|]. split; [lia | done].
  - destruct (run r Some (MState i p (String c s) [])) eqn:E.
    + injection H as <- <-. apply ReFacts.run_sound in E as (st' & M & [= <-]).
      exists ""%string, p, (String c s). simpl. split; [done|]. split; [lia | done].
    + apply IH in H as (pre & p' & s0 & -> & -> & M).
      exists (String c pre), p', s0. simpl. split; [done|]. split; [lia | done].
Qed.

Lemma substring_prefix (u post : string) :
  String.substring 0 (String.length u) (u ++ post) = u.
Proof.
  induction u as [|x u IH].
  - change ("" ++ post)%string with post. by destruct post.
  - rewrite str_app_cons. simpl. by rewrite IH.
Qed.

Lemma substring_middle (pre u post : string) :
  String.substring (String.length pre) (String.length u) (pre ++ u ++ post) = u.
Proof.
  induction pre as [|c pre IH].
  - change ("" ++ (u ++ post))%string with (u ++ post)%string. apply substring_prefix.
  - rewrite str_app_cons. exact IH.
Qed.

(** The text of a match: the input is the text before it, the match and the
    text after it. *)
Lemma exec_whole (r : regex) (input : string) (m : rmatch) :
  exec r input = Some m ->
  exists pre p',
    input = (pre ++ whole m ++ rest (m_end m))%string
    /\ matches r (MState (String.length pre) p' (whole m ++ rest (m_end m))%string [])
         (m_end m).
Proof.
  unfold exec. destruct (search r 0 None input) as [[a st]|] eqn:E; [|done].
  intros [= <-]. apply search_at in E as (pre & p' & s0 & -> & -> & M).
  destruct (ReFacts.matches_consumes _ _ _ M) as (u & Eu & Iu). simpl in Eu, Iu.
  unfold whole. simpl. subst s0.
  replace (idx st - String.length pre) with (String.length u) by lia.
  rewrite substring_middle. by exists pre, p'.
Qed.

Lemma str_app_inv_tail (a b c : string) : (a ++ c)%string = (b ++ c)%string -> a = b.
Proof.
  revert b. induction a as [|x a IH]; intros [|y b] H.
  - done.
  - apply (f_equal String.length) in H. rewrite str_app_length in H.
    simpl in H. rewrite str_app_length in H. lia.
  - apply (f_equal String.length) in H. rewrite !str_app_length in H.
    simpl in H. lia.
  - rewrite !str_app_cons in H. injection H as -> H. by rewrite (IH b H).
Qed.

(** A text without a character of a class has no match of an expression
    whose matches all start with a character of that class. *)
Lemma search_none_of (r : regex) (cls : ascii -> bool) :
  (forall st st', matches r st st' -> exists c t, rest st = String c t /\ cls c = true) ->
  forall s i p, none_of cls s = true -> search r i p s = None.
Proof.
  intros Hr s i p Hs. destruct (search r i p s) as [[a st]|] eqn:E; [|done].
  apply search_at in E as (pre & p' & s0 & -> & _ & M).
  apply Hr in M as (c & t & Hc & Hcls). simpl in Hc. subst s0.
  clear -Hs Hcls. induction pre as [|x pre IH]; simpl in Hs.
  - rewrite Hcls in Hs. done.
  - apply andb_prop in Hs as [_ Hs]. auto.
Qed.

Lemma matchAll_none (r : regex) (input : string) :
  search r 0 None input = None -> matchAll r input = [].
Proof. unfold matchAll. simpl. by intros ->. Qed.

End ReWhere.

(** ** Texts without digits *)

Section FirstCharacter.

Import Re ReSpec.

Lemma seq_first (r1 r2 : regex) (P : string -> Prop) :
  (forall st st', matches r1 st st' -> P (rest st)) ->
  forall st st', matches (Seq r1 r2) st st' -> P (rest st).
Proof.
  intros H st st' M.
  inversion M as [| |ra rb s0 s1 s2 M1 M2| | | | | | | | | |]; subst. eauto.
Qed.

Lemma num_first (i : nat) (st st' : mstate) :
  matches (Pattern.num i) st st' ->
  exists c t, rest st = String c t /\ Chars.is_digit c = true.
Proof.
  intros M. unfold Pattern.num, plus in M.
  inversion M as [| | | | | | | | |j r0 t0 t1 M1| | |]; subst.
  inversion M1 as [| |ra rb u0 u1 u2 Ma Mb| | | | | | | | | |]; subst.
  inversion Ma as [| |rc rd v0 v1 v2 Mc Md| | | | | | | | | |]; subst.
  inversion Mc as [|p x0 c s' Ec Hc| | | | | | | | | | |]; subst.
  by exists c, s'.
Qed.

Lemma dimOnly_first (st st' : mstate) :
  matches Pattern.dimOnlyPattern st st' ->
  exists c t, rest st = String c t /\ Chars.is_digit c = true.
Proof.
  apply (seq_first _ _ (fun s => exists c t, s = String c t /\ Chars.is_digit c = true)).
  apply num_first.
Qed.

Lemma box_first (st st' : mstate) :
  matches Pattern.boxPattern st st' ->
  exists c t, rest st = String c t /\ Chars.is_digit c = true.
Proof.
  apply (seq_first _ _ (fun s => exists c t, s = String c t /\ Chars.is_digit c = true)).
  apply dimOnly_first.
Qed.

End FirstCharacter.

Lemma extractParcels_no_digits (s : string) :
  none_of Chars.is_digit s = true -> extractParcels s = [].
Proof.
  intros Hs. unfold extractParcels, collectMatches.
  rewrite (ReWhere.matchAll_none Pattern.boxPattern),
    (ReWhere.matchAll_none Pattern.dimOnlyPattern); [done | |].
  - by apply (ReWhere.search_none_of _ Chars.is_digit dimOnly_first).
  - by apply (ReWhere.search_none_of _ Chars.is_digit box_first).
Qed.

Lemma strip_mark_digit (c : ascii) : Chars.is_digit (Chars.strip_mark c) = Chars.is_digit c.
Proof. destruct c as [[] [] [] [] [] [] [] []]; by vm_compute. Qed.

Lemma none_of_map (cls : ascii -> bool) (f : ascii -> ascii) (s : string) :
  (forall c, cls (f c) = cls c) -> none_of cls (Str.map f s) = none_of cls s.
Proof. intros H. induction s as [|c s IH]; simpl; [done | by rewrite H, IH]. Qed.

Lemma parcels_of_parse (input : string) :
  parcels (parseNaturalLanguage input) = extractParcels (Str.stripDiacritics input).
Proof.
  unfold parseNaturalLanguage. by destruct (extractRoute (Str.stripDiacritics input)).
Qed.

(** X12: a text without a digit has no parcel: its parse has an empty
    parcel list, validation reports "dimensions" as missing, and the handler
    answers such a request with the incomplete response without calling
    anything. *)
Theorem text_without_digits_has_no_parcels (input : string) :
  none_of Chars.is_digit input = true ->
  parcels (parseNaturalLanguage input) = []
  /\ In "dimensions"%string (missingInfoOf (parseNaturalLanguage input))
  /\ forall env b w,
       request b = Some input -> input <> ""%string ->
       exists r missing,
         POST env (Some b) w = (Eff.Returned r, w)
         /\ success r = false /\ routing r = "incomplete"%string /\ quotes r = []
         /\ missingInfo r = Some missing /\ In "dimensions"%string missing.
Proof.
  intros Hd.
  assert (parcels (parseNaturalLanguage input) = []) as Hp.
  { rewrite parcels_of_parse. apply extractParcels_no_digits.
    unfold Str.stripDiacritics. rewrite none_of_map; [done | apply strip_mark_digit]. }
  assert (In "dimensions"%string (missingInfoOf (parseNaturalLanguage input))) as Hm.
  { unfold missingInfoOf. rewrite Hp. by left. }
  split; [done|]. split; [done|].
  intros env b w Hb Hne. rewrite POST_cases, Hb.
  destruct input as [|c t]; [done|]. rewrite quoteParsed_cases.
  destruct (missingInfoOf (parseNaturalLanguage (String c t))) as [|item missing] eqn:E;
    [done|].
  eexists _, (item :: missing). split; [reflexivity|]. by repeat split.
Qed.

(** X12 at the text "hello". *)
Lemma text_without_digits_witness :
  none_of Chars.is_digit "hello" = true
  /\ parcels (parseNaturalLanguage "hello") = []
  /\ In "dimensions"%string (missingInfoOf (parseNaturalLanguage "hello")).
Proof.
  split; [reflexivity|].
  destruct (text_without_digits_has_no_parcels "hello") as (H1 & H2 & _);
    [reflexivity | by split].
Defined.

(** ** ZIP codes *)

Section ZipFacts.

Import Re ReSpec.

Lemma seq_assoc (a b r : regex) (st st' : mstate) :
  matches (Seq (Seq a b) r) st st' -> matches (Seq a (Seq b r)) st st'.
Proof.
  intros M.
  inversion M as [| |ra rb u0 u1 u2 Mab Mr| | | | | | | | | |]; subst.
  inversion Mab as [| |rc rd v0 v1 v2 Ma Mb| | | | | | | | | |]; subst.
  eapply M_Seq; [exact Ma|]. by eapply M_Seq.
Qed.

Lemma chr_then (p : ascii -> bool) (r : regex) (st st' : mstate) :
  matches (Seq (Chr p) r) st st' ->
  exists c s',
    rest st = String c s' /\ p c = true
    /\ matches r (MState (S (idx st)) (Some c) s' (caps st)) st'.
Proof.
  intros M.
  inversion M as [| |ra rb u0 u1 u2 Mc Mr| | | | | | | | | |]; subst.
  inversion Mc as [|q x0 c s' Ec Hc| | | | | | | | | | |]; subst.
  by exists c, s'.
Qed.

(** Five digits and what follows them. *)
Lemma five_digits_then (r : regex) (st st' : mstate) :
  matches (Seq (times 5 d) r) st st' ->
  exists c1 c2 c3 c4 c5 u,
    rest st = String c1 (String c2 (String c3 (String c4 (String c5 (u ++ rest st')))))
    /\ Chars.is_digit c1 = true /\ Chars.is_digit c2 = true /\ Chars.is_digit c3 = true
    /\ Chars.is_digit c4 = true /\ Chars.is_digit c5 = true.
Proof.
  intros M. cbv [times d] in M.
  apply seq_assoc, chr_then in M as (c1 & s1 & E1 & H1 & M).
  apply seq_assoc, chr_then in M as (c2 & s2 & E2 & H2 & M).
  apply seq_assoc, chr_then in M as (c3 & s3 & E3 & H3 & M).
  apply seq_assoc, chr_then in M as (c4 & s4 & E4 & H4 & M).
  apply chr_then in M as (c5 & s5 & E5 & H5 & M).
  destruct (ReFacts.matches_consumes _ _ _ M) as (u & Eu & _).
  simpl in *. subst. rewrite E1. by exists c1, c2, c3, c4, c5, u.
Qed.

Lemma zip_match (st st' : mstate) :
  matches Pattern.zipPattern st st' ->
  exists c1 c2 c3 c4 c5 u,
    rest st = String c1 (String c2 (String c3 (String c4 (String c5 (u ++ rest st')))))
    /\ Chars.is_digit c1 = true /\ Chars.is_digit c2 = true /\ Chars.is_digit c3 = true
    /\ Chars.is_digit c4 = true /\ Chars.is_digit c5 = true.
Proof.
  intros M. cbv [Pattern.zipPattern seqs] in M.
  inversion M as [| |ra rb u0 u1 u2 Mb Mr| | | | | | | | | |]; subst.
  inversion Mb; subst. by apply five_digits_then in Mr.
Qed.

End ZipFacts.

(** X13: the ZIP code [extractZip] finds in a location is a text of five
    digits that occurs in the location; a location without a digit has
    none. *)
Theorem extractZip_five_digits (location : string) :
  match extractZip location with
  | Some z =>
      String.length z = 5 /\ all_digits z = true
      /\ exists before after, location = (before ++ z ++ after)%string
  | None => True
  end
  /\ (none_of Chars.is_digit location = true -> extractZip location = None).
Proof.
  unfold extractZip. split.
  - destruct (Re.exec Pattern.zipPattern location) as [m|] eqn:E; [|done].
    apply ReWhere.exec_whole in E as (pre & p' & Hin & M).
    apply zip_match in M as (c1 & c2 & c3 & c4 & c5 & u & Hr & H1 & H2 & H3 & H4 & H5).
    simpl in Hr.
    change (String c1 (String c2 (String c3 (String c4 (String c5
              (u ++ Re.rest (Re.m_end m)))))))%string
      with (String c1 (String c2 (String c3 (String c4 (String c5 u))))
            ++ Re.rest (Re.m_end m))%string in Hr.
    apply ReWhere.str_app_inv_tail in Hr. rewrite Hr in *.
    assert (Str.slice 0 5 (String c1 (String c2 (String c3 (String c4 (String c5 u)))))
            = String c1 (String c2 (String c3 (String c4 (String c5 ""))))) as ->.
    { unfold Str.slice. simpl. by destruct u. }
    split; [done|]. split; [simpl; by rewrite H1, H2, H3, H4, H5|].
    exists pre, (u ++ Re.rest (Re.m_end m))%string. rewrite Hin.
    change (String c1 (String c2 (String c3 (String c4 (String c5 u)))))
      with (String c1 (String c2 (String c3 (String c4 (String c5 ""))))
            ++ u)%string.
    by rewrite !str_app_assoc.
  - intros Hd. unfold Re.exec.
    rewrite (ReWhere.search_none_of Pattern.zipPattern Chars.is_digit); [done | | done].
    intros st st' M.
    apply zip_match in M as (c1 & c2 & c3 & c4 & c5 & u & Hr & H1 & _). eauto.
Qed.

(** ** Countries *)

Lemma firstCountry_sound (lex : list (list string * string)) (loc code : string) :
  firstCountry lex loc = code ->
  code = "US"%string
  \/ exists words w, In (words, code) lex /\ In w words /\ contains_ci w loc.
Proof.
  induction lex as [|[words c] lex IH]; simpl; [by left|].
  destruct (Re.test (Re.wordsi words) loc) eqn:T.
  - intros <-. apply WordFacts.test_wordsi in T as (w & Hw & Hc).
    right. exists words, w. tauto.
  - intros H. destruct (IH H) as [?|(words' & w & Hin & Hw & Hc)]; [by left|].
    right. exists words', w. tauto.
Qed.

Lemma firstCountry_default (lex : list (list string * string)) (loc : string) :
  (forall words code w, In (words, code) lex -> In w words -> ~ contains_ci w loc) ->
  firstCountry lex loc = "US"%string.
Proof.
  induction lex as [|[words c] lex IH]; simpl; [done|]. intros H.
  destruct (Re.test (Re.wordsi words) loc) eqn:T.
  - apply WordFacts.test_wordsi in T as (w & Hw & Hc).
    exfalso. apply (H words c w); [by left | done | done].
  - apply IH. intros words' code w Hin. apply (H words' code w). by right.
Qed.

(** X14: [detectCountry] answers with one of seventeen country codes; it
    answers with a code other than "US" only when one of the key words of
    that country occurs somewhere in the location, in any case of the
    letters and not necessarily as a whole word; and a location in which no
    key word of any country occurs is in the United States. *)
Theorem detectCountry_keywords (location : string) :
  In (detectCountry location)
    ["US"; "CN"; "GB"; "DE"; "FR"; "JP"; "CA"; "MX"; "IN"; "AU"; "BR"; "ES"; "CO"; "AR";
     "PE"; "CL"; "VE"]%string
  /\ (detectCountry location <> "US"%string ->
      exists words w,
        In (words, detectCountry location) countryLexicon
        /\ In w words /\ contains_ci w location)
  /\ ((forall words code w,
         In (words, code) countryLexicon -> In w words -> ~ contains_ci w location) ->
      detectCountry location = "US"%string).
Proof.
  assert (detectCountry location = "US"%string
          \/ exists words w,
               In (words, detectCountry location) countryLexicon
               /\ In w words /\ contains_ci w location) as H.
  { unfold detectCountry. cbv zeta. destruct (_ || _ || _); [by left|].
    destruct (firstCountry_sound countryLexicon (Str.toLowerCase location) _ eq_refl)
      as [?|(words & w & Hin & Hw & Hc)]; [by left|].
    right. exists words, w. split; [done|]. split; [done|]. by apply contains_ci_lower. }
  split; [|split].
  - destruct H as [->|(words & w & Hin & _)]; [by left|].
    revert Hin. generalize (detectCountry location). intros code Hin.
    unfold countryLexicon in Hin. simpl in Hin.
    repeat (destruct Hin as [[= _ <-]|Hin]; [simpl; tauto|]). done.
  - intros Hne. by destruct H.
  - intros Hno. unfold detectCountry. cbv zeta. destruct (_ || _ || _); [done|].
    apply firstCountry_default. intros words code w Hin Hw Hc.
    apply (Hno words code w Hin Hw). by apply contains_ci_lower.
Qed.

Lemma strip_mark_idem (c : ascii) :
  Chars.strip_mark (Chars.strip_mark c) = Chars.strip_mark c.
Proof. destruct c as [[] [] [] [] [] [] [] []]; by vm_compute. Qed.

Lemma stripDiacritics_idem (s : string) :
  Str.stripDiacritics (Str.stripDiacritics s) = Str.stripDiacritics s.
Proof.
  unfold Str.stripDiacritics. induction s as [|c s IH]; simpl; [done|].
  by rewrite strip_mark_idem, IH.
Qed.

(** X15: on a text of Latin-1 characters (the texts of this development),
    the parse does not depend on the accents of the text: such a text and
    the same text with the diacritics of its letters removed have the same
    parse. *)
Theorem parse_ignores_diacritics (input : string) :
  parseNaturalLanguage (Str.stripDiacritics input) = parseNaturalLanguage input.
Proof. unfold parseNaturalLanguage. by rewrite stripDiacritics_idem. Qed.

(** ** The order of numbers *)

Module OrderFacts.
Import Num.

Local Open Scope Z_scope.

Lemma ltb_finite_pos (m1 m2 : positive) (e1 e2 : Z) :
  ltb (S754_finite false m1 e1) (S754_finite false m2 e2) = true
  <-> e1 < e2 \/ (e1 = e2 /\ (m1 < m2)%positive).
Proof.
  unfold ltb, SFltb, SFcompare.
  change (Pos.compare_cont Eq m1 m2) with (Pos.compare m1 m2).
  destruct (Z.compare_spec e1 e2); [destruct (Pos.compare_spec m1 m2)| |];
    simpl; intuition (try discriminate; try lia).
Qed.

Lemma ltb_finite_neg (m1 m2 : positive) (e1 e2 : Z) :
  ltb (S754_finite true m1 e1) (S754_finite true m2 e2) = true
  <-> e2 < e1 \/ (e1 = e2 /\ (m2 < m1)%positive).
Proof.
  unfold ltb, SFltb, SFcompare.
  change (Pos.compare_cont Eq m1 m2) with (Pos.compare m1 m2).
  destruct (Z.compare_spec e1 e2); [destruct (Pos.compare_spec m1 m2)| |];
    simpl; intuition (try discriminate; try lia).
Qed.

(** [<] on numbers is transitive. *)
Lemma ltb_trans (x y z : number) :
  ltb x y = true -> ltb y z = true -> ltb x z = true.
Proof.
  destruct x as [sx|sx| |sx mx ex], y as [sy|sy| |sy my ey], z as [sz|sz| |sz mz ez];
    try done;
    try (destruct sx; done); try (destruct sy; done); try (destruct sz; done);
    try (destruct sx, sy; done); try (destruct sx, sz; done); try (destruct sy, sz; done);
    try (destruct sx, sy, sz; done).
  destruct sx, sy, sz; try done.
  - rewrite !ltb_finite_neg. lia.
  - rewrite !ltb_finite_pos. lia.
Qed.

Lemma ltb_irrefl (x : number) : ltb x x = false.
Proof.
  destruct x as [s|s| |s m e]; try done; try by destruct s.
  destruct s.
  - apply not_true_is_false. rewrite ltb_finite_neg. lia.
  - apply not_true_is_false. rewrite ltb_finite_pos. lia.
Qed.

End OrderFacts.

(** ** The cheapest estimate and the cheapest rate *)

Section Cheapest.

Import Num.

Lemma ltb_infinity_l (x : number) : ltb infinity x = false.
Proof. by destruct x as [s|[]| |s m e]. Qed.

Lemma ltb_infinity_r (x : number) :
  truthy x = true -> ltb x infinity = false -> x = infinity.
Proof. destruct x as [s|[]| |[] m e]; done. Qed.

Lemma cheaperMode_lowest (min m : FreightosEstimateMode) (seen : list FreightosEstimateMode) :
  lowestMode min seen -> lowestMode (cheaperMode min m) (seen ++ [m]).
Proof.
  intros Hl m' Hin Ht. unfold cheaperMode.
  destruct (truthy (amountOf m)) eqn:Tm; simpl.
  - destruct (ltb (amountOf m) _) eqn:L.
    + rewrite Tm. apply in_app_or in Hin as [Hin|[<-|[]]]; [|apply OrderFacts.ltb_irrefl].
      specialize (Hl m' Hin Ht). destruct (truthy (amountOf min)).
      * apply not_true_is_false. intros L'.
        by rewrite (OrderFacts.ltb_trans _ _ _ L' L) in Hl.
      * rewrite Hl. apply ltb_infinity_l.
    + apply in_app_or in Hin as [Hin|[<-|[]]]; [by apply Hl|].
      destruct (truthy (amountOf min)); [done | by apply ltb_infinity_r].
  - apply in_app_or in Hin as [Hin|[<-|[]]]; [by apply Hl | congruence].
Qed.

Lemma fold_cheaperMode (l seen : list FreightosEstimateMode) (min : FreightosEstimateMode) :
  lowestMode min seen -> In min (seen ++ l) ->
  lowestMode (fold_left cheaperMode l min) (seen ++ l) /\ In (fold_left cheaperMode l min) (seen ++ l).
Proof.
  revert seen min. induction l as [|m l IH]; intros seen min Hl Hin; simpl.
  - rewrite app_nil_r in *. by split.
  - replace (seen ++ m :: l) with ((seen ++ [m]) ++ l) in * by by rewrite <- app_assoc.
    apply IH; [by apply cheaperMode_lowest|].
    unfold cheaperMode. destruct (_ && _); [|done].
    apply in_or_app. left. apply in_or_app. right. by left.
Qed.

End Cheapest.

(** X16: the estimate quote of a category carries the lowest amount of the
    modes of that category: its price is the amount of one of the modes, is
    neither zero nor [NaN], and no mode with an amount has a lower one; when
    no quote is made, no mode has an amount (other than an infinite one). *)
Theorem buildCheapest_is_cheapest (l : list FreightosEstimateMode) (label fb : string) :
  match buildCheapest l label fb with
  | [] => forall m, In m l -> Num.truthy (amountOf m) = true -> amountOf m = Num.infinity
  | [q] =>
      Num.truthy (price q) = true
      /\ service q = (label ++ " (Estimate)")%string /\ mode q = Some fb
      /\ (exists m, In m l /\ price q = amountOf m)
      /\ forall m, In m l -> Num.truthy (amountOf m) = true ->
           Num.ltb (amountOf m) (price q) = false
  | _ => False
  end.
Proof.
  unfold buildCheapest. destruct l as [|first l]; [done|]. cbv zeta.
  change (parseAmount (modeAmount ?x)) with (amountOf x) in *.
  change (fold_left _ (first :: l) first) with (fold_left cheaperMode (first :: l) first).
  destruct (fold_cheaperMode (first :: l) [] first) as [Hl Hin]; [by intros m [] | by left |].
  simpl app in Hl, Hin. unfold lowestMode in Hl.
  destruct (Num.truthy (amountOf (fold_left cheaperMode (first :: l) first))) eqn:T; simpl.
  - split; [done|]. split; [done|]. split; [done|]. split; [by eexists|].
    intros m Hm Ht. exact (Hl m Hm Ht).
  - intros m Hm Ht. exact (Hl m Hm Ht).
Qed.

Lemma ratePrice_priced (r : FreightosRate) :
  Num.truthy (ratePrice r Num.zero) = true ->
  ratePrice r Num.infinity = ratePrice r Num.zero.
Proof.
  unfold ratePrice. simpl.
  destruct (fr_price r) as [a|]; [destruct (Num.truthy a); [done|]|];
    (destruct (fr_totalPrice r) as [b|]; [destruct (Num.truthy b); [done|]|]);
    (destruct (fr_amount r) as [c|]; [destruct (Num.truthy c); [done|]|]); done.
Qed.

Lemma ratePrice_unpriced (r : FreightosRate) :
  Num.truthy (ratePrice r Num.zero) = false ->
  ratePrice r Num.zero = Num.zero /\ ratePrice r Num.infinity = Num.infinity.
Proof.
  unfold ratePrice. simpl.
  destruct (fr_price r) as [a|]; [destruct (Num.truthy a) eqn:Ta; [congruence|]|];
    (destruct (fr_totalPrice r) as [b|]; [destruct (Num.truthy b) eqn:Tb; [congruence|]|]);
    (destruct (fr_amount r) as [c|]; [destruct (Num.truthy c) eqn:Tc; [congruence|]|]);
    done.
Qed.

Lemma cheapestRate_lowest (others seen : list FreightosRate) (min : FreightosRate) :
  (forall r, In r (seen ++ others) -> Num.truthy (ratePrice r Num.zero) = true) ->
  In min seen ->
  (forall r, In r seen -> Num.ltb (ratePrice r Num.zero) (ratePrice min Num.zero) = false) ->
  In (cheapestRate min others) (seen ++ others)
  /\ forall r, In r (seen ++ others) ->
       Num.ltb (ratePrice r Num.zero) (ratePrice (cheapestRate min others) Num.zero) = false.
Proof.
  unfold cheapestRate. revert seen min.
  induction others as [|x others IH]; intros seen min Hp Hin Hl; simpl.
  - rewrite app_nil_r. by split.
  - rewrite (ratePrice_priced min) by (apply Hp, in_or_app; by left).
    replace (seen ++ x :: others) with ((seen ++ [x]) ++ others) in * by by rewrite <- app_assoc.
    destruct (Num.ltb (ratePrice x Num.zero) (ratePrice min Num.zero)) eqn:L.
    + apply IH; [done | apply in_or_app; right; by left |].
      intros r Hr. apply in_app_or in Hr as [Hr|[<-|[]]]; [|apply OrderFacts.ltb_irrefl].
      apply not_true_is_false. intros L'.
      pose proof (OrderFacts.ltb_trans _ _ _ L' L) as T. by rewrite (Hl r Hr) in T.
    + apply IH; [done | apply in_or_app; by left |].
      intros r Hr. apply in_app_or in Hr as [Hr|[<-|[]]]; [by apply Hl | done].
Qed.

(** X17: when every rate of a list has a price (a [price], [totalPrice] or
    [amount] that is neither zero nor [NaN]), the quote made of the list
    carries the lowest of these prices. *)
Theorem cheapestQuote_is_cheapest (rates : list FreightosRate) (service_ mode_ : string) :
  (forall r, In r rates -> Num.truthy (ratePrice r Num.zero) = true) ->
  match cheapestQuote rates service_ mode_ with
  | [] => rates = []
  | [q] =>
      (exists r, In r rates /\ price q = ratePrice r Num.zero)
      /\ forall r, In r rates -> Num.ltb (ratePrice r Num.zero) (price q) = false
  | _ => False
  end.
Proof.
  intros Hp. destruct rates as [|first others]; [done|]. simpl.
  destruct (cheapestRate_lowest others [first] first) as [Hin Hl].
  - exact Hp.
  - by left.
  - intros r [<-|[]]. apply OrderFacts.ltb_irrefl.
  - split; [|exact Hl].
    exists (cheapestRate first others). split; [exact Hin | done].
Qed.

(** X17 at two rates priced 80 and 100. *)
Lemma cheapestQuote_is_cheapest_witness :
  (forall r, In r [airRate; pricedRate 100] -> Num.truthy (ratePrice r Num.zero) = true)
  /\ match cheapestQuote [airRate; pricedRate 100] "Air Freight (Cheapest)" "Air" with
     | [] => [airRate; pricedRate 100] = []
     | [q] =>
         (exists r, In r [airRate; pricedRate 100] /\ price q = ratePrice r Num.zero)
         /\ forall r, In r [airRate; pricedRate 100] ->
              Num.ltb (ratePrice r Num.zero) (price q) = false
     | _ => False
     end.
Proof.
  assert (forall r, In r [airRate; pricedRate 100] ->
            Num.truthy (ratePrice r Num.zero) = true) as Hp.
  { intros r [<-|[<-|[]]]; reflexivity. }
  split; [exact Hp|].
  exact (cheapestQuote_is_cheapest [airRate; pricedRate 100] "Air Freight (Cheapest)"
           "Air" Hp).
Defined.

(** X18: a rate without a price makes the reduction forget the lowest price
    found so far: after a rate with a positive price and a rate without any
    price, any later rate with a finite price is chosen, even when its price
    is higher than the first one's. *)
Theorem unpriced_rate_resets_cheapest (a u b : FreightosRate) :
  Num.ltb Num.zero (ratePrice a Num.zero) = true ->
  Num.truthy (ratePrice u Num.zero) = false ->
  Num.truthy (ratePrice b Num.zero) = true ->
  Num.ltb (ratePrice b Num.zero) Num.infinity = true ->
  cheapestRate a [u] = u /\ cheapestRate a [u; b] = b.
Proof.
  intros Ha Hu Hb Hfin. unfold cheapestRate. simpl.
  assert (Num.truthy (ratePrice a Num.zero) = true) as Ta.
  { destruct (ratePrice a Num.zero) as [s|s| |s m e]; try done; by destruct s. }
  destruct (ratePrice_unpriced u Hu) as [U0 Uinf].
  rewrite (ratePrice_priced a Ta), U0, Ha, Uinf, Hfin. done.
Qed.


(** X18 at rates priced 10, without a price, and priced 50: the reduction
    ends on the rate priced 50. *)
Lemma unpriced_rate_resets_cheapest_witness :
  Num.ltb Num.zero (ratePrice (pricedRate 10) Num.zero) = true
  /\ Num.truthy (ratePrice unpricedRate Num.zero) = false
  /\ Num.truthy (ratePrice (pricedRate 50) Num.zero) = true
  /\ Num.ltb (ratePrice (pricedRate 50) Num.zero) Num.infinity = true
  /\ cheapestRate (pricedRate 10) [unpricedRate] = unpricedRate
  /\ cheapestRate (pricedRate 10) [unpricedRate; pricedRate 50] = pricedRate 50.
Proof.
  repeat (split; [reflexivity|]).
  apply (unpriced_rate_resets_cheapest (pricedRate 10) unpricedRate (pricedRate 50));
    reflexivity.
Defined.

(** ** The static estimate is never negative *)

Module SignFacts.
Import Num.

Local Open Scope Z_scope.

Lemma nonneg_cases (x : number) :
  nonneg x <-> (exists s, x = S754_zero s) \/ x = S754_infinity false
               \/ exists m e, x = S754_finite false m e.
Proof.
  unfold nonneg. destruct x as [s|[]| |[] m e]; simpl; split; try done; eauto.
  all: intros [[s' H]|[H|(m' & e' & H)]]; discriminate.
Qed.

Lemma add_nonneg (x y : number) : nonneg x -> nonneg y -> nonneg (add x y).
Proof.
  intros Hx Hy. apply nonneg_cases in Hx as [[sx ->]|[->|(mx & ex & ->)]];
    apply nonneg_cases in Hy as [[sy ->]|[->|(my & ey & ->)]]; try done.
  - by destruct sx, sy.
  - unfold add, SFadd. apply NumFacts.binary_normalize_nonneg. simpl. lia.
Qed.

Lemma ceil_nonneg (x : number) : nonneg x -> nonneg (Math_ceil x).
Proof.
  intros Hx. apply nonneg_cases in Hx as [[sx ->]|[->|(mx & ex & ->)]]; try done.
  unfold Math_ceil. destruct (0 <=? ex); [done|].
  apply NumFacts.binary_normalize_nonneg.
  assert (0 <= Z.shiftr (Z.pos mx) (- ex)) by (apply Z.shiftr_nonneg; lia).
  destruct (_ =? _); lia.
Qed.

Lemma round_nonneg (x : number) : nonneg x -> nonneg (Math_round x).
Proof.
  intros Hx. apply nonneg_cases in Hx as [[sx ->]|[->|(mx & ex & ->)]]; try done.
  unfold Math_round. destruct (0 <=? ex) eqn:E; [done|]. cbv zeta.
  apply NumFacts.binary_normalize_nonneg.
  apply Z.leb_gt in E.
  apply Z.div_pos; [|apply Z.pow_pos_nonneg; lia].
  assert (0 < 2 ^ (- ex)) by (apply Z.pow_pos_nonneg; lia). lia.
Qed.

Lemma div_nonneg (x : number) (mc : positive) (ec : Z) :
  nonneg x -> nonneg (div x (S754_finite false mc ec)).
Proof.
  intros Hx. apply nonneg_cases in Hx as [[sx ->]|[->|(mx & ex & ->)]]; try done.
  unfold div, SFdiv, SFdiv_core_binary.
  match goal with
  | |- context [Z.div_eucl ?a ?b] =>
      assert (0 <= a) as Ha by (destruct (_ - _ - _); [lia | apply Z.shiftl_nonneg; lia | lia]);
      pose proof (Z.div_pos a b Ha ltac:(lia)) as Hq;
      unfold Z.div in Hq; destruct (Z.div_eucl a b) as [q r]
  end.
  by apply NumFacts.binary_round_aux_nonneg.
Qed.

End SignFacts.

Lemma totalWeightOf_nonneg (ps : list Parcel.t) :
  Forall parcel_nonneg ps -> nonneg (totalWeightOf ps).
Proof.
  unfold totalWeightOf.
  assert (forall acc, nonneg acc -> Forall parcel_nonneg ps ->
            nonneg (fold_left (fun sum p => Num.add sum (Parcel.weight p)) ps acc)) as H.
  { induction ps as [|p ps IH]; intros acc Ha Hps; simpl; [done|].
    apply Forall_cons in Hps as [(_ & _ & _ & Hp) Hps].
    apply IH; [by apply SignFacts.add_nonneg | done]. }
  by apply H.
Qed.

Ltac literal_value t :=
  let v := eval vm_compute in t in change t with v.

Lemma round2_nonneg (x : Num.number) : nonneg x -> nonneg (round2 x).
Proof.
  intros Hx. unfold round2. literal_value (Num.of_Z 100).
  by apply SignFacts.div_nonneg, SignFacts.round_nonneg, NumFacts.mul_nonneg.
Qed.

Lemma heuristicQuotes_nonneg (p : ParsedRequest) :
  Forall parcel_nonneg (parcels p) ->
  Forall (fun q => nonneg (price q)) (heuristicQuotes p).
Proof.
  intros Hp.
  assert (nonneg (weightKg p)) as Hkg.
  { unfold weightKg, totalWeight. literal_value (Num.literal "0.453592").
    by apply SignFacts.ceil_nonneg, NumFacts.mul_nonneg, totalWeightOf_nonneg. }
  unfold heuristicQuotes, baseAirRate, baseGroundRate, baseOceanRate.
  literal_value (Num.literal "3.5"). literal_value (Num.literal "1.2").
  literal_value (Num.literal "0.8").
  apply Forall_app. split.
  - destruct (allowAir p); constructor; [|constructor]. simpl.
    by apply round2_nonneg, NumFacts.mul_nonneg.
  - constructor; [|constructor]. simpl.
    apply round2_nonneg. destruct (_ && _); by apply NumFacts.mul_nonneg.
Qed.

(** X19: the static estimate never gives a negative price or [NaN]: for
    the parse of any text, the prices of the quotes of the static estimate
    are numbers that are not negative. *)
Theorem static_estimate_not_negative (input : string) :
  Forall (fun q => nonneg (price q)) (heuristicQuotes (parseNaturalLanguage input)).
Proof.
  apply heuristicQuotes_nonneg. apply Forall_forall. intros p Hp.
  apply list_elem_of_In in Hp. rewrite parcels_of_parse in Hp.
  by apply extractParcels_nonneg in Hp.
Qed.

(** ** A repeated request *)

Lemma resolved_US (env : Env) (location : string) (w w' : World) (sa : ShippoAddress) :
  buildShippoAddress env location "US" w = (Eff.Returned (Some sa), w') ->
  exists a, resolveUsAddress env location w = (Eff.Returned (Some a), w')
            /\ sa = mkShippoAddress (Address.city a) (Address.state a) (Address.zip a) "US".
Proof.
  rewrite buildShippoAddress_US. unfold Eff.bind.
  destruct (resolveUsAddress env location w) as [[[a|]|] w1]; unfold Eff.ret;
    intros [= <- <-]. by exists a.
Qed.

Lemma cached_US (env : Env) (location : string) (w : World) (a : Address.t) :
  LOCATION_CACHE w !! Str.toLowerCase location = Some a ->
  buildShippoAddress env location "US" w =
    (Eff.Returned (Some (mkShippoAddress (Address.city a) (Address.state a)
                           (Address.zip a) "US")), w).
Proof.
  intros H. rewrite buildShippoAddress_US. unfold Eff.bind.
  by rewrite (resolveUsAddress_hit env location w a H).
Qed.

(** The rate request and what follows it in [getShippoQuotes]. *)
Lemma shippo_request_run (answer : fetched ShippoData) (w : World) :
  exists qs w',
    Eff.try_catch
      (Eff.bind (Eff.fetch ShippoRates answer) (fun response =>
         Eff.bind (Eff.json (snd response)) (fun data =>
           match sd_rates data with
           | Some rates => Eff.ret (sortByPrice (List.map shippoQuote rates))
           | None => Eff.ret []
           end)))
      (Eff.ret []) w = (Eff.Returned qs, w')
    /\ calls w' = calls w ++ [ShippoRates]
    /\ LOCATION_CACHE w' = LOCATION_CACHE w.
Proof.
  unfold Eff.try_catch, Eff.bind, Eff.fetch, Eff.log, Eff.bind, Eff.json, Eff.ret, Eff.throw.
  destruct answer as [|ok [[[rates|]]|]]; simpl; by eexists _, _.
Qed.

(** X20: once a domestic request has reached the small-parcel provider,
    its origin and its destination are in the address cache, and the same
    request again (whatever the answers of the outside world then are)
    resolves both from the cache: the only call of the small-parcel path is
    the rate request, and the cache stays as it is. *)
Theorem repeated_domestic_request_uses_cache
    (env : Env) (p : ParsedRequest) (contact : Contact) (w w1 : World)
    (qs : list QuoteResult) (cs : list Call) :
  originCountry p = "US"%string -> destCountry p = "US"%string ->
  getShippoQuotes env p contact w = (Eff.Returned qs, w1) ->
  calls w1 = calls w ++ cs ->
  In ShippoRates cs ->
  (exists a b, LOCATION_CACHE w1 !! Str.toLowerCase (origin p) = Some a
               /\ LOCATION_CACHE w1 !! Str.toLowerCase (destination p) = Some b)
  /\ forall env' contact',
       exists qs' w2,
         getShippoQuotes env' p contact' w1 = (Eff.Returned qs', w2)
         /\ calls w2 = calls w1
              ++ (if present (SHIPPO_API_KEY env') then [ShippoRates] else [])
         /\ LOCATION_CACHE w2 = LOCATION_CACHE w1.
Proof.
  intros Ho Hd E Ec Hin.
  destruct (present (SHIPPO_API_KEY env)) eqn:K.
  2: { rewrite (getShippoQuotes_no_key env p contact w K) in E. injection E as <- <-.
       rewrite <- (app_nil_r (calls w)) in Ec at 1. apply app_inv_head in Ec. by subst cs. }
  destruct (getShippoQuotes_run env p contact w K) as (ro & wa & rd & wb & Ea & Eb & E').
  rewrite E' in E. injection E as _ <-. simpl in Ec. rewrite Ho in Ea. rewrite Hd in Eb.
  destruct (buildShippoAddress_emits _ _ _ _ _ _ Ea) as (c1 & E1 & F1).
  destruct (buildShippoAddress_emits _ _ _ _ _ _ Eb) as (c2 & E2 & F2). simpl in E2.
  assert (exists sa sb, ro = Some sa /\ rd = Some sb) as (sa & sb & -> & ->).
  { destruct ro as [sa|], rd as [sb|]; [by exists sa, sb | | |];
      exfalso; rewrite app_nil_r, E2, E1, <- app_assoc in Ec; apply app_inv_head in Ec;
      subst cs; apply in_app_or in Hin as [Hin|Hin]; apply list_elem_of_In in Hin;
      rewrite Forall_forall in F1, F2;
      [by specialize (F1 _ Hin) | by specialize (F2 _ Hin)
      | by specialize (F1 _ Hin) | by specialize (F2 _ Hin)
      | by specialize (F1 _ Hin) | by specialize (F2 _ Hin)]. }
  pose proof (adds_subset _ _ _ _ _ (buildShippoAddress_adds env (origin p) "US") Ea) as Sa.
  pose proof (adds_subset _ _ _ _ _ (buildShippoAddress_adds env (destination p) "US") Eb) as Sb.
  simpl in Sb.
  apply resolved_US in Ea as (a & Ea & _). apply resolved_US in Eb as (b & Eb & _).
  pose proof (resolveUsAddress_cached _ _ _ _ _ Ea) as Ca.
  pose proof (resolveUsAddress_cached _ _ _ _ _ Eb) as Cb.
  destruct (merged_is_Some (second_lands_last env AddressRace) w wa wb
              (Str.toLowerCase (origin p)) Sa Sb) as [a' Ha]; [left; by rewrite Ca|].
  destruct (merged_is_Some (second_lands_last env AddressRace) w wa wb
              (Str.toLowerCase (destination p)) Sa Sb) as [b' Hb]; [right; by rewrite Cb|].
  split; [by exists a', b'|].
  intros env' contact'.
  set (w1 := mkWorld (merged (second_lands_last env AddressRace) w wa wb)
               (calls wb ++ [ShippoRates])).
  destruct (present (SHIPPO_API_KEY env')) eqn:K'.
  2: { rewrite (getShippoQuotes_no_key env' p contact' w1 K').
       exists [], w1. by rewrite app_nil_r. }
  destruct (getShippoQuotes_run env' p contact' w1 K') as (ro & va & rd & vb & Va & Vb & V).
  rewrite Ho, (cached_US env' (origin p) w1 a' Ha) in Va. injection Va as <- <-.
  rewrite snapshot_same, Hd, (cached_US env' (destination p) w1 b' Hb) in Vb.
  injection Vb as <- <-.
  rewrite V, merged_same. by eexists _, _.
Qed.

(** X20 at a request from the ZIP code 33142 to itself: the first run asks
    the postal database twice, once for each address, since neither
    resolution sees what the other writes. *)
Lemma repeated_domestic_request_witness :
  originCountry sameZip = "US"%string /\ destCountry sameZip = "US"%string
  /\ getShippoQuotes postalOnly sameZip noContact emptyWorld = (Eff.Returned [], afterFirst)
  /\ calls afterFirst
     = calls emptyWorld ++ [ZipLookup "33142"; ZipLookup "33142"; ShippoRates]
  /\ In ShippoRates [ZipLookup "33142"; ZipLookup "33142"; ShippoRates]
  /\ forall env' contact',
       exists qs' w2,
         getShippoQuotes env' sameZip contact' afterFirst = (Eff.Returned qs', w2)
         /\ calls w2 = calls afterFirst
              ++ (if present (SHIPPO_API_KEY env') then [ShippoRates] else [])
         /\ LOCATION_CACHE w2 = LOCATION_CACHE afterFirst.
Proof.
  assert (getShippoQuotes postalOnly sameZip noContact emptyWorld
          = (Eff.Returned [], afterFirst)) as E by (vm_compute; reflexivity).
  assert (In ShippoRates [ZipLookup "33142"; ZipLookup "33142"; ShippoRates]) as Hin
    by (right; right; by left).
  repeat (split; [first [reflexivity | exact E | exact Hin]|]).
  exact (proj2 (repeated_domestic_request_uses_cache postalOnly sameZip noContact
                  emptyWorld afterFirst []
                  [ZipLookup "33142"; ZipLookup "33142"; ShippoRates]
                  eq_refl eq_refl E eq_refl Hin)).
Defined.

(** ** The order of the small-parcel quotes *)

Lemma nonneg_not_negative (x : Num.number) : nonneg x -> Num.ltb x Num.zero = false.
Proof. by destruct x as [s|[]| |[] m e]. Qed.

(** The comparator is antisymmetric: [a - b] and [b - a] are not both
    negative. *)
Lemma sub_antisym (a b : Num.number) :
  Num.ltb (Num.sub a b) Num.zero = true -> Num.ltb (Num.sub b a) Num.zero = false.
Proof.
  destruct a as [sa|sa| |sa ma ea], b as [sb|sb| |sb mb eb]; try done;
    try (by destruct sa, sb); try (by destruct sa); try (by destruct sb).
  unfold Num.sub, SFsub. cbv zeta. rewrite (Z.min_comm eb ea).
  set (A := cond_Zopp sa _). set (B := cond_Zopp sb _).
  destruct (Z_le_gt_dec 0 (A - B)) as [H|H].
  - rewrite nonneg_not_negative; [done|]. by apply NumFacts.binary_normalize_nonneg.
  - intros _. apply nonneg_not_negative, NumFacts.binary_normalize_nonneg. lia.
Qed.

Lemma insertByPrice_head (q : QuoteResult) (l : list QuoteResult) :
  exists tl, insertByPrice q l = q :: tl
             \/ exists h tl', l = h :: tl' /\ insertByPrice q l = h :: tl.
Proof.
  destruct l as [|h tl']; simpl; [by exists []; left|].
  destruct (Num.ltb _ _); eexists; [by left | right; by eexists _, _].
Qed.

Lemma insertByPrice_ascending (q : QuoteResult) (l : list QuoteResult) :
  ascending l -> ascending (insertByPrice q l).
Proof.
  induction l as [|q' l IH]; intros Hl; [done|]. simpl insertByPrice.
  destruct (Num.ltb (Num.sub (price q) (price q')) Num.zero) eqn:L.
  - split; [by apply sub_antisym | exact Hl].
  - destruct Hl as [Hh Hl]. specialize (IH Hl). split; [|exact IH].
    destruct l as [|h l']; [exact L|]. simpl insertByPrice in *.
    by destruct (Num.ltb (Num.sub (price q) (price h)) Num.zero).
Qed.

(** X21: the quotes of the small-parcel provider come out in ascending
    order of price: when no price is [NaN], the sorted list is a reordering
    of the given one in which, for consecutive quotes [a] and [b],
    [b.price - a.price] is not negative. *)
Theorem sortByPrice_ascending (l : list QuoteResult) :
  forallb (fun q => negb (is_nan (price q))) l = true ->
  ascending (sortByPrice l) /\ Permutation (sortByPrice l) l.
Proof.
  intros _. split; [|apply sortByPrice_perm].
  unfold sortByPrice.
  assert (forall acc, ascending acc ->
            ascending (fold_left (fun sorted q => insertByPrice q sorted) l acc)) as H.
  { induction l as [|q l IH]; intros acc Ha; simpl; [done|].
    by apply IH, insertByPrice_ascending. }
  by apply H.
Qed.

(** X21 at two rates, of 12.50 and of 8 dollars. *)
Lemma sortByPrice_ascending_witness :
  forallb (fun q => negb (is_nan (price q))) (List.map shippoQuote twoRates) = true
  /\ ascending (sortByPrice (List.map shippoQuote twoRates))
  /\ Permutation (sortByPrice (List.map shippoQuote twoRates))
       (List.map shippoQuote twoRates).
Proof.
  split; [reflexivity|].
  apply (sortByPrice_ascending (List.map shippoQuote twoRates)). reflexivity.
Defined.

(** ** Trimming *)

Module StrFacts.
Import Str.

Lemma rev_onto_app (s acc : string) : rev_onto s acc = (rev s ++ acc)%string.
Proof.
  unfold rev. revert acc. induction s as [|c s IH]; intros acc; simpl; [done|].
  rewrite IH, (IH (String c "")), str_app_assoc. by rewrite str_app_cons.
Qed.

Lemma rev_cons (c : ascii) (s : string) : rev (String c s) = (rev s ++ String c "")%string.
Proof. unfold rev. simpl. apply rev_onto_app. Qed.

Lemma rev_app (a b : string) : rev (a ++ b) = (rev b ++ rev a)%string.
Proof.
  induction a as [|c a IH].
  - change ("" ++ b)%string with b. change (rev "") with ""%string.
    by rewrite str_app_nil_r.
  - by rewrite str_app_cons, !rev_cons, IH, str_app_assoc.
Qed.

Lemma rev_involutive (s : string) : rev (rev s) = s.
Proof.
  induction s as [|c s IH]; [done|]. rewrite rev_cons, rev_app, IH. reflexivity.
Qed.

Lemma trimStart_split (s : string) :
  exists sp, s = (sp ++ trimStart s)%string /\ all_space sp = true.
Proof.
  induction s as [|c s (sp & IH & Hsp)]; simpl; [by exists ""%string|].
  destruct (Chars.is_space c) eqn:E.
  - exists (String c sp). rewrite str_app_cons, <- IH. simpl. by rewrite E.
  - by exists ""%string.
Qed.

Lemma head_trimStart (s : string) : head_space (trimStart s) = false.
Proof.
  induction s as [|c s IH]; simpl; [done|].
  destruct (Chars.is_space c) eqn:E; [done|]. simpl. exact E.
Qed.

Lemma trimStart_fixed (s : string) : head_space s = false -> trimStart s = s.
Proof. destruct s as [|c s]; simpl; [done|]. by intros ->. Qed.

Lemma trimStart_spaces (sp t : string) :
  all_space sp = true -> trimStart (sp ++ t) = trimStart t.
Proof.
  induction sp as [|c sp IH]; [done|]. intros H. simpl in H.
  apply andb_prop in H as [Hc Hsp]. rewrite str_app_cons. simpl. rewrite Hc. auto.
Qed.

Lemma head_app (a b : string) : a <> ""%string -> head_space (a ++ b) = head_space a.
Proof. destruct a as [|c a]; [done|]. by rewrite str_app_cons. Qed.

(** The last character of a text that starts, read backwards, after some
    white space: if [x = sp ++ v] and the reverse of [x] does not start with
    white space, neither does the reverse of [v]. *)
Lemma head_rev_suffix (sp v : string) :
  head_space (rev (sp ++ v)) = false -> head_space (rev v) = false.
Proof.
  rewrite rev_app. destruct (rev v) as [|c r] eqn:E; [done|].
  by rewrite head_app.
Qed.

(** A trimmed text: it neither starts nor ends with white space. *)
Lemma trim_fixed (t : string) :
  head_space t = false -> head_space (rev t) = false -> trim t = t.
Proof.
  intros H1 H2. unfold trim.
  by rewrite (trimStart_fixed t H1), (trimStart_fixed _ H2), rev_involutive.
Qed.

Lemma trim_ends (s : string) :
  head_space (trim s) = false /\ head_space (rev (trim s)) = false.
Proof.
  unfold trim. set (u := trimStart s). set (v := trimStart (rev u)).
  rewrite rev_involutive. split; [|apply head_trimStart].
  destruct (trimStart_split (rev u)) as (sp & E & _). fold v in E.
  apply (head_rev_suffix sp). rewrite <- E, rev_involutive. apply head_trimStart.
Qed.

Lemma trim_idem (s : string) : trim (trim s) = trim s.
Proof. destruct (trim_ends s). by apply trim_fixed. Qed.

Lemma all_space_rev (s : string) : all_space (rev s) = all_space s.
Proof.
  assert (forall a b, all_space (a ++ b) = all_space a && all_space b) as Happ.
  { induction a as [|c a IH]; intros b; [done|]. rewrite str_app_cons. simpl.
    by rewrite IH, andb_assoc. }
  induction s as [|c s IH]; [done|]. rewrite rev_cons, Happ, IH. simpl.
  by rewrite andb_true_r, andb_comm.
Qed.

(** Trimming removes the white space around a trimmed text. *)
Lemma trim_pad (a t b : string) :
  all_space a = true -> all_space b = true ->
  head_space t = false -> head_space (rev t) = false ->
  trim (a ++ t ++ b) = t.
Proof.
  intros Ha Hb H1 H2. unfold trim.
  rewrite (trimStart_spaces a _ Ha).
  destruct t as [|c t].
  - change ("" ++ b)%string with b.
    destruct (trimStart_split b) as (sp & E & Hsp).
    assert (trimStart b = ""%string) as ->.
    { clear -Hb. induction b as [|x b IH]; simpl; [done|]. simpl in Hb.
      apply andb_prop in Hb as [-> Hb]. auto. }
    done.
  - assert (trimStart (String c t ++ b) = (String c t ++ b)%string) as ->.
    { apply trimStart_fixed. rewrite str_app_cons. exact H1. }
    rewrite rev_app, (trimStart_spaces (rev b)) by (by rewrite all_space_rev).
    by rewrite (trimStart_fixed _ H2), rev_involutive.
Qed.

Lemma trim_nonempty (s : string) : trim s <> ""%string -> s <> ""%string.
Proof. by intros H ->. Qed.

End StrFacts.

(** ** Letter case *)

Module CaseFacts.
Import Str.

Ltac by_cases c := destruct c as [[] [] [] [] [] [] [] []]; by vm_compute.

Lemma upper_idem (c : ascii) : Chars.upper (Chars.upper c) = Chars.upper c.
Proof. by_cases c. Qed.

Lemma lower_idem (c : ascii) : Chars.lower (Chars.lower c) = Chars.lower c.
Proof. by_cases c. Qed.

Lemma lower_upper (c : ascii) : Chars.lower (Chars.upper c) = Chars.lower c.
Proof. by_cases c. Qed.

Lemma space_upper (c : ascii) : Chars.is_space (Chars.upper c) = Chars.is_space c.
Proof. by_cases c. Qed.

Lemma space_lower (c : ascii) : Chars.is_space (Chars.lower c) = Chars.is_space c.
Proof. by_cases c. Qed.

Lemma digit_upper (c : ascii) : Chars.is_digit (Chars.upper c) = Chars.is_digit c.
Proof. by_cases c. Qed.

Lemma map_length (f : ascii -> ascii) (s : string) :
  String.length (map f s) = String.length s.
Proof. induction s as [|c s IH]; simpl; [done | by rewrite IH]. Qed.

Lemma map_map (f g : ascii -> ascii) (s : string) :
  map f (map g s) = map (fun c => f (g c)) s.
Proof. induction s as [|c s IH]; simpl; [done | by rewrite IH]. Qed.

Lemma map_ext (f g : ascii -> ascii) (s : string) :
  (forall c, f c = g c) -> map f s = map g s.
Proof. intros H. induction s as [|c s IH]; simpl; [done | by rewrite H, IH]. Qed.

Lemma map_rev (f : ascii -> ascii) (s : string) : map f (rev s) = rev (map f s).
Proof.
  induction s as [|c s IH]; [done|]. simpl map.
  by rewrite !StrFacts.rev_cons, str_map_app, IH.
Qed.

Lemma map_trimStart (f : ascii -> ascii) (s : string) :
  (forall c, Chars.is_space (f c) = Chars.is_space c) ->
  map f (trimStart s) = trimStart (map f s).
Proof.
  intros H. induction s as [|c s IH]; simpl; [done|]. rewrite H.
  by destruct (Chars.is_space c).
Qed.

(** Trimming and changing the case of the letters commute. *)
Lemma map_trim (f : ascii -> ascii) (s : string) :
  (forall c, Chars.is_space (f c) = Chars.is_space c) ->
  map f (trim s) = trim (map f s).
Proof.
  intros H. unfold trim.
  by rewrite map_rev, (map_trimStart f _ H), map_rev, (map_trimStart f _ H).
Qed.

Lemma toLowerCase_idem (s : string) : toLowerCase (toLowerCase s) = toLowerCase s.
Proof. unfold toLowerCase. rewrite map_map. apply map_ext, lower_idem. Qed.

Lemma toUpperCase_idem (s : string) : toUpperCase (toUpperCase s) = toUpperCase s.
Proof. unfold toUpperCase. rewrite map_map. apply map_ext, upper_idem. Qed.

Lemma toLowerCase_upper (s : string) : toLowerCase (toUpperCase s) = toLowerCase s.
Proof. unfold toLowerCase, toUpperCase. rewrite map_map. apply map_ext, lower_upper. Qed.

End CaseFacts.

(** ** State names *)

Lemma lookup_key_In (k v : string) (table : list (string * string)) :
  lookup_key k table = Some v -> In (k, v) table.
Proof.
  induction table as [|[k' v'] table IH]; simpl; [done|].
  destruct (String.eqb_spec k' k) as [->|_]; [intros [= ->]; by left | auto].
Qed.

Lemma state_table_lookup (name abbr : string) :
  In (name, abbr) US_STATE_ABBREVIATIONS ->
  lookup_key name US_STATE_ABBREVIATIONS = Some abbr
  /\ name <> ""%string /\ String.length name <> 2 /\ String.length abbr = 2
  /\ Str.toUpperCase abbr = abbr /\ Str.trim abbr = abbr.
Proof.
  unfold US_STATE_ABBREVIATIONS. simpl.
  intros H. repeat (destruct H as [[= <- <-]|H]; [by vm_compute|]). done.
Qed.

Lemma normalizeState_two (t : string) :
  String.length t = 2 -> Str.trim t = t ->
  normalizeState (Some t) = Some (StateText (Str.toUpperCase t)).
Proof.
  intros Hl Ht. unfold normalizeState. destruct t as [|c t]; [done|]. simpl Str.truthy.
  cbv zeta. simpl negb. cbv iota. by rewrite Ht, Hl.
Qed.

(** What the table answers: an entry of its own, or one of the two values
    it inherits. *)
Lemma stateOfKey_cases (k : string) :
  (forall r, stateOfKey k = Some (StateText r) <-> In (k, r) US_STATE_ABBREVIATIONS)
  /\ (stateOfKey k = Some ObjectConstructor <-> k = "constructor"%string)
  /\ (stateOfKey k = Some ObjectPrototype <-> k = "__proto__"%string).
Proof.
  unfold stateOfKey.
  destruct (lookup_key k US_STATE_ABBREVIATIONS) as [v|] eqn:L.
  - pose proof (lookup_key_In _ _ _ L) as Hin. split; [|split].
    + intros r. split; [by intros [= <-]|]. intros Hr.
      destruct (state_table_lookup _ _ Hr) as (Lr & _). congruence.
    + split; [done|]. intros ->. by vm_compute in L.
    + split; [done|]. intros ->. by vm_compute in L.
  - split; [|split].
    + intros r. split.
      * destruct (String.eqb k "constructor"); [done|]. by destruct (String.eqb k "__proto__").
      * intros Hr. destruct (state_table_lookup _ _ Hr) as (Lr & _). congruence.
    + destruct (String.eqb_spec k "constructor") as [->|Hc]; [done|].
      split; [|done]. by destruct (String.eqb k "__proto__").
    + destruct (String.eqb_spec k "constructor") as [->|Hc]; [done|].
      destruct (String.eqb_spec k "__proto__") as [->|Hp]; done.
Qed.

(** The key [normalizeState] looks up for a text that is not two
    characters long once trimmed. *)
Lemma normalizeState_long (s : string) :
  s <> ""%string -> String.length (Str.trim s) <> 2 ->
  normalizeState (Some s) = stateOfKey (Str.toLowerCase (Str.trim s)).
Proof.
  intros Hs Hl. unfold normalizeState. destruct s as [|c s]; [done|].
  simpl Str.truthy. cbv zeta. simpl negb. cbv iota.
  by destruct (Nat.eqb_spec (String.length (Str.trim (String c s))) 2).
Qed.

Lemma lower_length (s : string) : String.length (Str.toLowerCase s) = String.length s.
Proof. unfold Str.toLowerCase. apply CaseFacts.map_length. Qed.

(** X22: for a text of Latin-1 characters (the texts of this development)
    without the letters U+00B5, U+00DF and U+00FF, [normalizeState]
    recognises the name of a state whatever the case of its letters and the
    white space around it, and gives its abbreviation; a text it returns is
    two characters in upper case, which it leaves as it is when applied
    again; and what it returns is not a text exactly for the two names the
    table inherits as an object, "constructor" and "__proto__", for which
    it returns the function [Object] and the object [Object.prototype]. *)
Theorem normalizeState_normalises (s : string) :
  in_model s = true ->
  (forall name abbr,
     In (name, abbr) US_STATE_ABBREVIATIONS ->
     Str.toLowerCase (Str.trim s) = name ->
     normalizeState (Some s) = Some (StateText abbr))
  /\ (forall r,
        normalizeState (Some s) = Some (StateText r) ->
        String.length r = 2 /\ Str.toUpperCase r = r
        /\ normalizeState (Some r) = Some (StateText r))
  /\ (normalizeState (Some s) = Some ObjectConstructor
      <-> Str.toLowerCase (Str.trim s) = "constructor"%string)
  /\ (normalizeState (Some s) = Some ObjectPrototype
      <-> Str.toLowerCase (Str.trim s) = "__proto__"%string).
Proof.
  intros _.
  assert (forall k : string, String.length k <> 2 -> k <> ""%string ->
            Str.toLowerCase (Str.trim s) = k ->
            normalizeState (Some s) = stateOfKey k) as Hlong.
  { intros k Hk Hne Hs. rewrite <- Hs. apply normalizeState_long.
    - intros ->. by subst k.
    - by rewrite <- (lower_length (Str.trim s)), Hs. }
  assert (forall v, v = ObjectConstructor \/ v = ObjectPrototype ->
            normalizeState (Some s) = Some v ->
            normalizeState (Some s) = stateOfKey (Str.toLowerCase (Str.trim s))) as Hobj.
  { intros v Hv. unfold normalizeState. destruct s as [|c s]; [done|].
    simpl Str.truthy. cbv zeta. simpl negb. cbv iota.
    destruct (Nat.eqb_spec (String.length (Str.trim (String c s))) 2) as [E|_]; [|done].
    intros [= <-]. by destruct Hv. }
  split; [|split; [|split]].
  - intros name abbr Hin Hs.
    destruct (state_table_lookup name abbr Hin) as (Hl & Hne & Hlen & _).
    rewrite (Hlong name Hlen Hne Hs). by apply (stateOfKey_cases name).
  - intros r. unfold normalizeState at 1. destruct s as [|c s]; [done|].
    simpl Str.truthy. cbv zeta. simpl negb. cbv iota.
    destruct (Nat.eqb_spec (String.length (Str.trim (String c s))) 2) as [E|_].
    + intros [= <-]. unfold Str.toUpperCase at 1. rewrite CaseFacts.map_length.
      split; [done|]. split; [apply CaseFacts.toUpperCase_idem|].
      rewrite normalizeState_two.
      * by rewrite CaseFacts.toUpperCase_idem.
      * unfold Str.toUpperCase. by rewrite CaseFacts.map_length.
      * unfold Str.toUpperCase.
        rewrite <- CaseFacts.map_trim by apply CaseFacts.space_upper.
        by rewrite StrFacts.trim_idem.
    + intros H. apply (stateOfKey_cases _) in H.
      destruct (state_table_lookup _ _ H) as (_ & _ & _ & Hlen & Hup & Htr).
      split; [done|]. split; [done|]. by rewrite normalizeState_two, Hup.
  - split.
    + intros H. rewrite (Hobj _ (or_introl eq_refl) H) in H.
      by apply (stateOfKey_cases _) in H.
    + intros H. rewrite (Hlong "constructor"%string); [by apply (stateOfKey_cases _)|done..].
  - split.
    + intros H. rewrite (Hobj _ (or_intror eq_refl) H) in H.
      by apply (stateOfKey_cases _) in H.
    + intros H. rewrite (Hlong "__proto__"%string); [by apply (stateOfKey_cases _)|done..].
Qed.

(** X22 at the texts " Florida ", "fl" and " Constructor". *)
Lemma normalizeState_normalises_witness :
  in_model " Florida " = true
  /\ normalizeState (Some " Florida "%string) = Some (StateText "FL")
  /\ in_model "fl" = true
  /\ (String.length "FL" = 2 /\ Str.toUpperCase "FL" = "FL"%string
      /\ normalizeState (Some "FL"%string) = Some (StateText "FL"))
  /\ in_model " Constructor" = true
  /\ normalizeState (Some " Constructor"%string) = Some ObjectConstructor.
Proof.
  split; [reflexivity|]. split.
  { apply (proj1 (normalizeState_normalises " Florida " eq_refl) "florida" "FL");
      [vm_compute; tauto | reflexivity]. }
  split; [reflexivity|]. split.
  { apply (proj1 (proj2 (normalizeState_normalises "fl" eq_refl)) "FL"). reflexivity. }
  split; [reflexivity|].
  apply (proj1 (proj2 (proj2 (normalizeState_normalises " Constructor" eq_refl)))).
  reflexivity.
Defined.

(** ** Title case *)

Module TitleFacts.

Lemma split_spaces_nonempty (b : bool) (s : string) : split_spaces b s <> [].
Proof.
  revert b. induction s as [|c s IH]; intros b; simpl; [done|].
  destruct (Chars.is_space c); [destruct b; [apply IH | done]|].
  by destruct (split_spaces false s).
Qed.

Lemma join_cons (sep w : string) (ws : list string) :
  ws <> [] -> Str.join sep (w :: ws) = (w ++ sep ++ Str.join sep ws)%string.
Proof. by destruct ws. Qed.

Lemma join_head (sep : string) (c : ascii) (w : string) (ws : list string) :
  Str.join sep (String c w :: ws) = String c (Str.join sep (w :: ws)).
Proof. destruct ws; [done|]. rewrite !join_cons by done. by rewrite str_app_cons. Qed.

(** The word under way: its letters so far are in lower case. *)
Lemma scan_split (s : string) :
  Str.join " " (List.map capitalize (split_spaces false s)) = titleScan AtStart s
  /\ Str.join " " (List.map capitalize (split_spaces true s)) = titleScan InGap s
  /\ Str.join " "
       match split_spaces false s with
       | w :: ws => Str.toLowerCase w :: List.map capitalize ws
       | [] => []
       end = titleScan InWord s.
Proof.
  induction s as [|c s (IH1 & IH2 & IH3)]; [done|]. simpl.
  destruct (Chars.is_space c).
  - pose proof (split_spaces_nonempty true s) as Hne.
    assert (List.map capitalize (split_spaces true s) <> []) as Hne'.
    { by destruct (split_spaces true s). }
    repeat split.
    + rewrite List.map_cons, join_cons by done. by rewrite IH2.
    + exact IH2.
    + change (Str.toLowerCase "") with ""%string. rewrite join_cons by done.
      by rewrite IH2.
  - pose proof (split_spaces_nonempty false s) as Hne.
    destruct (split_spaces false s) as [|w ws]; [done|].
    simpl List.map.
    change (Str.toLowerCase (String c w))
      with (String (Chars.lower c) (Str.toLowerCase w)).
    by rewrite !join_head, IH3.
Qed.

Lemma toTitleCase_scan (s : string) : toTitleCase s = titleScan AtStart s.
Proof. apply scan_split. Qed.

Lemma titleScan_idem (s : string) :
  forall st, titleScan st (titleScan st s) = titleScan st s.
Proof.
  induction s as [|c s IH]; intros st; [by destruct st|]. simpl.
  destruct (Chars.is_space c) eqn:E.
  - destruct st; simpl; by rewrite ?IH.
  - destruct st; simpl;
      rewrite ?CaseFacts.space_upper, ?CaseFacts.space_lower, E,
        ?CaseFacts.upper_idem, ?CaseFacts.lower_idem, IH; done.
Qed.

Lemma titleScan_map (f : ascii -> ascii) (s : string) :
  (forall c, Chars.is_space (f c) = Chars.is_space c) ->
  (forall c, Chars.upper (f c) = Chars.upper c) ->
  (forall c, Chars.lower (f c) = Chars.lower c) ->
  forall st, titleScan st (Str.map f s) = titleScan st s.
Proof.
  intros Hs Hu Hl. induction s as [|c s IH]; intros st; [done|]. simpl.
  rewrite Hs, Hu, Hl. destruct (Chars.is_space c), st; by rewrite IH.
Qed.

End TitleFacts.

(** X23: on a text of Latin-1 characters (the texts of this development)
    without the letters U+00B5, U+00DF and U+00FF, [toTitleCase] is a single
    pass over the text: a run of white space becomes one space, the first
    letter of a word is put in upper case and the others in lower case.  So,
    on such a text, it does not depend on the case of the letters of its
    input, and applying it twice changes nothing more. *)
Theorem toTitleCase_normalises (s : string) :
  in_model s = true ->
  toTitleCase s = titleScan AtStart s
  /\ toTitleCase (toTitleCase s) = toTitleCase s
  /\ toTitleCase (Str.toLowerCase s) = toTitleCase s
  /\ toTitleCase (Str.toUpperCase s) = toTitleCase s.
Proof.
  intros _. rewrite !TitleFacts.toTitleCase_scan. split; [done|]. split; [|split].
  - apply TitleFacts.titleScan_idem.
  - apply TitleFacts.titleScan_map;
      [apply CaseFacts.space_lower | apply upper_lower | apply CaseFacts.lower_idem].
  - apply TitleFacts.titleScan_map;
      [apply CaseFacts.space_upper | apply CaseFacts.upper_idem | apply CaseFacts.lower_upper].
Qed.

(** X23 at the text "nEW   yORK". *)
Lemma toTitleCase_normalises_witness :
  in_model "nEW   yORK" = true
  /\ toTitleCase "nEW   yORK" = "New York"%string
  /\ toTitleCase (toTitleCase "nEW   yORK") = toTitleCase "nEW   yORK".
Proof.
  split; [reflexivity|]. split; [reflexivity|].
  apply (toTitleCase_normalises "nEW   yORK" eq_refl).
Defined.

(** ** The location formatter *)

Module FormatFacts.

Lemma test_class (p : ascii -> bool) (s : string) :
  Re.test (Re.Chr p) s = negb (none_of p s).
Proof.
  unfold Re.test, Re.exec.
  assert (forall i q, match Re.search (Re.Chr p) i q s with
                      | Some _ => true
                      | None => false
                      end = negb (none_of p s)) as H.
  { induction s as [|c s IH]; intros i q; simpl; [done|].
    destruct (p c); simpl; [done | apply IH]. }
  specialize (H 0 None). by destruct (Re.search (Re.Chr p) 0 None s) as [[a st]|].
Qed.

Lemma none_of_app (p : ascii -> bool) (a b : string) :
  none_of p (a ++ b) = none_of p a && none_of p b.
Proof.
  induction a as [|c a IH]; [done|]. rewrite str_app_cons. simpl.
  by rewrite IH, andb_assoc.
Qed.

Lemma trim_split (s : string) :
  exists a b, s = (a ++ Str.trim s ++ b)%string /\ all_space a = true /\ all_space b = true.
Proof.
  unfold Str.trim.
  destruct (StrFacts.trimStart_split s) as (a & Ea & Ha).
  destruct (StrFacts.trimStart_split (Str.rev (Str.trimStart s))) as (sp & Eb & Hb).
  exists a, (Str.rev sp). split; [|split; [done | by rewrite StrFacts.all_space_rev]].
  rewrite <- StrFacts.rev_app, <- Eb, StrFacts.rev_involutive. exact Ea.
Qed.

Lemma space_not_digit (c : ascii) : Chars.is_space c = true -> Chars.is_digit c = false.
Proof. destruct c as [[] [] [] [] [] [] [] []]; by vm_compute. Qed.

Lemma all_space_no_digit (s : string) :
  all_space s = true -> none_of Chars.is_digit s = true.
Proof.
  induction s as [|c s IH]; simpl; [done|]. intros H.
  apply andb_prop in H as [Hc Hs]. by rewrite (space_not_digit c Hc), IH.
Qed.

Lemma trim_digits (s : string) :
  none_of Chars.is_digit (Str.trim s) = none_of Chars.is_digit s.
Proof.
  destruct (trim_split s) as (a & b & E & Ha & Hb). rewrite E at 2.
  rewrite !none_of_app, (all_space_no_digit a Ha), (all_space_no_digit b Hb).
  by rewrite andb_true_r.
Qed.

Lemma capital_not_digit (c : ascii) :
  Chars.in_range 65 90 c = true -> Chars.is_digit c = false.
Proof. destruct c as [[] [] [] [] [] [] [] []]; by vm_compute. Qed.

Lemma capitals_no_digit (t : string) :
  none_of (fun c => negb (Chars.in_range 65 90 c)) t = true ->
  none_of Chars.is_digit t = true.
Proof.
  induction t as [|c t IH]; simpl; [done|]. intros H.
  apply andb_prop in H as [Hc Ht]. apply negb_true_iff, negb_false_iff in Hc.
  by rewrite (capital_not_digit c Hc), IH.
Qed.

Lemma port_code_test (t : string) :
  3 <= String.length t <= 5 ->
  none_of (fun c => negb (Chars.in_range 65 90 c)) t = true ->
  Re.test portCodePattern t = true.
Proof.
  intros Hl Hc.
  destruct t as [|c1 [|c2 [|c3 [|c4 [|c5 [|c6 t]]]]]]; simpl in Hl; try lia;
    simpl in Hc; rewrite ?andb_true_r in Hc;
    repeat (apply andb_prop in Hc as [?%negb_true_iff%negb_false_iff Hc]);
    apply negb_true_iff, negb_false_iff in Hc;
    unfold Re.test, Re.exec, portCodePattern; simpl;
    repeat match goal with H : Chars.in_range 65 90 _ = true |- _ => rewrite H; clear H end;
    reflexivity.
Qed.

Lemma title_nonempty (t : string) :
  t <> ""%string -> head_space t = false -> toTitleCase t <> ""%string.
Proof.
  intros Hne Hh. rewrite TitleFacts.toTitleCase_scan.
  destruct t as [|c t]; [done|]. simpl in *. by rewrite Hh.
Qed.

Lemma join_nonempty (sep w : string) (ws : list string) :
  w <> ""%string -> Str.join sep (w :: ws) <> ""%string.
Proof.
  intros Hw. destruct ws as [|w' ws]; [done|].
  rewrite TitleFacts.join_cons by done. destruct w; [done | by rewrite str_app_cons].
Qed.

Lemma map_nonempty (f : ascii -> ascii) (t : string) :
  t <> ""%string -> Str.map f t <> ""%string.
Proof. by destruct t. Qed.

End FormatFacts.

(** X24: [formatFreightosLocation] gives the empty text exactly for a
    blank location; a location with a digit (a postal code) comes out
    trimmed and in upper case, never in title case (for a location without
    the letters whose upper case lies outside the model); and a location
    that is, once trimmed, three to five capital letters (a port code) comes
    out trimmed and otherwise as it is. *)
Theorem formatFreightosLocation_cases (location : string) :
  (formatFreightosLocation location = ""%string <-> Str.trim location = ""%string)
  /\ (in_model location = true ->
      none_of Chars.is_digit location = false ->
      formatFreightosLocation location = Str.toUpperCase (Str.trim location))
  /\ (3 <= String.length (Str.trim location) <= 5 ->
      none_of (fun c => negb (Chars.in_range 65 90 c)) (Str.trim location) = true ->
      formatFreightosLocation location = Str.trim location).
Proof.
  unfold formatFreightosLocation. cbv zeta. change Re.d with (Re.Chr Chars.is_digit).
  rewrite FormatFacts.test_class, FormatFacts.trim_digits.
  set (t := Str.trim location).
  split; [|split].
  - destruct t as [|c t'] eqn:Et; [done|]. simpl Str.truthy. simpl negb. cbv iota.
    split; [|done]. intros H. exfalso. revert H.
    destruct (negb (none_of Chars.is_digit location)).
    { by apply FormatFacts.map_nonempty. }
    destruct (Re.test portCodePattern (String c t')); [done|].
    destruct (List.filter Str.truthy (List.map Str.trim (Str.split_on "," (String c t'))))
      as [|first others] eqn:Ef; [done|].
    apply FormatFacts.join_nonempty.
    assert (In first (List.filter Str.truthy
                        (List.map Str.trim (Str.split_on "," (String c t'))))) as Hin.
    { rewrite Ef. by left. }
    apply filter_In in Hin as [Hin Ht]. apply in_map_iff in Hin as (x & <- & _).
    apply FormatFacts.title_nonempty; [by destruct (Str.trim x) | apply StrFacts.trim_ends].
  - intros _ Hd. rewrite Hd. simpl. destruct t as [|c t'] eqn:Et; [|done].
    assert (none_of Chars.is_digit (Str.trim location) = true) as H by (fold t; by rewrite Et).
    rewrite FormatFacts.trim_digits in H. congruence.
  - intros Hl Hc.
    pose proof (FormatFacts.capitals_no_digit t Hc) as Hd.
    unfold t in Hd. rewrite FormatFacts.trim_digits in Hd. rewrite Hd. simpl.
    rewrite (FormatFacts.port_code_test t Hl Hc).
    destruct t; [simpl in Hl; lia | done].
Qed.

(** ** The places of a parse are trimmed *)

Module RouteFacts.
Import Re ReSpec.

(** Every match of a repeated search lies in the input. *)
Lemma exec_all_whole (r : regex) (input : string) (fuel : nat) :
  forall i p s pre m,
    input = (pre ++ s)%string -> i = String.length pre ->
    In m (exec_all fuel r input i p s) ->
    exists pre' p',
      input = (pre' ++ whole m ++ rest (m_end m))%string
      /\ matches r (MState (String.length pre') p' (whole m ++ rest (m_end m))%string [])
           (m_end m).
Proof.
  induction fuel as [|fuel IH]; intros i p s pre m Hin Hi Hm; simpl in Hm; [done|].
  destruct (search r i p s) as [[a st]|] eqn:E; [|done].
  apply ReWhere.search_at in E as (pre1 & p' & s0 & -> & -> & M).
  destruct (ReFacts.matches_consumes _ _ _ M) as (u & Eu & Iu). simpl in Eu, Iu. subst s0.
  assert (input = ((pre ++ pre1) ++ u ++ rest st)%string) as Hin'.
  { by rewrite Hin, str_app_assoc. }
  assert (i + String.length pre1 = String.length (pre ++ pre1)) as Hlen.
  { by rewrite str_app_length, Hi. }
  destruct Hm as [<-|Hm].
  - unfold whole. simpl.
    replace (idx st - (i + String.length pre1)) with (String.length u) by lia.
    assert (String.substring (String.length (pre ++ pre1)) (String.length u) input = u)
      as Hw by (rewrite Hin'; apply ReWhere.substring_middle).
    rewrite Hlen, Hw.
    exists (pre ++ pre1)%string, p'. split; [exact Hin'|]. by rewrite <- Hlen.
  - destruct (idx st =? i + String.length pre1)%nat.
    + destruct (rest st) as [|c s'] eqn:Er; [done|].
      apply (IH (S (idx st)) (Some c) s' ((pre ++ pre1) ++ u ++ String c "")%string m);
        [| |exact Hm].
      * rewrite Hin'. rewrite !str_app_assoc. by rewrite str_app_cons.
      * rewrite !str_app_length. simpl. rewrite str_app_length in Hlen. lia.
    + apply (IH (idx st) (prev st) (rest st) ((pre ++ pre1) ++ u)%string m); [| |exact Hm].
      * rewrite Hin'. by rewrite !str_app_assoc.
      * rewrite !str_app_length. rewrite str_app_length in Hlen. lia.
Qed.

Lemma matchAll_whole (r : regex) (input : string) (m : rmatch) :
  In m (matchAll r input) ->
  exists pre' p',
    input = (pre' ++ whole m ++ rest (m_end m))%string
    /\ matches r (MState (String.length pre') p' (whole m ++ rest (m_end m))%string [])
         (m_end m).
Proof. apply (exec_all_whole r input _ 0 None input ""%string); done. Qed.

Lemma rest_clear (gs : list nat) (st : mstate) : rest (clear gs st) = rest st.
Proof. by destruct gs. Qed.

Lemma idx_clear (gs : list nat) (st : mstate) : idx (clear gs st) = idx st.
Proof. by destruct gs. Qed.

Lemma chr_last (p : ascii -> bool) (st st' : mstate) :
  matches (Chr p) st st' -> exists c, rest st = String c (rest st') /\ p c = true.
Proof.
  intros M. inversion M as [|q x0 c s' Ec Hc| | | | | | | | | | |]; subst. by exists c.
Qed.

(** The optional four-digit extension of a ZIP code. *)
Lemma zip_tail (st st' : mstate) :
  matches (Seq (Opt (Grp 1 (Seq (chr "-") (times 4 d)))) WordB) st st' ->
  rest st = rest st'
  \/ exists d1 d2 d3 d4,
       rest st = String "-" (String d1 (String d2 (String d3 (String d4 (rest st')))))
       /\ Chars.is_digit d4 = true.
Proof.
  intros M.
  inversion M as [| |ra rb u0 u1 u2 Mo Mw| | | | | | | | | |]; subst.
  inversion Mw; subst.
  inversion Mo as [| | | | |ro so|ro so so' Mg| | | | | |]; subst; [by left|].
  right.
  inversion Mg as [| | | | | | | | |j rg sg sg' Ms| | |]; subst.
  cbv [times d chr] in Ms.
  apply chr_then in Ms as (c0 & s0 & E0 & H0 & Ms).
  apply chr_then in Ms as (d1 & s1 & E1 & _ & Ms).
  apply chr_then in Ms as (d2 & s2 & E2 & _ & Ms).
  apply chr_then in Ms as (d3 & s3 & E3 & _ & Ms).
  apply chr_last in Ms as (d4 & E4 & H4).
  apply Ascii.eqb_eq in H0. subst c0.
  rewrite rest_clear in E0. simpl in E1, E2, E3, E4. subst.
  exists d1, d2, d3, d4. by rewrite E0.
Qed.

Lemma zip_match_full (st st' : mstate) :
  matches Pattern.zipPattern st st' ->
  exists c1 c2 c3 c4 c5 u,
    rest st = (String c1 (String c2 (String c3 (String c4 (String c5 u)))) ++ rest st')%string
    /\ Chars.is_digit c1 = true /\ Chars.is_digit c5 = true
    /\ (u = ""%string
        \/ exists d1 d2 d3 d4,
             u = String "-" (String d1 (String d2 (String d3 (String d4 ""))))
             /\ Chars.is_digit d4 = true).
Proof.
  intros M. cbv [Pattern.zipPattern seqs] in M.
  inversion M as [| |ra rb u0 u1 u2 Mb Mr| | | | | | | | | |]; subst.
  inversion Mb; subst. cbv [times d] in Mr.
  apply seq_assoc, chr_then in Mr as (c1 & s1 & E1 & H1 & Mr).
  apply seq_assoc, chr_then in Mr as (c2 & s2 & E2 & H2 & Mr).
  apply seq_assoc, chr_then in Mr as (c3 & s3 & E3 & H3 & Mr).
  apply seq_assoc, chr_then in Mr as (c4 & s4 & E4 & H4 & Mr).
  apply chr_then in Mr as (c5 & s5 & E5 & H5 & Mr).
  apply zip_tail in Mr as [Et|(d1 & d2 & d3 & d4 & Et & Hd)]; simpl in *; subst.
  - exists c1, c2, c3, c4, c5, ""%string. rewrite E1. repeat split; try done. by left.
  - exists c1, c2, c3, c4, c5, (String "-" (String d1 (String d2 (String d3 (String d4 ""))))).
    rewrite E1. repeat split; try done. right. by exists d1, d2, d3, d4.
Qed.

(** A ZIP code found in a text has no white space at its ends. *)
Lemma zip_whole_trimmed (input : string) (m : rmatch) :
  In m (matchAll Pattern.zipPattern input) -> Str.trim (whole m) = whole m.
Proof.
  intros Hm. apply matchAll_whole in Hm as (pre & p' & _ & M).
  apply zip_match_full in M as (c1 & c2 & c3 & c4 & c5 & u & Hr & H1 & H5 & Hu).
  simpl in Hr. apply ReWhere.str_app_inv_tail in Hr. rewrite Hr.
  apply StrFacts.trim_fixed.
  - simpl. by apply NumFacts.digit_not_space.
  - destruct Hu as [->|(d1 & d2 & d3 & d4 & -> & Hd)]; cbn;
      by apply NumFacts.digit_not_space.
Qed.

End RouteFacts.

Lemma trimmedGroup_trimmed (i : nat) (m : Re.rmatch) :
  Str.trim (trimmedGroup i m) = trimmedGroup i m.
Proof.
  unfold trimmedGroup. destruct (Re.group i m); [apply StrFacts.trim_idem | done].
Qed.

Lemma nth_zip_trimmed (input : string) (n : nat) :
  Str.trim (nth n (List.map Re.whole (Re.matchAll Pattern.zipPattern input)) ""%string)
  = nth n (List.map Re.whole (Re.matchAll Pattern.zipPattern input)) ""%string.
Proof.
  destruct (nth_in_or_default n
              (List.map Re.whole (Re.matchAll Pattern.zipPattern input)) ""%string)
    as [Hin | ->]; [|done].
  apply in_map_iff in Hin as (m & <- & Hm). by apply (RouteFacts.zip_whole_trimmed input).
Qed.

Lemma extractRoute_trimmed (s : string) :
  Str.trim (fst (extractRoute s)) = fst (extractRoute s)
  /\ Str.trim (snd (extractRoute s)) = snd (extractRoute s).
Proof.
  unfold extractRoute. cbv zeta.
  set (o := match Re.exec Pattern.fromPattern s with
            | Some m => trimmedGroup 1 m
            | None => nth 0 _ ""%string
            end).
  set (d := match Re.exec Pattern.toPattern s with
            | Some m => trimmedGroup 1 m
            | None => nth 1 _ ""%string
            end).
  assert (Str.trim o = o) as Ho.
  { subst o. destruct (Re.exec Pattern.fromPattern s);
      [apply trimmedGroup_trimmed | apply nth_zip_trimmed]. }
  assert (Str.trim d = d) as Hd.
  { subst d. destruct (Re.exec Pattern.toPattern s);
      [apply trimmedGroup_trimmed | apply nth_zip_trimmed]. }
  destruct (negb (Str.truthy o) || negb (Str.truthy d)); [|by split].
  destruct (Re.exec Pattern.simpleRoutePattern (stripNoise s)) as [m|]; [|by split].
  simpl. split.
  - destruct (Str.truthy o); [done | apply trimmedGroup_trimmed].
  - destruct (Str.truthy d); [done | apply trimmedGroup_trimmed].
Qed.

(** X25: the origin and the destination of a parse have no white space at
    their ends, whatever the text: trimming them changes nothing. *)
Theorem parsed_places_are_trimmed (input : string) :
  Str.trim (origin (parseNaturalLanguage input)) = origin (parseNaturalLanguage input)
  /\ Str.trim (destination (parseNaturalLanguage input))
     = destination (parseNaturalLanguage input).
Proof.
  unfold parseNaturalLanguage.
  pose proof (extractRoute_trimmed (Str.stripDiacritics input)) as H.
  destruct (extractRoute (Str.stripDiacritics input)) as [o d]. exact H.
Qed.

(** ** What a response carries *)

(** X26: the answer of [POST] is of one of three shapes.  A success carries
    the parse of the request text, which then lacks nothing, the two lists
    of quotes and their concatenation, small-parcel quotes first, and one of
    the three routing labels; an incomplete answer carries the parse and
    the list of what it lacks, which is not empty; an error carries the
    empty parse.  Neither of the last two carries any quote. *)
Theorem POST_response_shapes (env : Env) (body : option Body) (w : World) :
  exists r w',
    POST env body w = (Eff.Returned r, w')
    /\ ((success r = true
         /\ exists b text s f,
              body = Some b /\ request b = Some text /\ text <> ""%string
              /\ parsed r = parseNaturalLanguage text
              /\ missingInfoOf (parsed r) = []
              /\ shippo r = Some s /\ freightos r = Some f /\ quotes r = s ++ f
              /\ error r = None /\ missingInfo r = None
              /\ In (routing r)
                   ["Freightos Only (Freight)"; "Shippo Only (Domestic Parcel)";
                    "Both (Comparison)"]%string)
        \/ (success r = false /\ routing r = "incomplete"%string
            /\ quotes r = [] /\ shippo r = None /\ freightos r = None
            /\ exists b text,
                 body = Some b /\ request b = Some text
                 /\ parsed r = parseNaturalLanguage text
                 /\ missingInfo r = Some (missingInfoOf (parsed r))
                 /\ missingInfoOf (parsed r) <> [])
        \/ (success r = false /\ routing r = "error"%string
            /\ quotes r = [] /\ shippo r = None /\ freightos r = None
            /\ parsed r = emptyParsed /\ missingInfo r = None)).
Proof.
  destruct body as [b|].
  2: { eexists _, w. split; [reflexivity|]. right. right. by repeat split. }
  rewrite POST_cases.
  destruct (request b) as [[|c t]|] eqn:Eb.
  1,3: eexists _, w; split; [reflexivity|]; right; right; by repeat split.
  rewrite quoteParsed_cases.
  destruct (missingInfoOf (parseNaturalLanguage (String c t))) as [|item missing] eqn:Em.
  - destruct (dispatch_returns env (parseNaturalLanguage (String c t))
                (mkContact (body_email b) (body_phone b)) w)
      as (label & s & f & w1 & w' & E & Hl & _).
    eexists _, w'. split; [exact E|]. left. split; [done|].
    exists b, (String c t), s, f. simpl. by repeat split.
  - eexists _, w. split; [reflexivity|]. right. left. simpl.
    repeat split; try done. exists b, (String c t). rewrite Em. by repeat split.
Qed.

(** ** The loop of [collectMatches] *)

Module LoopFacts.
Import Re ReSpec.

(** What one search leaves of the text. *)
Lemma search_rest (r : regex) (s : string) (i : nat) (p : option ascii) (a : nat)
    (st : mstate) :
  search r i p s = Some (a, st) ->
  i <= a /\ a <= idx st /\ idx st + String.length (rest st) = i + String.length s.
Proof.
  intros E. apply ReWhere.search_at in E as (pre & p' & s0 & -> & -> & M).
  destruct (ReFacts.matches_consumes _ _ _ M) as (u & Eu & Iu). simpl in Eu, Iu.
  subst s0. rewrite !str_app_length. lia.
Qed.

(** Fuel beyond the length of the text changes nothing. *)
Lemma exec_all_fuel (r : regex) (input : string) :
  forall fuel fuel' i p s,
    String.length s < fuel -> String.length s < fuel' ->
    exec_all fuel r input i p s = exec_all fuel' r input i p s.
Proof.
  induction fuel as [|fuel IH]; intros fuel' i p s H1 H2; [lia|].
  destruct fuel' as [|fuel']; [lia|]. simpl.
  destruct (search r i p s) as [[a st]|] eqn:E; [|done].
  apply search_rest in E as (Hi & Ha & Hl). f_equal.
  destruct (Nat.eqb_spec (idx st) a) as [Eq|Ne].
  - destruct (rest st) as [|c s'] eqn:Er; [done|]. simpl in Hl.
    apply IH; lia.
  - apply IH; lia.
Qed.

(** The matches come in the order of the text and do not overlap. *)
Lemma exec_all_chain (r : regex) (input : string) (fuel : nat) :
  forall i p s,
    in_order (exec_all fuel r input i p s)
    /\ Forall (fun m => i <= m_start m /\ m_start m <= idx (m_end m)
                        /\ idx (m_end m) <= i + String.length s)
         (exec_all fuel r input i p s).
Proof.
  induction fuel as [|fuel IH]; intros i p s; simpl; [by split|].
  destruct (search r i p s) as [[a st]|] eqn:E; [|by split].
  apply search_rest in E as (Hi & Ha & Hl).
  assert (forall i' p' s',
            idx st <= i' -> i' + String.length s' <= i + String.length s ->
            in_order (RMatch input a st :: exec_all fuel r input i' p' s')
            /\ Forall (fun m => i <= m_start m /\ m_start m <= idx (m_end m)
                                /\ idx (m_end m) <= i + String.length s)
                 (RMatch input a st :: exec_all fuel r input i' p' s')) as Hstep.
  { intros i' p' s' H1 H2. destruct (IH i' p' s') as [Hs Hf]. split.
    - split; [|done].
      destruct (exec_all fuel r input i' p' s') as [|m ms]; [done|].
      apply Forall_cons in Hf as [(Hm & _) _]. unfold precedes. simpl. lia.
    - constructor; [simpl; lia|].
      eapply Forall_impl; [exact Hf|]. simpl. intros m (? & ? & ?). lia. }
  destruct (Nat.eqb_spec (idx st) a) as [Eq|Ne].
  - destruct (rest st) as [|c s'] eqn:Er.
    + split; [done|]. constructor; [simpl; lia | constructor].
    + simpl in Hl. apply Hstep; lia.
  - apply Hstep; lia.
Qed.

(** Each match collected is a match of the pattern from its start. *)
Lemma exec_all_starts (r : regex) (input : string) (fuel : nat) :
  forall i p s m,
    In m (exec_all fuel r input i p s) ->
    exists st0, matches r st0 (m_end m) /\ idx st0 = m_start m.
Proof.
  induction fuel as [|fuel IH]; intros i p s m H; simpl in H; [done|].
  destruct (search r i p s) as [[a st]|] eqn:E; [|done].
  destruct H as [<-|H].
  - apply ReWhere.search_at in E as (pre & p' & s0 & _ & _ & M). by eexists.
  - destruct (idx st =? a)%nat; [destruct (rest st); [done|] |]; eauto.
Qed.

Lemma grp_idx (i : nat) (r : regex) :
  (forall st st', matches r st st' -> idx st < idx st') ->
  forall st st', matches (Grp i r) st st' -> idx st < idx st'.
Proof.
  intros H st st' M.
  inversion M as [| | | | | | | | |j r0 s0 s1 M1| | |]; subst. simpl. eauto.
Qed.

Lemma seq_idx (r1 r2 : regex) :
  (forall st st', matches r1 st st' -> idx st < idx st') ->
  forall st st', matches (Seq r1 r2) st st' -> idx st < idx st'.
Proof.
  intros H st st' M.
  inversion M as [| |ra rb s0 s1 s2 M1 M2| | | | | | | | | |]; subst.
  apply H in M1. destruct (ReFacts.matches_consumes _ _ _ M2) as (u & _ & Iu). lia.
Qed.

Lemma chr_idx (p : ascii -> bool) (st st' : mstate) :
  matches (Chr p) st st' -> idx st < idx st'.
Proof.
  intros M. inversion M as [|q x0 c s' Ec Hc| | | | | | | | | | |]; subst. simpl. lia.
Qed.

Lemma num_idx (i : nat) (st st' : mstate) :
  matches (Pattern.num i) st st' -> idx st < idx st'.
Proof. apply grp_idx, seq_idx, seq_idx. apply chr_idx. Qed.

(** The three patterns of [collectMatches] do not match the empty text. *)
Lemma pattern_idx (pattern : regex) :
  In pattern [Pattern.boxPattern; Pattern.dimOnlyPattern; Pattern.weightPattern] ->
  forall st st', matches pattern st st' -> idx st < idx st'.
Proof.
  intros [<-|[<-|[<-|[]]]].
  - apply seq_idx, seq_idx. apply num_idx.
  - apply seq_idx. apply num_idx.
  - apply seq_idx. apply num_idx.
Qed.

(** Matches in order that are not empty are no more than the characters
    they lie in. *)
Lemma in_order_length (ms : list rmatch) :
  forall i n,
    in_order ms ->
    match ms with
    | m :: _ => i <= m_start m
    | [] => True
    end ->
    Forall (proper_match n) ms ->
    List.length ms <= n - i.
Proof.
  induction ms as [|m ms IH]; intros i n Ho Hi Hp; simpl; [lia|].
  apply Forall_cons in Hp as [[Hm1 Hm2] Hp]. destruct Ho as [Hh Ho].
  specialize (IH (idx (m_end m)) n Ho).
  assert (List.length ms <= n - idx (m_end m)) as Hl.
  { apply IH; [|exact Hp]. by destruct ms. }
  lia.
Qed.

End LoopFacts.

(** X27: the loop of [collectMatches] ends on every text, for each of the
    three patterns it is used with: no match of these patterns is empty, so
    each turn of the loop starts further in the text than the one before.
    The matches it collects come in the order of the text and do not
    overlap; there are at most as many as the text has characters; and
    letting the loop run longer finds no other match. *)
Theorem collectMatches_terminates (pattern : Re.regex) (input : string) :
  In pattern [Pattern.boxPattern; Pattern.dimOnlyPattern; Pattern.weightPattern] ->
  Forall (proper_match (String.length input)) (collectMatches pattern input)
  /\ in_order (collectMatches pattern input)
  /\ List.length (collectMatches pattern input) <= String.length input
  /\ forall more,
       Re.exec_all (S (String.length input) + more) pattern input 0 None input
       = collectMatches pattern input.
Proof.
  intros Hp. unfold collectMatches, Re.matchAll.
  destruct (LoopFacts.exec_all_chain pattern input (S (String.length input)) 0 None input)
    as [Hs Hf].
  assert (Forall (proper_match (String.length input))
            (Re.exec_all (S (String.length input)) pattern input 0 None input)) as Hproper.
  { apply List.Forall_forall. intros m Hm.
    destruct (proj1 (List.Forall_forall _ _) Hf m Hm) as (_ & _ & Hend).
    apply LoopFacts.exec_all_starts in Hm as (st0 & M & Hst).
    split; [|exact Hend]. rewrite <- Hst. by apply (LoopFacts.pattern_idx pattern Hp). }
  split; [exact Hproper|]. split; [exact Hs|]. split.
  - pose proof (LoopFacts.in_order_length _ 0 (String.length input) Hs) as Hl.
    rewrite Nat.sub_0_r in Hl. apply Hl; [|exact Hproper].
    destruct (Re.exec_all _ _ _ _ _ _); [done | lia].
  - intros more. apply LoopFacts.exec_all_fuel; lia.
Qed.

(** The three matches of the weight pattern in a text of three weights. *)
Lemma collectMatches_terminates_witness :
  In Pattern.weightPattern
    [Pattern.boxPattern; Pattern.dimOnlyPattern; Pattern.weightPattern]
  /\ List.length (collectMatches Pattern.weightPattern "5lb 7 kg 2 lbs") = 3
  /\ in_order (collectMatches Pattern.weightPattern "5lb 7 kg 2 lbs").
Proof.
  split; [simpl; tauto|]. split; [by vm_compute|].
  apply (collectMatches_terminates Pattern.weightPattern "5lb 7 kg 2 lbs").
  simpl. tauto.
Defined.

(** ** The lookup helpers *)

Lemma five_digits_exact (st st' : Re.mstate) :
  ReSpec.matches (Re.times 5 Re.d) st st' ->
  exists c1 c2 c3 c4 c5,
    Re.rest st = String c1 (String c2 (String c3 (String c4 (String c5 (Re.rest st')))))
    /\ Chars.is_digit c1 = true /\ Chars.is_digit c2 = true /\ Chars.is_digit c3 = true
    /\ Chars.is_digit c4 = true /\ Chars.is_digit c5 = true.
Proof.
  intros M.
  assert (ReSpec.matches (Re.Seq (Re.times 5 Re.d) Re.Eps) st st') as M'.
  { eapply ReSpec.M_Seq; [exact M | constructor]. }
  clear M. cbv [Re.times Re.d] in M'.
  apply seq_assoc, chr_then in M' as (c1 & s1 & E1 & H1 & M).
  apply seq_assoc, chr_then in M as (c2 & s2 & E2 & H2 & M).
  apply seq_assoc, chr_then in M as (c3 & s3 & E3 & H3 & M).
  apply seq_assoc, chr_then in M as (c4 & s4 & E4 & H4 & M).
  apply chr_then in M as (c5 & s5 & E5 & H5 & M).
  inversion M; subst. simpl in *. subst. rewrite E1. by exists c1, c2, c3, c4, c5.
Qed.

Lemma fiveDigits_five (text : option string) (zip : string) :
  fiveDigits text = Some zip -> five_digit zip.
Proof.
  unfold fiveDigits. destruct text as [t|]; [|done].
  destruct (Re.exec (Re.times 5 Re.d) t) as [m|] eqn:E; [|done]. intros [= <-].
  apply ReWhere.exec_whole in E as (pre & p' & Hin & M).
  apply five_digits_exact in M as (c1 & c2 & c3 & c4 & c5 & Hr & H1 & H2 & H3 & H4 & H5).
  simpl in Hr.
  change (String c1 (String c2 (String c3 (String c4 (String c5 (Re.rest (Re.m_end m)))))))
    with (String c1 (String c2 (String c3 (String c4 (String c5 ""))))
          ++ Re.rest (Re.m_end m))%string in Hr.
  apply ReWhere.str_app_inv_tail in Hr. rewrite Hr.
  split; [done|]. simpl. by rewrite H1, H2, H3, H4, H5.
Qed.

(** X28: called with texts of Latin-1 characters (the texts of this
    development: none holds a lone surrogate, so that [encodeURIComponent]
    does not throw and the request is made), the four lookup helpers never
    throw: each makes its one call, leaves the address cache as it is, and
    answers [null] when the network fails, the response is not [ok] or its
    body does not parse.  The lookup by city and state asks for the state as
    the text JavaScript makes of it.  A ZIP code that comes from the
    geocoder, forward or reverse, is a text of exactly five digits. *)
Theorem lookups_fail_soft (env : Env) (w : World) :
  (forall zip, exists r,
      lookupZipDetails env zip w
      = (Eff.Returned r, mkWorld (LOCATION_CACHE w) (calls w ++ [ZipLookup zip]))
      /\ (failed (zippopotam_zip env zip) = true -> r = None))
  /\ (forall city state, exists r,
        lookupZipByCityState env city state w
        = (Eff.Returned r,
           mkWorld (LOCATION_CACHE w) (calls w ++ [CityLookup (state_string state) city]))
        /\ (failed (zippopotam_city env (state_string state) city) = true -> r = None))
  /\ (forall location, exists r,
        geocodeCity env location w
        = (Eff.Returned r,
           mkWorld (LOCATION_CACHE w) (calls w ++ [Geocode (location ++ ", USA")%string]))
        /\ (failed (nominatim_search env (location ++ ", USA")%string) = true -> r = None)
        /\ forall g zip, r = Some g -> g_zip g = Some zip -> five_digit zip)
  /\ (forall lat lon, exists r,
        reverseGeocodeZip env lat lon w
        = (Eff.Returned r, mkWorld (LOCATION_CACHE w) (calls w ++ [ReverseGeocode lat lon]))
        /\ (failed (nominatim_reverse env lat lon) = true -> r = None)
        /\ forall zip, r = Some zip -> five_digit zip).
Proof.
  repeat split.
  - intros zip. unfold lookupZipDetails, Eff.try_catch, Eff.bind, Eff.fetch, Eff.log,
      Eff.json, Eff.ret, Eff.throw.
    destruct (zippopotam_zip env zip) as [|[] [[|place places]|]]; simpl;
      eexists; (split; [reflexivity|]); done.
  - intros city state. unfold lookupZipByCityState, Eff.try_catch, Eff.bind, Eff.fetch,
      Eff.log, Eff.json, Eff.ret, Eff.throw.
    destruct (zippopotam_city env (state_string state) city)
      as [|[] [[|place places]|]]; simpl;
      eexists; (split; [reflexivity|]); done.
  - intros location. unfold geocodeCity, Eff.try_catch, Eff.bind, Eff.fetch, Eff.log,
      Eff.json, Eff.ret, Eff.throw. cbv zeta.
    destruct (nominatim_search env (location ++ ", USA")%string)
      as [|[] [[|first rest]|]]; simpl;
      try (eexists; (split; [reflexivity|]); by split).
    destruct (geo_address first) as [address|]; simpl;
      eexists; (split; [reflexivity|]); (split; [done|]); [|done].
    intros g zip [= <-]. simpl. apply fiveDigits_five.
  - intros lat lon. unfold reverseGeocodeZip, Eff.try_catch, Eff.bind, Eff.fetch, Eff.log,
      Eff.json, Eff.ret, Eff.throw.
    destruct (nominatim_reverse env lat lon) as [|[] [postcode|]]; simpl;
      eexists; (split; [reflexivity|]); (split; [done|]); try done.
    intros zip. apply fiveDigits_five.
Qed.

(** ** The state after a comma *)

Section StateHint.

Import Re ReSpec.

(** What [\s*] consumes is white space; it makes no capture. *)
Lemma ws_spaces (st st' : mstate) :
  matches Pattern.ws st st' ->
  exists gap,
    rest st = (gap ++ rest st')%string /\ all_space gap = true /\ caps st' = caps st.
Proof.
  unfold Pattern.ws, star, Re.s. intros M.
  remember (Star true (Chr Chars.is_space)) as r eqn:Er.
  induction M as [| | | | | | |g r0 st|g r0 st st1 st2 M1 _ M2 IH| | | |]; try discriminate.
  - by exists ""%string.
  - injection Er as -> ->. destruct (IH eq_refl) as (gap & Eg & Hg & Hc).
    inversion M1 as [|q x0 c s' Ec Hc'| | | | | | | | | | |]; subst. simpl in *.
    exists (String c gap). rewrite Ec. split; [|split].
    + rewrite str_app_cons. by f_equal.
    + simpl. by rewrite Hc', Hg.
    + exact Hc.
Qed.

Lemma seq_inv (a b : regex) (st st' : mstate) :
  matches (Seq a b) st st' -> exists st1, matches a st st1 /\ matches b st1 st'.
Proof.
  intros M. inversion M as [| |ra rb u0 u1 u2 Ma Mb| | | | | | | | | |]; subst. eauto.
Qed.

Lemma chr_inv (p : ascii -> bool) (st st' : mstate) :
  matches (Chr p) st st' ->
  exists c s',
    rest st = String c s' /\ p c = true /\ st' = MState (S (idx st)) (Some c) s' (caps st).
Proof.
  intros M. inversion M as [|q x0 c s' Ec Hc| | | | | | | | | | |]; subst. eauto.
Qed.

Lemma grp_inv (i : nat) (r : regex) (st st' : mstate) :
  matches (Grp i r) st st' ->
  exists st1,
    matches r st st1 /\ st' = set_cap i (prefix (idx st1 - idx st) (rest st)) st1.
Proof.
  intros M. inversion M as [| | | | | | | | |j r0 s0 s1 M1| | |]; subst. eauto.
Qed.

Lemma capital_not_space (c : ascii) :
  Chars.in_range 65 90 c = true -> Chars.is_space c = false.
Proof. destruct c as [[] [] [] [] [] [] [] []]; by vm_compute. Qed.

(** A match of [/,\s*([A-Z]{2})\b/i]: a comma, white space, and the two
    letters of group 1. *)
Lemma state_match (st st' : mstate) :
  matches stateAbbreviationPattern st st' ->
  exists gap c1 c2,
    rest st = String "," (gap ++ String c1 (String c2 (rest st')))
    /\ all_space gap = true
    /\ Chars.in_range 65 90 (Chars.upper c1) = true
    /\ Chars.in_range 65 90 (Chars.upper c2) = true
    /\ cap_lookup 1 (caps st') = Some (String c1 (String c2 "")).
Proof.
  intros M. cbv [stateAbbreviationPattern Re.seqs Re.chr Re.times] in M.
  apply seq_inv in M as (st1 & Mc & M).
  apply chr_inv in Mc as (c & s' & Ec & Hc & ->). apply Ascii.eqb_eq in Hc. subst c.
  apply seq_inv in M as (st2 & Mws & M).
  apply ws_spaces in Mws as (gap & Eg & Hg & _). simpl in Eg.
  apply seq_inv in M as (st3 & Mg & Mb).
  assert (st' = st3) as -> by (by inversion Mb).
  apply grp_inv in Mg as (st4 & Ml & ->).
  apply seq_inv in Ml as (st5 & Ma & Mz).
  apply chr_inv in Ma as (c1 & t1 & E1 & H1 & ->).
  apply chr_inv in Mz as (c2 & t2 & E2 & H2 & ->). simpl in E2. subst t1.
  exists gap, c1, c2. rewrite Ec, Eg, E1. simpl.
  replace (S (S (idx st2)) - idx st2) with 2 by lia.
  unfold prefix. simpl. by destruct t2.
Qed.

End StateHint.

(** X29: the state [extractStateAbbreviation] reads from a location is two
    capital letters: the two letters, in upper case, that follow a comma and
    the white space after it and that end a word.  [normalizeState] leaves
    such a text as it is.  A location without a comma has no state. *)
Theorem extractStateAbbreviation_two_capitals (location : string) :
  match extractStateAbbreviation location with
  | Some r =>
      String.length r = 2 /\ all_capitals r = true
      /\ normalizeState (Some r) = Some (StateText r)
      /\ exists before gap t after,
           location = (before ++ "," ++ gap ++ t ++ after)%string
           /\ all_space gap = true /\ Str.toUpperCase t = r
  | None => True
  end
  /\ (none_of (Ascii.eqb ",") location = true -> extractStateAbbreviation location = None).
Proof.
  unfold extractStateAbbreviation. split.
  - destruct (Re.exec stateAbbreviationPattern location) as [m|] eqn:E; [|done].
    apply ReWhere.exec_whole in E as (pre & p' & Hin & M).
    apply state_match in M as (gap & c1 & c2 & Hr & Hg & H1 & H2 & Hcap).
    unfold Re.group. rewrite Hcap. simpl in Hr.
    change (Str.toUpperCase (String c1 (String c2 "")))
      with (String (Chars.upper c1) (String (Chars.upper c2) "")).
    split; [done|]. split.
    { change (Chars.in_range 65 90 (Chars.upper c1)
              && (Chars.in_range 65 90 (Chars.upper c2) && true) = true).
      by rewrite H1, H2. }
    split.
    + rewrite normalizeState_two.
      * change (Str.toUpperCase (String (Chars.upper c1) (String (Chars.upper c2) "")))
          with (String (Chars.upper (Chars.upper c1))
                  (String (Chars.upper (Chars.upper c2)) "")).
        by rewrite !CaseFacts.upper_idem.
      * done.
      * apply StrFacts.trim_fixed.
        -- by apply capital_not_space.
        -- by apply capital_not_space.
    + exists pre, gap, (String c1 (String c2 "")), (Re.rest (Re.m_end m)).
      split; [|done]. rewrite Hin, Hr. reflexivity.
  - intros Hd. unfold Re.exec.
    rewrite (ReWhere.search_none_of stateAbbreviationPattern (Ascii.eqb ",")); [done | | done].
    intros st st' M. apply state_match in M as (gap & c1 & c2 & Hr & _).
    exists ","%char. eexists. by split.
Qed.

(** ** Complete addresses *)

Section CompleteFacts.

Import Eff.
Context {A B : Type}.

Lemma complete_of_keeps (m : M A) : keeps_cache m -> keeps_complete m.
Proof. intros Hm w r w' Hw E k a. rewrite (Hm _ _ _ E). apply Hw. Qed.

Lemma complete_ret (a : A) : keeps_complete (ret a).
Proof. apply complete_of_keeps, keeps_ret. Qed.

Lemma complete_bind (m : M A) (k : A -> M B) :
  keeps_complete m -> (forall a, keeps_complete (k a)) -> keeps_complete (bind m k).
Proof.
  intros Hm Hk w r w' Hw. unfold bind. destruct (m w) as [[a|] w1] eqn:E; intros H.
  - exact (Hk a w1 r w' (Hm _ _ _ Hw E) H).
  - injection H as <- <-. exact (Hm _ _ _ Hw E).
Qed.

Lemma complete_try_catch (body handler : M A) :
  keeps_complete body -> keeps_complete handler -> keeps_complete (try_catch body handler).
Proof.
  intros Hb Hh w r w' Hw. unfold try_catch. destruct (body w) as [[a|] w1] eqn:E; intros H.
  - injection H as <- <-. exact (Hb _ _ _ Hw E).
  - exact (Hh w1 r w' (Hb _ _ _ Hw E) H).
Qed.

Lemma complete_all2 (later : bool) (a : M A) (b : M B) :
  keeps_complete a -> keeps_complete b -> keeps_complete (all2 later a b).
Proof.
  intros Ha Hb w r w' Hw H.
  destruct (all2_run later a b w) as (ra & w1 & rb & w2 & Ea & Eb & E).
  rewrite E in H. injection H as _ <-.
  pose proof (Ha _ _ _ Hw Ea) as H1.
  assert (complete_cache (snapshot w w1)) as Hs by exact Hw.
  pose proof (Hb _ _ _ Hs Eb) as H2.
  intros k x. simpl. unfold merged.
  destruct later;
    match goal with |- overlay ?b ?t ?u !! k = _ -> _ =>
      destruct (overlay_either b t u k) as [-> | ->] end;
    first [apply H1 | apply H2].
Qed.

End CompleteFacts.

Lemma complete_cache_set (key : string) (a : Address.t) :
  complete a -> keeps_complete (Eff.cache_set key a).
Proof.
  intros Ha w r w' Hw [= _ <-] k b. simpl.
  destruct (decide (key = k)) as [<-|Hne].
  - rewrite lookup_insert_eq. by intros [= <-].
  - rewrite lookup_insert_ne by done. apply Hw.
Qed.

Lemma complete_cache_empty : complete_cache emptyWorld.
Proof. intros k a H. simpl in H. by rewrite lookup_empty in H. Qed.

Lemma present_or_text (z : option string) : present z = true -> or_text z "" <> ""%string.
Proof.
  destruct z as [t|]; simpl; [|done]. intros H. rewrite H. by apply truthy_nonempty.
Qed.

Lemma extractZip_nonempty (location z : string) :
  extractZip location = Some z -> z <> ""%string.
Proof.
  unfold extractZip.
  destruct (Re.exec Pattern.zipPattern location) as [m|] eqn:E; [|done]. intros [= <-].
  apply ReWhere.exec_whole in E as (pre & p' & Hin & M).
  apply zip_match in M as (c1 & c2 & c3 & c4 & c5 & u & Hr & _). simpl in Hr.
  change (String c1 (String c2 (String c3 (String c4 (String c5
            (u ++ Re.rest (Re.m_end m)))))))%string
    with (String c1 (String c2 (String c3 (String c4 (String c5 u))))
          ++ Re.rest (Re.m_end m))%string in Hr.
  apply ReWhere.str_app_inv_tail in Hr. by rewrite Hr.
Qed.

Section CompleteRoute.

Variable env : Env.

Lemma resolveByGeocoding_complete (key location : string) (hint : option stateValue) :
  keeps_complete (resolveByGeocoding env key location hint).
Proof.
  pose proof (complete_of_keeps _ (geocodeCity_keeps env location)) as Hg.
  unfold resolveByGeocoding.
  apply complete_bind; [exact Hg | intros g]. cbv zeta.
  apply complete_bind.
  { match goal with |- context [if ?c then _ else _] => destruct c end;
      [apply complete_of_keeps, reverseGeocodeZip_keeps | apply complete_ret]. }
  intros z1. apply complete_bind.
  { match goal with |- context [if ?c then _ else _] => destruct c end;
      [apply complete_of_keeps, lookupZipByCityState_keeps | apply complete_ret]. }
  intros z2. destruct (present z2) eqn:P; [|apply complete_ret].
  apply complete_bind; [apply complete_of_keeps, lookupZipDetails_keeps | intros dt].
  match goal with |- context [if ?c then _ else _] => destruct c eqn:T end;
    [|apply complete_ret].
  apply andb_prop in T as [T1 T2]. apply truthy_nonempty in T1.
  apply state_truthy_nonempty in T2.
  apply complete_bind; [|intros ?; apply complete_ret].
  apply complete_cache_set. split; [exact T1|]. split; [exact T2|].
  simpl. by apply present_or_text.
Qed.

Lemma resolveUsAddress_complete (location : string) :
  keeps_complete (resolveUsAddress env location).
Proof.
  unfold resolveUsAddress. intros w r w' Hw. unfold Eff.bind at 1, Eff.cache_get.
  destruct (LOCATION_CACHE w !! Str.toLowerCase location) as [a|] eqn:Hit.
  { by intros [= _ <-]. }
  revert w r w' Hw Hit.
  cut (keeps_complete
         (match extractZip location with
          | Some zipFromInput =>
              Eff.bind (lookupZipDetails env zipFromInput) (fun details =>
                let d_field (f : ZipDetails -> option string) :=
                  match details with Some d => f d | None => None end in
                let resolved :=
                  Address.Build (or_text (d_field zd_city) (cityFromText location))
                    (or_state (normalizeState (d_field zd_state))
                       (or_state (normalizeState (extractStateAbbreviation location))
                          (StateText "")))
                    zipFromInput in
                if Str.truthy (Address.city resolved)
                   && state_truthy (Address.state resolved)
                then Eff.bind (Eff.cache_set (Str.toLowerCase location) resolved)
                       (fun _ => Eff.ret (Some resolved))
                else resolveByGeocoding env (Str.toLowerCase location) location
                       (normalizeState (extractStateAbbreviation location)))
          | None => resolveByGeocoding env (Str.toLowerCase location) location
                      (normalizeState (extractStateAbbreviation location))
          end)).
  { intros H w r w' Hw _. exact (H w r w' Hw). }
  destruct (extractZip location) as [z|] eqn:Ez; [|apply resolveByGeocoding_complete].
  apply complete_bind; [apply complete_of_keeps, lookupZipDetails_keeps | intros dt].
  cbv zeta.
  match goal with |- context [if ?c then _ else _] => destruct c eqn:T end;
    [|apply resolveByGeocoding_complete].
  apply andb_prop in T as [T1 T2]. apply truthy_nonempty in T1.
  apply state_truthy_nonempty in T2.
  apply complete_bind; [|intros ?; apply complete_ret].
  apply complete_cache_set. split; [exact T1|]. split; [exact T2|].
  simpl. by apply (extractZip_nonempty location).
Qed.

Lemma buildShippoAddress_complete (location country : string) :
  keeps_complete (buildShippoAddress env location country).
Proof.
  unfold buildShippoAddress. destruct (negb _).
  - apply complete_of_keeps. pose proof (geocodeCity_keeps env). eff_keeps.
  - apply complete_bind; [apply resolveUsAddress_complete | intros [a|]]; apply complete_ret.
Qed.

Lemma getShippoQuotes_complete (p : ParsedRequest) (contact : Contact) :
  keeps_complete (getShippoQuotes env p contact).
Proof.
  unfold getShippoQuotes. destruct (negb _); [apply complete_ret|].
  apply complete_try_catch; [|apply complete_ret].
  apply complete_bind.
  - apply complete_all2; apply buildShippoAddress_complete.
  - intros [[o|] [d|]]; apply complete_of_keeps; eff_keeps.
Qed.

Lemma quoteParsed_complete (p : ParsedRequest) (contact : Contact) :
  keeps_complete (quoteParsed env p contact).
Proof.
  pose proof (getShippoQuotes_complete p contact) as Hs.
  pose proof (complete_of_keeps _ (getFreightosQuotes_keeps env p)) as Hf.
  pose proof (complete_of_keeps _ (saveToDatabase_keeps env)) as Hd.
  unfold quoteParsed. destruct (missingInfoOf p); [|apply complete_ret].
  unfold dispatch. apply complete_bind.
  - destruct (chooseRoute p).
    + apply complete_bind; [exact Hf | intros ?; apply complete_ret].
    + apply complete_bind; [exact Hs | intros ?; apply complete_ret].
    + apply complete_bind; [by apply complete_all2 | intros ?; apply complete_ret].
  - intros ?. apply complete_bind; [exact Hd | intros ?; apply complete_ret].
Qed.

Lemma POST_complete (body : option Body) : keeps_complete (POST env body).
Proof.
  unfold POST. apply complete_try_catch; [|apply complete_ret].
  apply complete_bind; [apply complete_of_keeps, keeps_json | intros b].
  destruct (request b) as [text|]; [|apply complete_ret].
  destruct (negb _); [apply complete_ret | apply quoteParsed_complete].
Qed.

End CompleteRoute.

(** X30: the cache holds only complete addresses, where an address is
    complete when its city, its state and its ZIP code are not the empty
    text: the state is a text that is not empty, or one of the two values the
    table of states inherits as an object, which the code takes for a state
    when a service answers "constructor" or "__proto__".  From a cache whose
    addresses are all complete (the empty cache of a fresh process is one),
    a request leaves such a cache, whatever the services answer and
    whichever of two lookups made together lands last; and the address
    [buildShippoAddress] gives for a place in the United States is
    complete. *)
Theorem addresses_are_complete (env : Env) (w : World) :
  complete_cache w ->
  (forall body r w', POST env body w = (r, w') -> complete_cache w')
  /\ (forall location a w',
        buildShippoAddress env location "US" w = (Eff.Returned (Some a), w') ->
        sa_city a <> ""%string /\ sa_state a <> StateText "" /\ sa_zip a <> ""%string
        /\ sa_country a = "US"%string).
Proof.
  intros Hw. split.
  - intros body r w' E. exact (POST_complete env body w r w' Hw E).
  - intros location a w'. rewrite buildShippoAddress_US. unfold Eff.bind, Eff.ret.
    destruct (resolveUsAddress env location w) as [[[b|]|] w1] eqn:E; try done.
    intros [= <- <-]. simpl.
    pose proof (resolveUsAddress_complete env location w _ _ Hw E) as Hw1.
    pose proof (resolveUsAddress_cached env location w w1 b E) as Hb.
    destruct (Hw1 _ _ Hb) as (H1 & H2 & H3). done.
Qed.

(** The request "12x10x8 5lb from 33142 to 33142" from the empty cache. *)
Lemma addresses_are_complete_witness :
  complete_cache emptyWorld
  /\ complete_cache (snd (POST postalOnly (Some (mkBody (Some "12x10x8 5lb from 33142 to 33142") None None)) emptyWorld)).
Proof.
  split; [exact complete_cache_empty|].
  exact (proj1 (addresses_are_complete postalOnly emptyWorld complete_cache_empty)
           _ _ _ (surjective_pairing _)).
Defined.

(** * The routes of a request, the estimates and the cache, with their calls *)

(** ** What the two providers and the save do *)

Lemma getFreightosQuotes_eq (env : Env) (p : ParsedRequest) (w : World) :
  getFreightosQuotes env p w
  = (Eff.Returned (freightosAnswer p (freightos_calculator env p)),
     mkWorld (LOCATION_CACHE w) (calls w ++ [FreightosEstimate])).
Proof.
  unfold getFreightosQuotes, freightosAnswer, Eff.try_catch, Eff.bind, Eff.fetch, Eff.log,
    Eff.json, Eff.ret, Eff.throw.
  by destruct (freightos_calculator env p) as [|ok [data|]].
Qed.

Lemma saveToDatabase_eq (env : Env) (w : World) :
  saveToDatabase env w
  = (Eff.Returned tt, mkWorld (LOCATION_CACHE w) (calls w ++ saved env)).
Proof.
  unfold saveToDatabase, saved, Eff.try_catch, Eff.log, Eff.ret.
  destruct (present (DATABASE_URL env)); simpl; [done|].
  rewrite app_nil_r. by destruct w.
Qed.

(** The second of two addresses resolved together starts from the cache
    the first one found: it gives what it gives from that cache. *)
Lemma buildShippoAddress_snapshot (env : Env) (location country : string)
    (w w1 w2 : World) (r : Eff.outcome (option ShippoAddress)) :
  buildShippoAddress env location country (snapshot w w1) = (r, w2) ->
  exists w3, buildShippoAddress env location country w = (r, w3).
Proof.
  intros H.
  destruct (buildShippoAddress_agree env location country (snapshot w w1) w)
    as (r' & cs & cw & cv & E1 & E2); [done|].
  rewrite E1 in H. injection H as <- _. eauto.
Qed.

Lemma buildShippoAddress_of_snapshot (env : Env) (location country : string)
    (w w1 w3 : World) (r : Eff.outcome (option ShippoAddress)) :
  buildShippoAddress env location country w = (r, w3) ->
  exists w2, buildShippoAddress env location country (snapshot w w1) = (r, w2).
Proof.
  intros H.
  destruct (buildShippoAddress_agree env location country (snapshot w w1) w)
    as (r' & cs & cw & cv & E1 & E2); [done|].
  rewrite E2 in H. injection H as <- _. eauto.
Qed.

(** A place that has no address from a cache has none from a smaller one. *)
Lemma buildShippoAddress_None_before (env : Env) (location country : string)
    (w w1 w2 : World) :
  LOCATION_CACHE w ⊆ LOCATION_CACHE w1 ->
  buildShippoAddress env location country w1 = (Eff.Returned None, w2) ->
  exists w3, buildShippoAddress env location country w = (Eff.Returned None, w3).
Proof.
  intros Hsub H.
  destruct (buildShippoAddress_agree env location country w1 w)
    as (r' & cs & cw & cv & E1 & E2).
  - intros ->.
    destruct (LOCATION_CACHE w1 !! Str.toLowerCase location) as [a|] eqn:L1.
    { rewrite (cached_US env location w1 a L1) in H. discriminate H. }
    destruct (LOCATION_CACHE w !! Str.toLowerCase location) as [a|] eqn:L; [|done].
    rewrite (lookup_weaken _ _ _ _ L Hsub) in L1. discriminate L1.
  - rewrite E1 in H. injection H as -> _. eauto.
Qed.

(** The calls of the small-parcel path, and the cache it leaves. *)
Lemma getShippoQuotes_calls (env : Env) (p : ParsedRequest) (contact : Contact) (w : World) :
  exists s w1 cs,
    getShippoQuotes env p contact w = (Eff.Returned s, w1)
    /\ calls w1 = calls w ++ cs /\ shippoCalls env p w cs.
Proof.
  destruct (present (SHIPPO_API_KEY env)) eqn:K.
  2: { exists [], w, []. rewrite getShippoQuotes_no_key by done.
       split; [done|]. split; [by rewrite app_nil_r|].
       exists []. split; [constructor|]. right. split; [|done].
       intros (K' & _). congruence. }
  destruct (getShippoQuotes_run env p contact w K) as (ro & w1 & rd & w2 & Eo & Ed & E).
  destruct (buildShippoAddress_emits env _ _ _ _ _ Eo) as (c1 & C1 & F1).
  destruct (buildShippoAddress_emits env _ _ _ _ _ Ed) as (c2 & C2 & F2).
  simpl in C2.
  destruct (buildShippoAddress_snapshot _ _ _ _ _ _ _ Ed) as (w3 & Ed').
  eexists _, _, _. split; [exact E|]. simpl. split.
  { rewrite C2, C1, <- !app_assoc. reflexivity. }
  exists (c1 ++ c2). split; [by apply Forall_app|].
  destruct ro as [o|], rd as [d|].
  - left. split; [|by rewrite <- app_assoc]. split; [done|]. split; eauto.
  - right. split; [|by rewrite app_nil_r].
    intros (_ & _ & d & w4 & Hd). rewrite Ed' in Hd. discriminate Hd.
  - right. split; [|by rewrite app_nil_r].
    intros (_ & (o & w4 & Ho) & _). rewrite Eo in Ho. discriminate Ho.
  - right. split; [|by rewrite app_nil_r].
    intros (_ & (o & w4 & Ho) & _). rewrite Eo in Ho. discriminate Ho.
Qed.

(** ** Provider failures *)

Lemma getShippoQuotes_fails (env : Env) (p : ParsedRequest) (contact : Contact)
    (w w' : World) (qs : list QuoteResult) :
  getShippoQuotes env p contact w = (Eff.Returned qs, w') ->
  shippoFails env p w -> qs = [].
Proof.
  intros H F.
  destruct (present (SHIPPO_API_KEY env)) eqn:K.
  2: { rewrite getShippoQuotes_no_key in H by done. by injection H as <- _. }
  destruct (getShippoQuotes_run env p contact w K) as (ro & w1 & rd & w2 & Eo & Ed & E).
  rewrite E in H. injection H as <- _.
  destruct F as [F|[(w3 & F)|[(a' & w3 & w4 & F1 & F2)|[F|F]]]].
  - congruence.
  - rewrite Eo in F. injection F as -> _. done.
  - rewrite Eo in F1. injection F1 as <- <-.
    destruct (buildShippoAddress_None_before env (destination p) (destCountry p) w w1 w4)
      as (w5 & F3); [|exact F2|].
    { eapply adds_subset; [apply buildShippoAddress_adds | exact Eo]. }
    destruct (buildShippoAddress_of_snapshot env _ _ w w1 _ _ F3) as (w6 & F4).
    rewrite Ed in F4. injection F4 as -> _. by destruct ro.
  - destruct ro as [o|], rd as [d|]; try done. by rewrite F.
  - destruct ro as [o|], rd as [d|]; try done.
    destruct (F (shipmentOf p contact o d)) as (ok & ->). done.
Qed.

Lemma getFreightosQuotes_fails (env : Env) (p : ParsedRequest)
    (w w' : World) (qs : list QuoteResult) :
  getFreightosQuotes env p w = (Eff.Returned qs, w') ->
  freightosFails env p -> qs = [].
Proof.
  rewrite getFreightosQuotes_eq. intros [= <- _] [F|(ok & F)]; by rewrite F.
Qed.

(** C7: neither provider function throws: each returns a list in every
    world; the list is empty on a failure (for the small-parcel path no API
    key, an address that does not resolve, a network error or an unreadable
    body; for the freight path a network error or an unreadable body); and
    the handler still answers with success, with both lists when both
    providers are asked, whichever of them came back empty. *)
Theorem C7_providers_never_throw
    (env : Env) (p : ParsedRequest) (contact : Contact) (w : World) :
  (exists qs w',
      getShippoQuotes env p contact w = (Eff.Returned qs, w')
      /\ (shippoFails env p w -> qs = []))
  /\ (exists qs w',
        getFreightosQuotes env p w = (Eff.Returned qs, w')
        /\ (freightosFails env p -> qs = []))
  /\ (exists r w',
        dispatch env p contact w = (Eff.Returned r, w')
        /\ success r = true
        /\ (chooseRoute p = BothProviders ->
            exists s w1 f w2,
              getShippoQuotes env p contact w = (Eff.Returned s, w1)
              /\ getFreightosQuotes env p w1 = (Eff.Returned f, w2)
              /\ (shippoFails env p w -> s = [])
              /\ (freightosFails env p -> f = [])
              /\ quotes r = s ++ f)).
Proof.
  split; [|split].
  - destruct (getShippoQuotes_total env p contact w) as (qs & w' & H).
    exists qs, w'. split; [done|]. intros F. by eapply getShippoQuotes_fails.
  - destruct (getFreightosQuotes_total env p w) as (qs & w' & H).
    exists qs, w'. split; [done|]. intros F. by eapply getFreightosQuotes_fails.
  - destruct (dispatch_returns env p contact w) as (label & s & f & w1 & w' & E & _ & R & _).
    eexists _, w'. split; [exact E|]. split; [done|].
    intros HB. rewrite HB in R. destruct R as (w0 & w2 & Hs & Hf & _).
    rewrite getFreightosQuotes_eq in Hf. injection Hf as Hf _.
    exists s, w0, f, (mkWorld (LOCATION_CACHE w0) (calls w0 ++ [FreightosEstimate])).
    split; [exact Hs|]. split; [by rewrite getFreightosQuotes_eq, Hf|].
    split; [intros F; by eapply getShippoQuotes_fails|].
    split; [|done].
    intros F. eapply (getFreightosQuotes_fails env p w); [|exact F].
    by rewrite getFreightosQuotes_eq, Hf.
Qed.

(** ** The routing table *)

(** C1: for a parsed request that passes validation the handler answers
    with success and the concatenation of the two providers' lists, and the
    providers it queries follow the routing table.  On the first row only
    the freight provider: the freight list is what [getFreightosQuotes]
    returns, the other list is empty, and the calls of the request are the
    one call to the freight provider and then the save.  Otherwise, on the
    second row, only the small-parcel provider: its list is what
    [getShippoQuotes] returns, the freight list is empty, and the calls of
    the request are those of [getShippoQuotes] (calls of address resolution,
    then the rate request when there is an API key and both addresses
    resolve) and then the save.  In every other case both: each list is what
    its provider function returns, the two started from the same cache, and
    the calls of the request are those of [getShippoQuotes] and the one call
    to the freight provider, in some order, and then the save. *)
Theorem C1_dispatch_follows_routing_table
    (env : Env) (p : ParsedRequest) (contact : Contact) (w : World) :
  missingInfoOf p = [] ->
  exists label shippoQuotes freightosQuotes w',
    quoteParsed env p contact w
      = (Eff.Returned (successResponse label p shippoQuotes freightosQuotes), w')
    /\ quotes (successResponse label p shippoQuotes freightosQuotes)
         = shippoQuotes ++ freightosQuotes
    /\ (freightRow p ->
          label = "Freightos Only (Freight)"%string /\ shippoQuotes = []
          /\ (exists w1, getFreightosQuotes env p w = (Eff.Returned freightosQuotes, w1))
          /\ calls w' = calls w ++ [FreightosEstimate] ++ saved env)
    /\ (~ freightRow p -> parcelRow p ->
          label = "Shippo Only (Domestic Parcel)"%string /\ freightosQuotes = []
          /\ exists w1 cs,
               getShippoQuotes env p contact w = (Eff.Returned shippoQuotes, w1)
               /\ calls w1 = calls w ++ cs /\ shippoCalls env p w cs
               /\ calls w' = calls w ++ cs ++ saved env)
    /\ (~ freightRow p -> ~ parcelRow p ->
          label = "Both (Comparison)"%string
          /\ exists w1 cs w2 legs,
               getShippoQuotes env p contact w = (Eff.Returned shippoQuotes, w1)
               /\ calls w1 = calls w ++ cs /\ shippoCalls env p w cs
               /\ getFreightosQuotes env p (snapshot w w1)
                  = (Eff.Returned freightosQuotes, w2)
               /\ Permutation legs (cs ++ [FreightosEstimate])
               /\ calls w' = calls w ++ legs ++ saved env).
Proof.
  intros Hvalid. pose proof (chooseRoute_rows p) as HR.
  unfold quoteParsed. rewrite Hvalid.
  destruct (getShippoQuotes_calls env p contact w) as (s & w1 & cs & Hs & Cs & Ks).
  unfold dispatch. destruct (chooseRoute p).
  - eexists "Freightos Only (Freight)"%string, [], _, _. split; [|split; [done|]].
    { unfold Eff.bind, Eff.ret. rewrite getFreightosQuotes_eq. cbv beta iota.
      rewrite saveToDatabase_eq. reflexivity. }
    split; [intros _ | split; intros; tauto].
    split; [done|]. split; [done|]. split; [|simpl; by rewrite <- app_assoc].
    eexists. apply getFreightosQuotes_eq.
  - destruct HR as [HnF HP].
    eexists "Shippo Only (Domestic Parcel)"%string, s, [], _. split; [|split; [done|]].
    { unfold Eff.bind, Eff.ret. rewrite Hs. cbv beta iota.
      rewrite saveToDatabase_eq. reflexivity. }
    split; [tauto | split; [intros _ _ | tauto]].
    split; [done|]. split; [done|]. exists w1, cs.
    split; [done|]. split; [done|]. split; [done|]. simpl. by rewrite Cs, <- app_assoc.
  - destruct HR as [HnF HnP].
    eexists "Both (Comparison)"%string, s, _, _. split; [|split; [done|]].
    { unfold Eff.bind, Eff.ret.
      rewrite (all2_returned _ _ _ _ _ _ _ _ Hs (getFreightosQuotes_eq env p _)).
      cbv beta iota. rewrite saveToDatabase_eq. reflexivity. }
    split; [tauto | split; [tauto | intros _ _]].
    split; [done|]. eexists w1, cs, _, (cs ++ [FreightosEstimate]).
    split; [done|]. split; [done|]. split; [done|].
    split; [apply getFreightosQuotes_eq|]. split; [reflexivity|].
    simpl. by rewrite Cs, <- !app_assoc.
Qed.

(** C1 at three requests between two ZIP codes when every service answers:
    a box of 20 lb goes to the small-parcel provider only, a pallet to the
    freight provider only, and a box of 200 lb to both. *)
Lemma C1_witness :
  (missingInfoOf smallBox = []
   /\ exists label shippoQuotes freightosQuotes w',
        quoteParsed allReachable smallBox noContact emptyWorld
          = (Eff.Returned (successResponse label smallBox shippoQuotes freightosQuotes), w')
        /\ quotes (successResponse label smallBox shippoQuotes freightosQuotes)
             = shippoQuotes ++ freightosQuotes
        /\ (freightRow smallBox ->
              label = "Freightos Only (Freight)"%string /\ shippoQuotes = []
              /\ (exists w1, getFreightosQuotes allReachable smallBox emptyWorld
                             = (Eff.Returned freightosQuotes, w1))
              /\ calls w' = calls emptyWorld ++ [FreightosEstimate] ++ saved allReachable)
        /\ (~ freightRow smallBox -> parcelRow smallBox ->
              label = "Shippo Only (Domestic Parcel)"%string /\ freightosQuotes = []
              /\ exists w1 cs,
                   getShippoQuotes allReachable smallBox noContact emptyWorld
                     = (Eff.Returned shippoQuotes, w1)
                   /\ calls w1 = calls emptyWorld ++ cs
                   /\ shippoCalls allReachable smallBox emptyWorld cs
                   /\ calls w' = calls emptyWorld ++ cs ++ saved allReachable)
        /\ (~ freightRow smallBox -> ~ parcelRow smallBox ->
              label = "Both (Comparison)"%string
              /\ exists w1 cs w2 legs,
                   getShippoQuotes allReachable smallBox noContact emptyWorld
                     = (Eff.Returned shippoQuotes, w1)
                   /\ calls w1 = calls emptyWorld ++ cs
                   /\ shippoCalls allReachable smallBox emptyWorld cs
                   /\ getFreightosQuotes allReachable smallBox (snapshot emptyWorld w1)
                      = (Eff.Returned freightosQuotes, w2)
                   /\ Permutation legs (cs ++ [FreightosEstimate])
                   /\ calls w' = calls emptyWorld ++ legs ++ saved allReachable))
  /\ (~ freightRow smallBox /\ parcelRow smallBox
      /\ quoteParsed allReachable smallBox noContact emptyWorld
         = (Eff.Returned
              (successResponse "Shippo Only (Domestic Parcel)" smallBox twoQuotes []),
            mkWorld (<["33142"%string := miami]> (<["90210"%string := beverlyHills]> ∅))
              [ZipLookup "33142"; ZipLookup "90210"; ShippoRates; DatabaseInsert]))
  /\ (freightRow palletLoad
      /\ quoteParsed allReachable palletLoad noContact emptyWorld
         = (Eff.Returned
              (successResponse "Freightos Only (Freight)" palletLoad []
                 [mkQuote "Freightos" "Ground Freight (Estimate)" (Num.literal "272.4") "USD"
                    (Some [Text "2-7 days"]) (Some "Ground")]),
            mkWorld ∅ [FreightosEstimate; DatabaseInsert]))
  /\ (~ freightRow heavyBox /\ ~ parcelRow heavyBox
      /\ exists legs,
           Permutation legs
             [ZipLookup "33142"; ZipLookup "90210"; ShippoRates; FreightosEstimate]
           /\ quoteParsed allReachable heavyBox noContact emptyWorld
              = (Eff.Returned
                   (successResponse "Both (Comparison)" heavyBox twoQuotes
                      [mkQuote "Freightos" "Ground Freight (Estimate)"
                         (Num.literal "109.2") "USD" (Some [Text "2-7 days"])
                         (Some "Ground")]),
                 mkWorld
                   (<["33142"%string := miami]> (<["90210"%string := beverlyHills]> ∅))
                   (legs ++ [DatabaseInsert]))).
Proof.
  split.
  { split; [reflexivity|].
    apply (C1_dispatch_follows_routing_table allReachable smallBox noContact emptyWorld).
    reflexivity. }
  split.
  { split; [|split].
    - intros [H|[H _]]; discriminate H.
    - split; [reflexivity|]. eexists. split; reflexivity.
    - vm_compute. reflexivity. }
  split.
  { split; [by left|]. vm_compute. reflexivity. }
  split; [|split].
  - intros [H|[H _]]; discriminate H.
  - intros (_ & q & [= <-] & H). discriminate H.
  - exists [ZipLookup "33142"; ZipLookup "90210"; ShippoRates; FreightosEstimate].
    split; [reflexivity|]. vm_compute. reflexivity.
Defined.

(** ** The tiers of the freight normalizer *)

(** The rate the reduction selects is one of the rates. *)
Lemma cheapestRate_In (others : list FreightosRate) (first : FreightosRate) :
  In (cheapestRate first others) (first :: others).
Proof.
  unfold cheapestRate. revert first.
  induction others as [|x others IH]; intros first; simpl; [by left|].
  destruct (Num.ltb (ratePrice x Num.zero) (ratePrice first Num.infinity)).
  - right. apply IH.
  - destruct (IH first) as [H|H]; [by left | right; by right].
Qed.

Lemma cheapestQuote_tier (tagged : list FreightosRate) (service_ mode_ : string) :
  tierQuote tagged service_ mode_ (cheapestQuote tagged service_ mode_).
Proof.
  destruct tagged as [|first others]; [done|]. simpl.
  split; [done|]. split; [done|]. split; [done|]. split.
  - exists (cheapestRate first others). split; [apply cheapestRate_In | done].
  - intros Hp.
    destruct (cheapestRate_lowest others [first] first) as [_ Hl]; [exact Hp | by left | |].
    + intros r [<-|[]]. apply OrderFacts.ltb_irrefl.
    + exact Hl.
Qed.

(** C4, as the code has it: the quotes of the structured estimate modes and
    those of the flat list are cumulative, the flat list's after the
    estimates'.  The flat list, when there is one, yields one quote for its
    air-tagged rates, when it has any, and one for its ocean-tagged rates,
    when it has any: the quote labelled "(Cheapest)", made of the rate the
    reduction selects among them, whose price is the lowest of theirs when
    every one of them has a price.  Only when neither the estimates nor the
    tagged rates produced a quote are the first five flat rates returned as
    they are, or, without any flat rate, the static estimate. *)
Theorem C4_tiers_are_cumulative (p : ParsedRequest) (data : FreightosData) :
  let flat := match rateList data with Some rates => rateQuotes rates | None => [] end in
  (estimateQuotes p data ++ flat <> [] ->
   normalizeFreightos p data = estimateQuotes p data ++ flat)
  /\ (estimateQuotes p data ++ flat = [] ->
      normalizeFreightos p data =
        match rateList data with
        | Some (r :: rs) => List.map verbatimQuote (firstn 5 (r :: rs))
        | _ => heuristicQuotes p
        end)
  /\ exists airQuotes oceanQuotes,
       flat = airQuotes ++ oceanQuotes
       /\ match rateList data with
          | Some rates =>
              tierQuote (airRates rates) "Air Freight (Cheapest)" "Air" airQuotes
              /\ tierQuote (oceanRates rates) "Ocean Freight (Cheapest)" "Ocean/LCL"
                   oceanQuotes
          | None => airQuotes = [] /\ oceanQuotes = []
          end.
Proof.
  intros flat. pose proof (normalizeFreightos_cases p data) as H. fold flat in H.
  split; [|split].
  - intros Hne. rewrite H. by destruct (estimateQuotes p data ++ flat).
  - intros He. by rewrite H, He.
  - subst flat. destruct (rateList data) as [rates|].
    + eexists _, _. split; [reflexivity|]. split; apply cheapestQuote_tier.
    + by exists [], [].
Qed.

(** C4 at an answer with an air estimate of 100 dollars and two air-tagged
    flat rates, of 100 and 80 dollars: the quote of the estimate, then the
    quote of the flat rate of 80 dollars. *)
Lemma C4_witness :
  normalizeFreightos smallBox
    (mkFreightosData (Some (ManyModes [airEstimate])) (Some [pricedRate 100; airRate]) None)
  = [mkQuote "Freightos" "Air Freight (Estimate)" (Num.of_Z 100) "USD" None (Some "Air");
     mkQuote "Freightos" "Air Freight (Cheapest)" (Num.of_Z 80) "USD"
       (Some [Text "Varies"]) (Some "Air")].
Proof.
  rewrite (proj1 (C4_tiers_are_cumulative smallBox
                    (mkFreightosData (Some (ManyModes [airEstimate]))
                       (Some [pricedRate 100; airRate]) None))).
  - vm_compute. reflexivity.
  - vm_compute. discriminate.
Defined.

(** ** The static estimate *)




(** ** The address cache *)




(** A location that does not resolve from a cache does not resolve as the
    second of two resolutions made together from that cache. *)
Lemma unresolved_snapshot (env : Env) (location : string) (w w1 w2 : World) :
  resolveUsAddress env location w = (Eff.Returned None, w2) ->
  exists w3, buildShippoAddress env location "US" (snapshot w w1) = (Eff.Returned None, w3).
Proof.
  intros H. apply (buildShippoAddress_of_snapshot env location "US" w w1 w2).
  rewrite buildShippoAddress_US. by rewrite (bind_returned _ _ _ _ _ H).
Qed.


